(** * Lassy tree-to-DAG conversion and type assignment (DS_BU.py)

    A shallow embedding of the graph-construction and type-assignment
    engine of [DS_BU.py]: the [Lassy] static methods working on an
    ElementTree and the [Decompose] methods working on the adjacency
    dictionary.

    Python objects with identity (ElementTree elements) live in a store
    indexed by handles; dictionaries whose iteration order the code relies
    on are association lists; exceptions are values of [result]. *)

From Stdlib Require Import ZArith String List Permutation Sorted.
From stdpp Require Import gmap strings list pretty sorting.

Set Warnings "-register-all,-clear-no-such-hyp".

Open Scope string_scope.
Open Scope Z_scope.
Open Scope list_scope.

(** ** Python exceptions and results *)

Inductive exn :=
  | KeyError
  | IndexError
  | AttributeError
  | TypeError
  | NotImplementedError
  | ValueError (msg : string).

(** [Stuck] is a state no Python run can be in (a handle without an
    object, or a value shape the model's types exclude); [OutOfFuel] is the
    model's bound on recursion depth. *)
Inductive result (A : Type) :=
  | Ok (a : A)
  | Raise (e : exn)
  | OutOfFuel
  | Stuck.
Arguments Ok {A} a.
Arguments Raise {A} e.
Arguments OutOfFuel {A}.
Arguments Stuck {A}.

Global Instance result_bind : MBind result := λ A B k m,
  match m with
  | Ok a => k a
  | Raise e => Raise e
  | OutOfFuel => OutOfFuel
  | Stuck => Stuck
  end.

Global Instance result_fmap : FMap result := λ A B f m,
  match m with
  | Ok a => Ok (f a)
  | Raise e => Raise e
  | OutOfFuel => OutOfFuel
  | Stuck => Stuck
  end.

Definition of_option {A} (e : exn) (o : option A) : result A :=
  match o with Some a => Ok a | None => Raise e end.

Fixpoint mapM {A B} (f : A → result B) (l : list A) : result (list B) :=
  match l with
  | [] => Ok []
  | x :: l' => y ← f x; ys ← mapM f l'; Ok (y :: ys)
  end.

(** [for x in l: st = body x st], over a list that the body does not
    change. *)
Fixpoint foldM {A St} (body : A → St → result St) (l : list A) (st : St) : result St :=
  match l with
  | [] => Ok st
  | x :: l' => st' ← body x st; foldM body l' st'
  end.

(** [list(filter(p, l))] for a predicate that may raise. *)
Fixpoint filterM {A} (p : A → result bool) (l : list A) : result (list A) :=
  match l with
  | [] => Ok []
  | x :: l' =>
      b ← p x; r ← filterM p l'; Ok (if (b : bool) then x :: r else r)
  end.

(** ** Python built-ins *)

(** [sorted(l, key=key)]: a stable sort. [x] goes in front of the first
    element whose key is not smaller, so equal keys keep their order. *)
Fixpoint insert_sorted {A K} (leb : K → K → bool) (key : A → K) (x : A) (l : list A) : list A :=
  match l with
  | [] => [x]
  | y :: l' => if leb (key x) (key y) then x :: y :: l' else y :: insert_sorted leb key x l'
  end.

Definition sorted {A K} (leb : K → K → bool) (key : A → K) (l : list A) : list A :=
  foldr (insert_sorted leb key) [] l.

(** The order [sorted] arranges its result in. *)
Definition key_le {A K} (leb : K → K → bool) (key : A → K) (x y : A) : Prop :=
  leb (key x) (key y) = true.

(** Comparison of the integer triples used as sort keys. *)
Definition triple_leb (a b : Z * Z * Z) : bool :=
  let '(a1, a2, a3) := a in
  let '(b1, b2, b3) := b in
  if a1 <? b1 then true else if b1 <? a1 then false else
  if a2 <? b2 then true else if b2 <? a2 then false else
  a3 <=? b3.

(** [l.remove(x)]: drops the first element equal to [x]; [None] stands for
    the ValueError raised when there is none. *)
Fixpoint py_remove {A} `{EqDecision A} (x : A) (l : list A) : option (list A) :=
  match l with
  | [] => None
  | y :: l' => if decide (y = x) then Some l' else cons y <$> py_remove x l'
  end.

(** [x in l] *)
Definition py_in {A} `{EqDecision A} (x : A) (l : list A) : bool :=
  bool_decide (x ∈ l).

(** [itertools.groupby(l, key)]: maximal runs of consecutive equal keys. *)
Fixpoint groupby {A K} `{EqDecision K} (key : A → K) (l : list A) : list (K * list A) :=
  match l with
  | [] => []
  | x :: l' =>
      match groupby key l' with
      | (k, g) :: r =>
          if decide (key x = k) then (k, x :: g) :: r else (key x, [x]) :: (k, g) :: r
      | [] => [(key x, [x])]
      end
  end.

(** [for x in l: ...] when the body may change [l] itself: the list
    iterator keeps an index into the current list and stops when the index
    reaches its length. [st.2] is the list, [st.1] the rest of the state. *)
Fixpoint for_mut {A St} (body : A → St * list A → result (St * list A))
    (fuel idx : nat) (st : St * list A) : result (St * list A) :=
  match st.2 !! idx with
  | None => Ok st
  | Some x =>
      match fuel with
      | O => OutOfFuel
      | S f => st' ← body x st; for_mut body f (S idx) st'
      end
  end.

(** [s[0:-1]] *)
Definition drop_last (s : string) : string :=
  String.substring 0 (String.length s - 1) s.

(** [s.split(sep)[0]] *)
Definition split_head (sep s : string) : result string :=
  if bool_decide (sep = "") then Raise (ValueError "empty separator")
  else match String.index 0 sep s with
       | Some i => Ok (String.substring 0 i s)
       | None => Ok s
       end.

(** What is known of the order in which Python iterates over [set(l)]:
    each element of [l] comes once. *)
Definition set_order {A} (it : list A → list A) : Prop :=
  ∀ l, NoDup (it l) ∧ ∀ x, x ∈ it l ↔ x ∈ l.

(** An iteration order that starts with [k]. *)
Definition starting_with {A} `{EqDecision A} (k : A) (l : list A) : list A :=
  let d := remove_dups l in
  if decide (k ∈ d) then k :: filter (λ x, x ≠ k) d else d.

(** The iteration order by increasing string. *)
Definition sorted_set_iter (l : list string) : list string :=
  sorted String.leb (λ x, x) (remove_dups l).

(** [len([x for x in l if x == c])] *)
Definition count {A} `{EqDecision A} (c : A) (l : list A) : nat :=
  length (filter (λ x, x = c) l).

(** *** Insertion-ordered dictionaries *)

(** [d[k]] *)
Fixpoint dict_get {K V} `{EqDecision K} (k : K) (d : list (K * V)) : option V :=
  match d with
  | [] => None
  | (k', v) :: d' => if decide (k' = k) then Some v else dict_get k d'
  end.

(** [d[k] = v]: an existing key keeps its position. *)
Fixpoint dict_set {K V} `{EqDecision K} (k : K) (v : V) (d : list (K * V)) : list (K * V) :=
  match d with
  | [] => [(k, v)]
  | (k', v') :: d' => if decide (k' = k) then (k, v) :: d' else (k', v') :: dict_set k v d'
  end.

(** [del d[k]]; [None] stands for the KeyError of a missing key. *)
Fixpoint dict_del {K V} `{EqDecision K} (k : K) (d : list (K * V)) : option (list (K * V)) :=
  match d with
  | [] => None
  | (k', v) :: d' => if decide (k' = k) then Some d' else cons (k', v) <$> dict_del k d'
  end.

(** A dict comprehension [{k: v for k, v in entries}]. *)
Definition dict_of {K V} `{EqDecision K} (entries : list (K * V)) : list (K * V) :=
  fold_left (λ d kv, dict_set kv.1 kv.2 d) entries [].

(** [{k: v, **d}] *)
Definition dict_prepend {K V} `{EqDecision K} (k : K) (v : V) (d : list (K * V)) : list (K * V) :=
  fold_left (λ acc kv, dict_set kv.1 kv.2 acc) d [(k, v)].

(** ** Data model *)

(** Handle of an ElementTree element: the identity Python compares
    elements by. *)
Abbreviation loc := positive.

Inductive Marker := primary | secondary.

(** The label of an edge: a bare relation name, or the two-element list
    [[name, 'primary' | 'secondary']]. *)
Inductive Rel :=
  | Plain (r : string)
  | Marked (r : string) (m : Marker).

(** The [rel] attribute: the relation name read from the XML, or after
    [tree_to_dag] a dictionary from parent identifiers to edge labels. *)
Inductive RelAttr :=
  | RelStr (r : string)
  | RelDict (d : list (Z * Rel)).

(** The attributes of a node. [id], [begin] and [end] hold decimal numerals
    in the XML; the model keeps their integer values, so that [int(...)]
    is the identity and [str(...)] is [pretty]. *)
Record Attrib := mkAttrib {
  id : Z;
  begin : Z;
  end_ : Z;
  word : option string;
  pos : option string;
  cat : option string;
  index : option string;
  rel : RelAttr
}.

Record Element := mkElement {
  attrib : Attrib;
  children : list loc
}.

Global Instance Marker_eq_dec : EqDecision Marker.
Proof. solve_decision. Defined.
Global Instance Rel_eq_dec : EqDecision Rel.
Proof. solve_decision. Defined.
Global Instance RelAttr_eq_dec : EqDecision RelAttr.
Proof. solve_decision. Defined.
Global Instance Attrib_eq_dec : EqDecision Attrib.
Proof. solve_decision. Defined.
Global Instance Element_eq_dec : EqDecision Element.
Proof. solve_decision. Defined.

Abbreviation store := (gmap loc Element).

Definition set_rel (v : RelAttr) (a : Attrib) : Attrib :=
  mkAttrib (id a) (begin a) (end_ a) (word a) (pos a) (cat a) (index a) v.
Definition set_word (v : string) (a : Attrib) : Attrib :=
  mkAttrib (id a) (begin a) (end_ a) (Some v) (pos a) (cat a) (index a) (rel a).
Definition set_cat (v : string) (a : Attrib) : Attrib :=
  mkAttrib (id a) (begin a) (end_ a) (word a) (pos a) (Some v) (index a) (rel a).

(** [node.attrib] *)
Definition get (s : store) (l : loc) : result Attrib :=
  match s !! l with Some e => Ok (attrib e) | None => Stuck end.

Definition get_children (s : store) (l : loc) : result (list loc) :=
  match s !! l with Some e => Ok (children e) | None => Stuck end.

(** In-place update of the attribute dictionary of [l]. *)
Definition upd (f : Attrib → Attrib) (l : loc) (s : store) : result store :=
  match s !! l with
  | Some e => Ok (<[l := mkElement (f (attrib e)) (children e)]> s)
  | None => Stuck
  end.

(** A key of the adjacency dictionary that is not a multi-word unit. *)
Definition not_mwu (s : store) (key : option loc) : Prop :=
  ∀ k, key = Some k → ∃ a, get s k = Ok a ∧ cat a ≠ Some "mwu".

(** The adjacency dictionary: keys are nodes or [None] (the root
    sentinel), values are lists of [[child, rel]] pairs. *)
Abbreviation Grouped := (list (option loc * list (loc * Rel))).

(** ** class Lassy *)

(** An ElementTree is represented by the handle of its top [node]
    element, the element that [xtree.getroot().find('node')] returns; the
    elements of other tags play no role in the functions below. *)
Module Lassy.

(** [extract_nodes]: the generator yields the root with parent [None],
    then the [(child, parent)] pairs level by level. [parents] is the
    list of the current level. *)
Fixpoint extract_level (fuel : nat) (s : store) (parents : list loc)
    : result (list (loc * option loc)) :=
  match parents with
  | [] => Ok []
  | _ :: _ =>
      match fuel with
      | O => OutOfFuel
      | S f =>
          level ← mapM (λ parent,
                     cs ← get_children s parent;
                     Ok (map (λ child, (child, Some parent)) cs)) parents;
          rest ← extract_level f s (map fst (concat level));
          Ok (concat level ++ rest)
      end
  end.

Definition extract_nodes (fuel : nat) (s : store) (xtree : loc)
    : result (list (loc * option loc)) :=
  rest ← extract_level fuel s [xtree];
  Ok ((xtree, None) :: rest).

(** [xtree.iter('node')]: the nodes in document order. *)
Fixpoint iter (fuel : nat) (s : store) (l : loc) : result (list loc) :=
  match fuel with
  | O => OutOfFuel
  | S f =>
      cs ← get_children s l;
      sub ← mapM (iter f s) cs;
      Ok (l :: concat sub)
  end.

(** The nodes carrying [index], each with its index. *)
Definition coindexed_of (nas : list (loc * Attrib)) : list (string * (loc * Attrib)) :=
  omap (λ na, i ← index na.2; Some (i, na)) nas.

Definition is_main_candidate (na : loc * Attrib) : bool :=
  bool_decide (is_Some (cat na.2)) || bool_decide (is_Some (word na.2)).

(** The first node in [nas] (nodes in document order with their
    attributes) that has index [i] and carries [cat] or [word]. *)
Definition first_candidate_of (nas : list (loc * Attrib)) (i : string) : option loc :=
  fst <$> head (filter (λ na : loc * Attrib,
                          is_main_candidate na = true ∧ index na.2 = Some i) nas).

(** The [main_coind] entry of a group, from its list of nodes. *)
Definition pick_main (inodes : string * list (loc * Attrib)) : result (string * loc) :=
  match filter (λ na, is_main_candidate na = true) inodes.2 with
  | na :: _ => Ok (inodes.1, na.1)
  | [] => Raise IndexError
  end.

Definition find_main_coindex (fuel : nat) (s : store) (xtree : loc)
    : result (list (string * list loc) * list (string * loc)) :=
  nodes ← iter fuel s xtree;
  nas ← mapM (λ l, a ← get s l; Ok (l, a)) nodes;
  let coindexed := coindexed_of nas in
  match coindexed with
  | [] => Ok ([], [])
  | _ :: _ =>
      let all_coind : list (string * list (loc * Attrib)) :=
        dict_of (map (λ ig : string * list (string * (loc * Attrib)), (ig.1, map snd ig.2))
                   (groupby fst (sorted String.leb fst coindexed))) in
      main_coind ← mapM pick_main all_coind;
      Ok (map (λ inodes : string * list (loc * Attrib), (inodes.1, map fst inodes.2)) all_coind,
          dict_of main_coind)
  end.

(** The copies of the children [cs], made one after the other by [copy]. *)
Fixpoint copy_children (copy : loc → store * gmap loc loc → result (loc * (store * gmap loc loc)))
    (cs : list loc) (st : store * gmap loc loc)
    : result (list loc * (store * gmap loc loc)) :=
  match cs with
  | [] => Ok ([], st)
  | c :: cs' =>
      '(c', st') ← copy c st;
      '(r, st'') ← copy_children copy cs' st';
      Ok (c' :: r, st'')
  end.

(** [copy.deepcopy] of an element: a fresh element with the same
    attributes and deep copies of the children; [st.2] is the memo, from
    the elements already copied to their copies. *)
Fixpoint deepcopy (fuel : nat) (l : loc) (st : store * gmap loc loc)
    : result (loc * (store * gmap loc loc)) :=
  match fuel with
  | O => OutOfFuel
  | S f =>
      match st.2 !! l with
      | Some l' => Ok (l', st)
      | None =>
          match st.1 !! l with
          | None => Stuck
          | Some e =>
              '(cs, st1) ← copy_children (deepcopy f) (children e) st;
              let l' := fresh (dom st1.1) in
              Ok (l', (<[l' := mkElement (attrib e) cs]> st1.1, <[l := l']> st1.2))
          end
      end
  end.

(** What holds of the store and the memo while a tree of [s] is copied:
    the elements of [s] are as they were, the new elements have new
    children only, and the memo points to new elements. *)
Definition copy_inv (s : store) (st : store * gmap loc loc) : Prop :=
  (∀ k e, s !! k = Some e → st.1 !! k = Some e)
  ∧ (∀ k e, s !! k = None → st.1 !! k = Some e → Forall (λ c, s !! c = None) (children e))
  ∧ (∀ k k', st.2 !! k = Some k' → s !! k' = None).

(** Stores in which the elements outside [s] only have children
    outside [s]. *)
Definition closed_outside (s s1 : store) : Prop :=
  ∀ k e, s !! k = None → s1 !! k = Some e → Forall (λ c, s !! c = None) (children e).

(** First loop of [tree_to_dag]: the main node of a group records its
    structural parent as primary. *)
Definition mark_primary (main_coind : list (string * loc))
    (np : loc * option loc) (s : store) : result store :=
  let '(node, parent) := np in
  if py_in node (map snd main_coind) then
    a ← get s node;
    p ← of_option AttributeError parent;
    pa ← get s p;
    match rel a with
    | RelStr r => upd (set_rel (RelDict [(id pa, Marked r primary)])) node s
    | RelDict _ => Stuck
    end
  else Ok s.

(** Second loop of [tree_to_dag]: a duplicate hands its edge over to the
    main node of its group and is removed from its parent; a node without
    index gets its dictionary. *)
Definition redirect (main_coind : list (string * loc))
    (np : loc * option loc) (s : store) : result store :=
  let '(node, parent) := np in
  a ← get s node;
  match rel a with
  | RelStr r =>
      match index a with
      | Some i =>
          p ← of_option AttributeError parent;
          pa ← get s p;
          main ← of_option KeyError (dict_get i main_coind);
          ma ← get s main;
          match rel ma with
          | RelDict d =>
              s ← upd (set_rel (RelDict (dict_prepend (id pa) (Marked r secondary) d))) main s;
              pcs ← get_children s p;
              pa' ← get s p;
              cs ← of_option (ValueError "list.remove(x): x not in list") (py_remove node pcs);
              Ok (<[p := mkElement pa' cs]> s)
          | RelStr _ => Raise TypeError
          end
      | None =>
          p ← of_option AttributeError parent;
          pa ← get s p;
          upd (set_rel (RelDict [(id pa, Plain r)])) node s
      end
  | RelDict _ => Ok s
  end.

Definition tree_to_dag (fuel : nat) (s : store) (xtree : loc) (inline : bool)
    : result (store * loc) :=
  '(xtree, s) ← (if inline then Ok (xtree, s)
                 else '(x', st) ← deepcopy fuel xtree (s, ∅); Ok (x', st.1));
  nodes ← extract_nodes fuel s xtree;
  '(_, main_coind) ← find_main_coindex fuel s xtree;
  s ← foldM (mark_primary main_coind) (tail nodes) s;
  s ← foldM (redirect main_coind) (tail nodes) s;
  Ok (s, xtree).

End Lassy.

(** ** The type algebra (module WordType) *)

(** The classes [WordType] and [ColouredType] are imported from a module
    that is not part of the sources at hand; the operations the code
    applies to them are the fields of this interface. *)
Class TypeAlgebra := {
  WType : Type;
  (** [WordType((), label)] for a category label of the type table *)
  atom : string → WType;
  (** [WordType((), t, modality=m)] *)
  word_type : WType → bool → WType;
  (** [ColouredType(argtypes, result, colors=colors, modality=m)] *)
  coloured : list WType → WType → list string → bool → WType;
  (** [ColouredType(arg, result, color)], a single argument and colour *)
  coloured1 : WType → WType → string → WType;
  (** [t1 == t2] *)
  wt_eqb : WType → WType → bool;
  (** [t.__repr__()] *)
  repr : WType → string;
  (** [t.arglist[0]], [t.result], [t.colors[0]] *)
  arglist0 : WType → result WType;
  result_of : WType → result WType;
  colors0 : WType → result string;
  (** [WordType.remove_deps(t)] *)
  remove_deps : WType → WType
}.

(** ** class Decompose *)

Module Decompose.

Section WithTypes.
Context `{TA : TypeAlgebra}.

(** The fields set by [__init__]. [get_key] is the method below. *)
Record Decompose := mkDecompose {
  type_dict : gmap string WType;
  unify : bool;
  return_lists : bool;
  text_pipeline : string → string;
  separation_symbol : string;
  head_candidates : list string
}.

(** The table [__init__] builds when no [type_dict] is given. *)
Definition default_type_dict : gmap string WType :=
  list_to_map (map (λ kv : string * string, (kv.1, atom kv.2))
    [("adj", "ADJ"); ("adv", "ADV"); ("advp", "ADVP"); ("ahi", "AHI"); ("ap", "AP");
     ("comp", "COMP"); ("comparative", "COMPARATIVE"); ("conj", "CONJ"); ("cp", "CP");
     ("det", "DET"); ("detp", "DETP"); ("du", "DU"); ("fixed", "FIXED"); ("inf", "INF");
     ("mwu", "MWU"); ("name", "NP"); ("noun", "NP"); ("np", "NP"); ("num", "NP");
     ("oti", "OTI"); ("part", "PART"); ("pp", "PP"); ("ppart", "PPART");
     ("ppres", "PPRES"); ("prefix", "PREFIX"); ("prep", "PREP"); ("pron", "NP");
     ("punct", "PUNCT"); ("rel", "REL"); ("smain", "S"); ("ssub", "S"); ("sv1", "S");
     ("svan", "SVAN"); ("tag", "TAG"); ("ti", "TI"); ("top", "TOP"); ("verb", "VERB");
     ("vg", "VG"); ("whq", "WHQ"); ("whrel", "WHREL"); ("whsub", "WHSUB")]).

(** [Decompose(text_pipeline=..., separation_symbol=...)] with the other
    arguments at their defaults. *)
Definition init (text_pipeline : string → string) (separation_symbol : string) : Decompose :=
  mkDecompose default_type_dict false true text_pipeline separation_symbol
    ["hd"; "rhd"; "whd"; "cmp"; "crd"; "dlink"].

(** [self.get_key(node)] *)
Definition get_key (self : Decompose) (a : Attrib) : result string :=
  w ← of_option KeyError (word a);
  Ok (text_pipeline self w +:+ separation_symbol self +:+ pretty (id a)).

Definition is_leaf (a : Attrib) : bool := bool_decide (is_Some (word a)).

Definition get_rel (r : Rel) : string :=
  match r with Plain r => r | Marked r _ => r end.

Definition is_gap (r : Rel) : bool :=
  match r with Marked _ secondary => true | _ => false end.

(** [grouped[node]] *)
Definition children_of (grouped : Grouped) (node : option loc) : result (list (loc * Rel)) :=
  of_option KeyError (dict_get node grouped).

Section Runtime.
(** The order in which Python iterates over [set(l)]. It depends on the
    hashes of the strings in [l], which vary between interpreter runs. *)
Variable set_iter : list string → list string.

(** Lines 211-213 of [majority_vote]: the tally over the sibling types. *)
Definition votes_of (sibling_types : list string) : list (string * Z) :=
  dict_of (map (λ c, (c, Z.of_nat (count c sibling_types))) (set_iter sibling_types)).

Definition tally (sibling_types : list string) : result string :=
  of_option IndexError
    (head (map fst (sorted Z.leb (λ cv : string * Z, - cv.2) (votes_of sibling_types)))).

(** [get_type_key], with the recursive call to [majority_vote] passed in. *)
Definition get_type_key_with (vote : loc → result string) (s : store) (node : loc)
    : result string :=
  a ← get s node;
  match cat a with
  | Some c => if bool_decide (c = "conj") then vote node else Ok c
  | None => of_option KeyError (pos a)
  end.

Fixpoint majority_vote (fuel : nat) (s : store) (grouped : Grouped) (node : loc)
    : result string :=
  match fuel with
  | O => OutOfFuel
  | S f =>
      ch ← children_of grouped (Some node);
      sibling_types ← mapM (λ n : loc * Rel,
                         get_type_key_with (majority_vote f s grouped) s n.1) ch;
      tally sibling_types
  end.

Definition get_type_key (fuel : nat) (s : store) (grouped : Grouped) (node : loc)
    : result string :=
  get_type_key_with (majority_vote fuel s grouped) s node.

Definition get_plain_type (self : Decompose) (fuel : nat) (s : store)
    (grouped : Grouped) (node : loc) : result WType :=
  a ← get s node;
  match cat a with
  | Some c =>
      if bool_decide (c = "conj") then
        v ← majority_vote fuel s grouped node;
        of_option KeyError (type_dict self !! v)
      else of_option KeyError (type_dict self !! c)
  | None =>
      p ← of_option KeyError (pos a);
      of_option KeyError (type_dict self !! p)
  end.

(** *** split_dag *)

(** The keys of [grouped] whose child list is empty. *)
Definition empty_keys_of (grouped : Grouped) : list (option loc) :=
  map fst (filter (λ kv : option loc * list (loc * Rel), kv.2 = []) grouped).

Definition del_keys (keys : list (option loc)) (grouped : Grouped) : result Grouped :=
  foldM (λ key g, of_option KeyError (dict_del key g)) keys grouped.

Definition remove_error : exn := ValueError "list.remove(x): x not in list".

(** The inner loop of the cascade, lines 311-313: it removes from the
    list it is iterating over. *)
Definition drop_edges_to (empty_keys : list (option loc)) (ch : list (loc * Rel))
    : result (list (loc * Rel)) :=
  st ← for_mut (λ cr st,
          if py_in (Some cr.1) empty_keys
          then l ← of_option remove_error (py_remove cr st.2); Ok (tt, l)
          else Ok st) (length ch) 0 (tt, ch);
  Ok st.2.

Fixpoint cascade (fuel : nat) (grouped : Grouped) : result Grouped :=
  let empty_keys := empty_keys_of grouped in
  match empty_keys with
  | [] => Ok grouped
  | _ :: _ =>
      match fuel with
      | O => OutOfFuel
      | S f =>
          grouped ← del_keys empty_keys grouped;
          grouped ← mapM (λ kv : option loc * list (loc * Rel),
                       ch ← drop_edges_to empty_keys kv.2; Ok (kv.1, ch)) grouped;
          cascade f grouped
      end
  end.

Definition split_dag (s : store) (grouped : Grouped)
    (cats_to_remove rels_to_remove : list string) : result Grouped :=
  keys_to_remove ← filterM (λ key : option loc,
                      match key with
                      | None => Ok false
                      | Some k =>
                          a ← get s k;
                          Ok (match cat a with
                              | Some c => py_in c cats_to_remove
                              | None => false
                              end)
                      end) (map fst grouped);
  grouped ← del_keys keys_to_remove grouped;
  grouped ← mapM (λ kv : option loc * list (loc * Rel),
               let children_to_remove :=
                 filter (λ cr : loc * Rel,
                           py_in (Some cr.1) keys_to_remove = true
                           ∨ py_in (get_rel cr.2) rels_to_remove = true) kv.2 in
               ch ← foldM (λ c l, of_option remove_error (py_remove c l))
                      children_to_remove kv.2;
               Ok (kv.1, ch)) grouped;
  cascade (S (length grouped)) grouped.

(** The keys that the category filter of [split_dag] deletes: the nodes
    carrying [cat] with a category in [cats]. *)
Definition has_cat_in (s : store) (cats : list string) (key : option loc) : bool :=
  match key with
  | Some k =>
      match s !! k with
      | Some e => match cat (attrib e) with Some c => py_in c cats | None => false end
      | None => false
      end
  | None => false
  end.

(** The entries of [g'] are entries of [g] with some edges left out. *)
Definition thinned (g g' : Grouped) : Prop :=
  ∀ key ch', (key, ch') ∈ g' → ∃ ch, (key, ch) ∈ g ∧ ch' `sublist_of` ch.

Definition default_cats_to_remove : list string := ["du"].
Definition default_rels_to_remove : list string :=
  ["dp"; "sat"; "nucl"; "tag"; "--"; "top"].

(** *** abstract_object_to_subject *)

(** [rel == ['su', m] or rel == ['obj1', m]] *)
Definition is_so (m : Marker) (r : Rel) : bool :=
  bool_decide (r = Marked "su" m ∨ r = Marked "obj1" m).

(** The children carrying [cat] whose category is one of [cats]. *)
Definition with_cat (s : store) (cats : list string) (ch : list (loc * Rel))
    : result (list (loc * Rel)) :=
  filterM (λ x : loc * Rel,
             a ← get s x.1;
             Ok (match cat a with Some c => py_in c cats | None => false end)) ch.

(** The children of [ppart] carrying [index], attached by a primary [su]
    or [obj1] edge and coindexed with [real_so]. *)
Definition find_abstract (s : store) (grouped : Grouped) (real_so ppart : loc)
    : result (list (loc * Rel)) :=
  ch ← children_of grouped (Some ppart);
  filterM (λ x : loc * Rel,
             a ← get s x.1;
             match index a with
             | None => Ok false
             | Some i =>
                 if is_so primary x.2 then
                   ra ← get s real_so;
                   ri ← of_option KeyError (index ra);
                   Ok (bool_decide (i = ri))
                 else Ok false
             end) ch.

(** The body of the loop over [main_parent]. *)
Definition relabel_clause (main_parent : option loc) (st : store * Grouped)
    : result (store * Grouped) :=
  let '(s, grouped) := st in
  mp ← of_option AttributeError main_parent;
  a ← get s mp;
  c ← of_option KeyError (cat a);
  if negb (py_in c ["ssub"; "smain"; "sv1"]) then Ok st else
  ch ← children_of grouped main_parent;
  match filter (λ x : loc * Rel, is_so secondary x.2 = true) ch with
  | [] => Ok st
  | (real_so, real_rel) :: _ =>
      let parent_dep := get_rel real_rel in
      ti ← with_cat s ["ti"] ch;
      let parent := match ti with (t, _) :: _ => t | [] => mp end in
      pch ← children_of grouped (Some parent);
      pparts ← with_cat s ["ppart"; "inf"] pch;
      match pparts with
      | [] => Ok st
      | (ppart, _) :: _ =>
          abstract_so ← find_abstract s grouped real_so ppart;
          '(ppart, abstract_so) ←
            match abstract_so with
            | _ :: _ => Ok (ppart, abstract_so)
            | [] =>
                (* chained inf / ppart construction *)
                pch2 ← children_of grouped (Some ppart);
                pparts2 ← with_cat s ["ppart"; "inf"] pch2;
                match pparts2 with
                | (ppart2, _) :: _ =>
                    abstract_so ← find_abstract s grouped real_so ppart2;
                    Ok (ppart2, abstract_so)
                | [] => Ok (ppart, [])
                end
            end;
          match abstract_so with
          | [] => Ok st
          | (abstract_so, abstract_rel) :: _ =>
              let rel_ := get_rel abstract_rel in
              (* dictionary changes *)
              chp ← children_of grouped (Some ppart);
              chp ← of_option remove_error
                      (py_remove (abstract_so, Marked rel_ primary) chp);
              let grouped := dict_set (Some ppart) chp grouped in
              chm ← children_of grouped main_parent;
              chm ← of_option remove_error
                      (py_remove (abstract_so, Marked parent_dep secondary) chm);
              let grouped :=
                dict_set main_parent (chm ++ [(abstract_so, Marked parent_dep primary)])
                  grouped in
              (* internal node changes *)
              aa ← get s abstract_so;
              pa ← get s ppart;
              match rel aa with
              | RelStr _ => Raise TypeError
              | RelDict d =>
                  d ← of_option KeyError (dict_del (id pa) d);
                  ma ← get s mp;
                  s ← upd (set_rel (RelDict (dict_set (id ma) (Marked "su" primary) d)))
                        abstract_so s;
                  Ok (s, grouped)
              end
          end
      end
  end.

Definition abstract_object_to_subject (s : store) (grouped : Grouped)
    : result (store * Grouped) :=
  foldM relabel_clause (map fst grouped) (s, grouped).

(** *** remove_abstract_so *)

(** The body of the loop over the children of [parent]; the state is the
    store and the child list being iterated over. *)
Definition remove_abstract_edge (parent : loc) (cr : loc * Rel)
    (st : store * list (loc * Rel)) : result (store * list (loc * Rel)) :=
  let '(s, ch) := st in
  match cr.2 with
  | Plain _ => Ok st
  | Marked r m =>
      if bool_decide (r = "su" ∨ r = "obj1") then
        match m with
        | secondary =>
            ch ← of_option remove_error (py_remove cr ch);
            ca ← get s cr.1;
            pa ← get s parent;
            match rel ca with
            | RelStr _ => Raise TypeError
            | RelDict d =>
                d ← of_option KeyError (dict_del (id pa) d);
                s ← upd (set_rel (RelDict d)) cr.1 s;
                Ok (s, ch)
            end
        | primary => _ ← get s cr.1; Ok st
        end
      else Ok st
  end.

Definition remove_abstract_under (parent : option loc) (st : store * Grouped)
    : result (store * Grouped) :=
  let '(s, grouped) := st in
  p ← of_option AttributeError parent;
  a ← get s p;
  c ← of_option KeyError (cat a);
  if bool_decide (c ≠ "ppart" ∧ c ≠ "inf") then Ok st else
  ch ← children_of grouped parent;
  '(s, ch) ← for_mut (remove_abstract_edge p) (length ch) 0 (s, ch);
  Ok (s, dict_set parent ch grouped).

Definition remove_abstract_so (s : store) (grouped : Grouped)
    : result (store * Grouped) :=
  foldM remove_abstract_under (map fst grouped) (s, grouped).

(** *** order_siblings and collapse_mwu *)

Definition sort_key (a : Attrib) : Z * Z * Z := (begin a, end_ a, id a).

Definition order_siblings (s : store) (siblings : list (loc * Rel)) (exclude : option loc)
    : result (list (loc * Rel)) :=
  let siblings :=
    match exclude with
    | Some e => filter (λ x : loc * Rel, x.1 ≠ e) siblings
    | None => siblings
    end in
  keyed ← mapM (λ x : loc * Rel, a ← get s x.1; Ok (sort_key a, x)) siblings;
  Ok (map snd (sorted triple_leb fst keyed)).

(** The body of the first loop of [collapse_mwu]; the state is the store
    and [to_remove]. *)
Definition collapse_key (fuel : nat) (grouped : Grouped) (key : option loc)
    (st : store * list (option loc)) : result (store * list (option loc)) :=
  let '(s, to_remove) := st in
  match key with
  | None => Ok st
  | Some k =>
      a ← get s k;
      if bool_decide (cat a = Some "mwu") then
        ch ← children_of grouped key;
        nodes ← order_siblings s ch None;
        words ← mapM (λ x : loc * Rel, xa ← get s x.1; of_option KeyError (word xa)) nodes;
        let collapsed_text := String.concat "" (map (λ w, w +:+ " ") words) in
        s ← upd (set_word (drop_last collapsed_text)) k s;
        c ← majority_vote fuel s grouped k;
        s ← upd (set_cat c) k s;
        Ok (s, to_remove ++ [key])
      else Ok st
  end.

Definition collapse_mwu (fuel : nat) (s : store) (grouped : Grouped)
    : result (store * Grouped) :=
  '(s, to_remove) ← foldM (collapse_key fuel grouped) (map fst grouped) (s, []);
  grouped ← del_keys to_remove grouped;
  Ok (s, grouped).

(** *** choose_head *)

Definition pick_first_match (children_rels : list (loc * Rel)) (cond : Rel) : option loc :=
  match filter (λ x : loc * Rel, x.2 = cond) children_rels with
  | x :: _ => Some x.1
  | [] => None
  end.

(** The loop of [choose_head]: the first child whose relation is a head
    candidate. *)
Fixpoint first_candidate (head_candidates : list string) (children_rels : list (loc * Rel))
    : option (loc * Rel) :=
  match children_rels with
  | [] => None
  | (candidate, rel) :: rest =>
      if py_in (get_rel rel) head_candidates then Some (candidate, rel)
      else first_candidate head_candidates rest
  end.

Definition headless_error : exn := ValueError "Unknown headless structure".

Definition choose_head (self : Decompose) (children_rels : list (loc * Rel))
    : result (option loc * Rel) :=
  match first_candidate (head_candidates self) children_rels with
  | Some (candidate, rel) => Ok (Some candidate, rel)
  | None =>
      let rels := map snd children_rels in
      if py_in (Plain "crd") rels then
        Ok (pick_first_match children_rels (Plain "crd"), Plain "crd")
      else if py_in (Plain "cnj") rels then
        Ok (pick_first_match children_rels (Plain "cnj"), Plain "cnj")
      else Raise headless_error
  end.

(** *** recursive_assignment *)

Definition conflict_error : exn := ValueError "Trying to assign a second type".
Definition premature_error : exn :=
  ValueError "Attempting to assign secondary type before having primary type.".

(** The branch for a head that is a leaf, lines 553-566. *)
Definition assign_head (self : Decompose) (ha : Attrib) (gap : bool)
    (argtypes : list WType) (top_type : WType) (argdeps : list string)
    (lexicon : gmap string WType) : result (gmap string WType) :=
  let headtype := coloured argtypes top_type argdeps gap in
  key ← get_key self ha;
  match lexicon !! key with
  | Some prev_type =>
      if gap then
        if negb (wt_eqb prev_type (coloured argtypes top_type argdeps false))
           && negb (wt_eqb prev_type (coloured argtypes top_type argdeps true))
        then Raise conflict_error
        else Ok (<[key := headtype]> lexicon)
      else
        if negb (wt_eqb prev_type headtype) then Raise conflict_error
        else Ok (<[key := headtype]> lexicon)
  | None => Ok (<[key := headtype]> lexicon)
  end.

(** The branch for a sibling that is a leaf, lines 572-587. *)
Definition assign_sibling (self : Decompose) (sa : Attrib) (plain : WType) (rel : Rel)
    (lexicon : gmap string WType) : result (gmap string WType) :=
  let sib_type := word_type plain false in
  if is_gap rel then
    key ← get_key self sa;
    match lexicon !! key with
    | Some primary_type =>
        if wt_eqb sib_type primary_type then
          Ok (<[key := word_type plain true]> lexicon)
        else
          a0 ← arglist0 primary_type;
          res ← result_of primary_type;
          c0 ← colors0 primary_type;
          Ok (<[key := coloured1 (coloured1 sib_type a0 (get_rel rel)) res c0]> lexicon)
    | None => Raise premature_error
    end
  else
    key ← get_key self sa;
    Ok (<[key := sib_type]> lexicon).

Fixpoint recursive_assignment (self : Decompose) (fuel : nat) (s : store)
    (grouped : Grouped) (current : loc) (top_type : option WType)
    (lexicon : gmap string WType) : result (gmap string WType) :=
  match fuel with
  | O => OutOfFuel
  | S f =>
      siblings ← children_of grouped (Some current);
      '(headchild, headrel) ← choose_head self siblings;
      top_type ← match top_type with
                 | Some t => Ok t
                 | None =>
                     t ← get_plain_type self f s grouped current;
                     Ok (word_type t false)
                 end;
      siblings ← order_siblings s siblings headchild;
      lexicon ←
        match headchild with
        | None => Ok lexicon
        | Some hc =>
            let gap := is_gap headrel in
            arglist ← mapM (λ sr : loc * Rel,
                         t ← get_plain_type self f s grouped sr.1;
                         Ok (t, get_rel sr.2)) siblings;
            let arglist := sorted String.leb (λ x : WType * string, repr x.1) arglist in
            let argtypes := map fst arglist in
            let argdeps := map snd arglist in
            ha ← get s hc;
            if is_leaf ha then
              assign_head self ha gap argtypes top_type argdeps lexicon
            else
              recursive_assignment self f s grouped hc
                (Some (coloured argtypes top_type argdeps gap)) lexicon
        end;
      foldM (λ (sr : loc * Rel) lexicon,
               sa ← get s sr.1;
               if is_leaf sa then
                 plain ← get_plain_type self f s grouped sr.1;
                 assign_sibling self sa plain sr.2 lexicon
               else if is_gap sr.2 then Raise NotImplementedError
               else recursive_assignment self f s grouped sr.1 None lexicon)
        siblings lexicon
  end.

(** The sort key of the node of an edge, when the node is in the store. *)
Definition edge_key (s : store) (x : loc * Rel) : option (Z * Z * Z) :=
  (λ e, sort_key (attrib e)) <$> s !! x.1.

(** [g2] has the keys of [g1] with the child lists in another order, such
    that [choose_head] finds the same head in both orders and the nodes
    of a child list differ in their (begin, end, id) keys. *)
Definition reordered (self : Decompose) (s : store) (g1 g2 : Grouped) : Prop :=
  ∀ k l1, dict_get k g1 = Some l1 →
    ∃ l2, dict_get k g2 = Some l2 ∧ l1 ≡ₚ l2
          ∧ choose_head self l1 = choose_head self l2
          ∧ NoDup (map (edge_key s) l1).

(** No majority vote ends in a tie: among the type keys of the children
    of a [conj] node one has more votes than every other. *)
Definition no_ties (s : store) (grouped : Grouped) : Prop :=
  ∀ fuel node a ch tys,
    get s node = Ok a → cat a = Some "conj" →
    dict_get (Some node) grouped = Some ch →
    mapM (λ n : loc * Rel, get_type_key fuel s grouped n.1) ch = Ok tys →
    ∃ k, ∀ k', k' ∈ tys → k' ≠ k → (count k' tys < count k tys)%nat.

(** *** lexicon_to_list *)



(** The order in which Python iterates over a set of nodes (it depends on
    their memory addresses). *)
Variable set_iter_nodes : list loc → list loc.

Inductive LexList :=
  | Sequences (ws : list string) (ts : list WType)
  | Pairs (ret : list (string * WType)).

(** [all_leaves] after sorting: the children carrying [word], by
    (begin, end, id). *)
Definition all_leaves (s : store) (grouped : Grouped) : result (list (loc * Attrib)) :=
  nas ← mapM (λ x : loc * Rel, a ← get s x.1; Ok (x.1, a)) (concat (map snd grouped));
  let leaves := map fst (filter (λ na : loc * Attrib, is_leaf na.2 = true) nas) in
  las ← mapM (λ l, a ← get s l; Ok (l, a)) (set_iter_nodes leaves);
  Ok (sorted triple_leb (λ la : loc * Attrib, sort_key la.2) las).

(** The comprehension building [ret], lines 621-622. *)
Fixpoint entries_of (self : Decompose) (sublex : gmap string WType)
    (leaves : list (loc * Attrib)) : result (list (string * WType)) :=
  match leaves with
  | [] => Ok []
  | la :: rest =>
      key ← get_key self la.2;
      match sublex !! key with
      | Some t =>
          w ← split_head (separation_symbol self) key;
          r ← entries_of self sublex rest;
          Ok ((w, remove_deps t) :: r)
      | None => entries_of self sublex rest
      end
  end.

Definition lexicon_to_list (self : Decompose) (s : store) (sublex : gmap string WType)
    (grouped : Grouped) (to_sequences : bool) : result LexList :=
  leaves ← all_leaves s grouped;
  ret ← entries_of self sublex leaves;
  if to_sequences then Ok (Sequences (map fst ret) (map snd ret)) else Ok (Pairs ret).

(** *** group_by_parent *)

(** The [[node, parent, rel]] triples that a node contributes: one under
    [-1] with relation ['top'] while its [rel] is a string, else one per
    entry of its [rel] dictionary. *)
Definition edges_of (na : loc * Attrib) : list (loc * Z * Rel) :=
  match rel na.2 with
  | RelStr _ => [(na.1, -1, Plain "top")]
  | RelDict d => map (λ pr : Z * Rel, (na.1, pr.1, pr.2)) d
  end.

(** The key [newdict] uses for the parent identifier [k]: [None] for
    [-1], else the first node whose [id] is [k]. *)
Definition node_of_id (nas : list (loc * Attrib)) (k : Z) : result (option loc) :=
  if decide (k = -1) then Ok None
  else match filter (λ na : loc * Attrib, id na.2 = k) nas with
       | na :: _ => Ok (Some na.1)
       | [] => Raise IndexError
       end.

Definition group_by_parent (fuel : nat) (s : store) (xtree : loc) : result Grouped :=
  nodes ← Lassy.iter fuel s xtree;
  nas ← mapM (λ l, a ← get s l; Ok (l, a)) nodes;
  let grouped := concat (map edges_of nas) in
  let grouped := sorted Z.leb (λ x : loc * Z * Rel, x.1.2) grouped in
  let grouped : list (Z * list (loc * Rel)) :=
    dict_of (map (λ kV : Z * list (loc * Z * Rel),
                    (kV.1, map (λ v : loc * Z * Rel, (v.1.1, v.2)) kV.2))
               (groupby (λ x : loc * Z * Rel, x.1.2) grouped)) in
  foldM (λ (kv : Z * list (loc * Rel)) (newdict : Grouped),
           newkey ← node_of_id nas kv.1;
           Ok (dict_set newkey kv.2 newdict)) grouped [].

(** *** get_disconnected and __call__ *)

(** The outcome of a computation behind an [assert]. *)
Inductive asserted (A : Type) :=
  | Checked (a : A)
  | AssertionError.
Arguments Checked {A} a.
Arguments AssertionError {A}.

Definition get_disconnected (s : store) (grouped : Grouped)
    : result (asserted (gset (option loc))) :=
  let all_keys : gset (option loc) := list_to_set (map fst grouped) in
  let all_children : gset (option loc) :=
    list_to_set (map (λ x : loc * Rel, Some x.1)
                   (concat (map (λ k, default [] (dict_get k grouped)) (map fst grouped)))) in
  leaves ← mapM (λ x : option loc,
                   match x with
                   | Some l => a ← get s l; Ok (is_leaf a)
                   | None => Raise AttributeError
                   end) (elements (all_children ∖ all_keys));
  if forallb (λ b : bool, b) leaves then Ok (Checked (all_keys ∖ all_children))
  else Ok AssertionError.

(** The order in which Python iterates over the set of top nodes. *)
Variable set_iter_keys : gset (option loc) → list (option loc).

(** What [__call__] returns, by [unify] and [return_lists]. *)
Inductive Lexica :=
  | UnifiedDict (lexicon : gmap string WType)
  | Dicts (dicts : list (gmap string WType))
  | Lists (lists : list LexList).

(** [self.recursive_assignment(top_node, grouped, None, lexicon)]; the
    top node [None] has no attributes to take the plain type from. *)
Definition assign_from (self : Decompose) (fuel : nat) (s : store) (grouped : Grouped)
    (top_node : option loc) (lexicon : gmap string WType) : result (gmap string WType) :=
  match top_node with
  | Some l => recursive_assignment self fuel s grouped l None lexicon
  | None =>
      siblings ← children_of grouped None;
      _ ← choose_head self siblings;
      Raise AttributeError
  end.

(** [__call__]. With [unify] and [return_lists] the call
    [Decompose.lexicon_to_list(lexicon, grouped)] lacks an argument. *)
Definition call (self : Decompose) (fuel : nat) (s : store) (grouped : Grouped)
    : result (asserted Lexica) :=
  top_nodes ← get_disconnected s grouped;
  match top_nodes with
  | AssertionError => Ok AssertionError
  | Checked top_nodes =>
      let top_nodes := set_iter_keys top_nodes in
      if unify self then
        lexicon ← foldM (assign_from self fuel s grouped) top_nodes ∅;
        if return_lists self then Raise TypeError
        else Ok (Checked (UnifiedDict lexicon))
      else
        dicts ← mapM (λ top_node, assign_from self fuel s grouped top_node ∅) top_nodes;
        if return_lists self then
          lists ← mapM (λ x, lexicon_to_list self s x grouped true) dicts;
          Ok (Checked (Lists lists))
        else Ok (Checked (Dicts dicts))
  end.

End Runtime.
End WithTypes.

Arguments Checked {A} a.
Arguments AssertionError {A}.

End Decompose.

(** ** A concrete type algebra *)

(** Modelled from the spec: the module [WordType] is missing. The spec
    asks of the type algebra an atomic type from a label, a functor type
    from an argument sequence, a result type, a colour sequence and a
    modality flag, structural equality and a deterministic string form. *)
Inductive Ty :=
  | TAtom (label : string)
  | TFunctor (arglist : list Ty) (result : Ty) (colors : list string) (modality : bool).

Fixpoint ty_eqb (a b : Ty) : bool :=
  match a, b with
  | TAtom x, TAtom y => bool_decide (x = y)
  | TFunctor xs r cs m, TFunctor ys r' cs' m' =>
      (fix all2 (l1 l2 : list Ty) : bool :=
         match l1, l2 with
         | [], [] => true
         | x :: l1', y :: l2' => ty_eqb x y && all2 l1' l2'
         | _, _ => false
         end) xs ys
      && ty_eqb r r' && bool_decide (cs = cs') && bool_decide (m = m')
  | _, _ => false
  end.

Fixpoint ty_repr (a : Ty) : string :=
  match a with
  | TAtom x => x
  | TFunctor xs r cs m =>
      (if m then "<>" else "") +:+ "("
      +:+ (fix args (l : list Ty) : string :=
             match l with
             | [] => ""
             | x :: l' => ty_repr x +:+ "," +:+ args l'
             end) xs
      +:+ ")[" +:+ String.concat "," cs +:+ "]->" +:+ ty_repr r
  end.

(** Modelled from the spec: [remove_deps] belongs to the missing module;
    going by its name it drops the dependency colours. *)
Fixpoint ty_remove_deps (a : Ty) : Ty :=
  match a with
  | TAtom x => TAtom x
  | TFunctor xs r cs m => TFunctor (map ty_remove_deps xs) (ty_remove_deps r) [] m
  end.

Global Instance Ty_algebra : TypeAlgebra := {|
  WType := Ty;
  atom := TAtom;
  word_type := λ t m, TFunctor [] t [] m;
  coloured := TFunctor;
  coloured1 := λ a r c, TFunctor [a] r [c] false;
  wt_eqb := ty_eqb;
  repr := ty_repr;
  arglist0 := λ t, match t with
                   | TFunctor (a :: _) _ _ _ => Ok a
                   | TFunctor [] _ _ _ => Raise IndexError
                   | TAtom _ => Raise AttributeError
                   end;
  result_of := λ t, match t with
                    | TFunctor _ r _ _ => Ok r
                    | TAtom _ => Raise AttributeError
                    end;
  colors0 := λ t, match t with
                  | TFunctor _ _ (c :: _) _ => Ok c
                  | TFunctor _ _ [] _ => Raise IndexError
                  | TAtom _ => Raise AttributeError
                  end;
  remove_deps := ty_remove_deps
|}.

(** ** Sample inputs *)

Module Samples.
Import Decompose.

(** A childless element with the given attributes. *)
Definition node (i b e : Z) (w p c idx : option string) (r : RelAttr) : Element :=
  mkElement (mkAttrib i b e w p c idx r) [].

(** An object-raising clause: the object of the infinitive [2] is
    coindexed with the object [3] of the main clause [1]. *)
Definition raising_store : store :=
  list_to_map
    [(1%positive, node 1 0 3 None None (Some "smain") None (RelDict [(0, Plain "--")]));
     (2%positive, node 2 1 3 None None (Some "inf") None (RelDict [(1, Plain "vc")]));
     (3%positive, node 3 1 2 (Some "haar") (Some "pron") None (Some "1")
                    (RelDict [(1, Marked "obj1" secondary); (2, Marked "obj1" primary)]));
     (4%positive, node 4 0 1 (Some "laat") (Some "verb") None None (RelDict [(1, Plain "hd")]));
     (5%positive, node 5 2 3 (Some "zien") (Some "verb") None None (RelDict [(2, Plain "hd")]))].

Definition raising_grouped : Grouped :=
  [(Some 1%positive,
    [(3%positive, Marked "obj1" secondary); (4%positive, Plain "hd"); (2%positive, Plain "vc")]);
   (Some 2%positive, [(3%positive, Marked "obj1" primary); (5%positive, Plain "hd")])].

(** A clause whose two noun phrases [2] and [3] only have children
    attached by a relation that [split_dag] removes. *)
Definition hollow_store : store :=
  list_to_map
    [(1%positive, node 1 0 3 None None (Some "smain") None (RelDict [(0, Plain "--")]));
     (2%positive, node 2 0 1 None None (Some "np") None (RelDict [(1, Plain "su")]));
     (3%positive, node 3 2 3 None None (Some "np") None (RelDict [(1, Plain "obj1")]));
     (4%positive, node 4 1 2 (Some "ziet") (Some "verb") None None (RelDict [(1, Plain "hd")]));
     (5%positive, node 5 0 1 (Some "a") (Some "noun") None None (RelDict [(2, Plain "dp")]));
     (6%positive, node 6 2 3 (Some "b") (Some "noun") None None (RelDict [(3, Plain "dp")]))].

Definition hollow_grouped : Grouped :=
  [(Some 1%positive,
    [(2%positive, Plain "su"); (3%positive, Plain "obj1"); (4%positive, Plain "hd")]);
   (Some 2%positive, [(5%positive, Plain "dp")]);
   (Some 3%positive, [(6%positive, Plain "dp")])].

(** An infinitive [1] with an abstract subject and an abstract object,
    both secondary, next to each other in its child list. *)
Definition control_store : store :=
  list_to_map
    [(1%positive, node 1 2 4 None None (Some "inf") None (RelDict [(0, Plain "vc")]));
     (2%positive, node 2 0 1 (Some "hij") (Some "pron") None (Some "1")
                    (RelDict [(1, Marked "su" secondary); (0, Marked "su" primary)]));
     (3%positive, node 3 1 2 (Some "haar") (Some "pron") None (Some "2")
                    (RelDict [(1, Marked "obj1" secondary); (0, Marked "obj1" primary)]));
     (4%positive, node 4 3 4 (Some "zien") (Some "verb") None None (RelDict [(1, Plain "hd")]))].

Definition control_grouped : Grouped :=
  [(Some 1%positive,
    [(2%positive, Marked "su" secondary); (3%positive, Marked "obj1" secondary);
     (4%positive, Plain "hd")])].

(** A coordination [1] of two noun phrases and a verb phrase. *)
Definition conj_store : store :=
  list_to_map
    [(1%positive, node 1 0 3 None None (Some "conj") None (RelDict [(0, Plain "--")]));
     (2%positive, node 2 0 1 (Some "a") (Some "noun") None None (RelDict [(1, Plain "cnj")]));
     (3%positive, node 3 1 2 (Some "en") (Some "vg") None None (RelDict [(1, Plain "crd")]));
     (4%positive, node 4 2 3 (Some "b") (Some "noun") None None (RelDict [(1, Plain "cnj")]))].

Definition conj_grouped : Grouped :=
  [(Some 1%positive,
    [(2%positive, Plain "cnj"); (3%positive, Plain "crd"); (4%positive, Plain "cnj")])].

(** A noun phrase [1] whose second child is the multi-word unit [3]. *)
Definition mwu_store : store :=
  list_to_map
    [(1%positive, node 1 0 3 None None (Some "np") None (RelDict [(0, Plain "--")]));
     (2%positive, node 2 0 1 (Some "de") (Some "det") None None (RelDict [(1, Plain "det")]));
     (3%positive, node 3 1 3 None None (Some "mwu") None (RelDict [(1, Plain "hd")]));
     (4%positive, node 4 2 3 (Some "York") (Some "name") None None (RelDict [(3, Plain "mwp")]));
     (5%positive, node 5 1 2 (Some "New") (Some "name") None None (RelDict [(3, Plain "mwp")]))].

Definition mwu_grouped : Grouped :=
  [(Some 1%positive, [(2%positive, Plain "det"); (3%positive, Plain "hd")]);
   (Some 3%positive, [(4%positive, Plain "mwp"); (5%positive, Plain "mwp")])].

(** A lexicon for the leaves of the raising sample; the leaf [4] has no
    entry. *)
Definition raising_sublex : gmap string Ty :=
  list_to_map [("haar|3", TAtom "NP"); ("zien|5", TFunctor [TAtom "NP"] (TAtom "INF") ["obj1"] false)].

(** Two coindexed words under the root [1]; the first in document order
    has the larger identifier. *)
Definition coindex_store : store :=
  list_to_map
    [(1%positive, mkElement (mkAttrib 0 0 2 None None (Some "top") None (RelStr "top"))
                    [2%positive; 3%positive]);
     (2%positive, node 5 0 1 (Some "a") (Some "noun") None (Some "1") (RelStr "su"));
     (3%positive, node 3 1 2 (Some "a") (Some "noun") None (Some "1") (RelStr "obj1"))].

(** The group ["1"] has the word [2]; the only member of the group ["2"]
    carries neither [cat] nor [word]. *)
Definition orphan_group_store : store :=
  list_to_map
    [(1%positive, mkElement (mkAttrib 0 0 2 None None (Some "top") None (RelStr "top"))
                    [2%positive; 3%positive]);
     (2%positive, node 1 0 1 (Some "a") (Some "noun") None (Some "1") (RelStr "su"));
     (3%positive, node 2 1 2 None None None (Some "2") (RelStr "obj1"))].

(** A coordination [1] with the two coordinators [2] and [4], in two
    orders of its child list. *)
Definition zowel_als_store : store :=
  list_to_map
    [(1%positive, node 1 0 5 None None (Some "conj") None (RelDict [(0, Plain "--")]));
     (2%positive, node 2 0 1 (Some "zowel") (Some "vg") None None (RelDict [(1, Plain "crd")]));
     (3%positive, node 3 1 2 (Some "a") (Some "noun") None None (RelDict [(1, Plain "cnj")]));
     (4%positive, node 4 2 3 (Some "als") (Some "vg") None None (RelDict [(1, Plain "crd")]));
     (5%positive, node 5 3 4 (Some "b") (Some "noun") None None (RelDict [(1, Plain "cnj")]));
     (6%positive, node 6 4 5 (Some "c") (Some "noun") None None (RelDict [(1, Plain "cnj")]))].

Definition zowel_als_grouped : Grouped :=
  [(Some 1%positive,
    [(2%positive, Plain "crd"); (3%positive, Plain "cnj"); (4%positive, Plain "crd");
     (5%positive, Plain "cnj"); (6%positive, Plain "cnj")])].

Definition als_zowel_grouped : Grouped :=
  [(Some 1%positive,
    [(4%positive, Plain "crd"); (3%positive, Plain "cnj"); (2%positive, Plain "crd");
     (5%positive, Plain "cnj"); (6%positive, Plain "cnj")])].

(** The same coordination with the conjuncts in another order. *)
Definition zowel_als_shuffled : Grouped :=
  [(Some 1%positive,
    [(6%positive, Plain "cnj"); (2%positive, Plain "crd"); (5%positive, Plain "cnj");
     (4%positive, Plain "crd"); (3%positive, Plain "cnj")])].

(** A coordination [1] of a noun and a verb: each of the three type keys
    of its children has one vote. *)
Definition tie_store : store :=
  list_to_map
    [(1%positive, node 1 0 3 None None (Some "conj") None (RelDict [(0, Plain "--")]));
     (2%positive, node 2 0 1 (Some "a") (Some "noun") None None (RelDict [(1, Plain "cnj")]));
     (3%positive, node 3 1 2 (Some "en") (Some "vg") None None (RelDict [(1, Plain "crd")]));
     (4%positive, node 4 2 3 (Some "slaapt") (Some "verb") None None
                    (RelDict [(1, Plain "cnj")]))].

Definition tie_grouped : Grouped :=
  [(Some 1%positive,
    [(2%positive, Plain "cnj"); (3%positive, Plain "crd"); (4%positive, Plain "cnj")])].

(** A noun phrase [1] that lists its child [3] twice, under two
    relations, in the two orders. *)
Definition twin_store : store :=
  list_to_map
    [(1%positive, node 1 0 2 None None (Some "np") None (RelDict [(0, Plain "--")]));
     (2%positive, node 2 1 2 (Some "huis") (Some "noun") None None (RelDict [(1, Plain "hd")]));
     (3%positive, node 3 0 1 (Some "het") (Some "det") None None (RelDict [(1, Plain "det")]))].

Definition twin_grouped : Grouped :=
  [(Some 1%positive,
    [(2%positive, Plain "hd"); (3%positive, Plain "det"); (3%positive, Plain "mod")])].

Definition twin_swapped : Grouped :=
  [(Some 1%positive,
    [(2%positive, Plain "hd"); (3%positive, Plain "mod"); (3%positive, Plain "det")])].


(** A clause [1] with a verb and a subject, after [tree_to_dag]: the
    root keeps its string [rel]. *)
Definition dag_store : store :=
  list_to_map
    [(1%positive, mkElement (mkAttrib 0 0 2 None None (Some "smain") None (RelStr "--"))
                    [2%positive; 3%positive]);
     (2%positive, node 1 1 2 (Some "slaapt") (Some "verb") None None (RelDict [(0, Plain "hd")]));
     (3%positive, node 2 0 1 (Some "hij") (Some "pron") None None (RelDict [(0, Plain "su")]))].

Definition dag_grouped : Grouped :=
  [(None, [(1%positive, Plain "top")]);
   (Some 1%positive, [(2%positive, Plain "hd"); (3%positive, Plain "su")])].

(** The same clause with the subject attached to an identifier that no
    node carries. *)
Definition dangling_store : store :=
  list_to_map
    [(1%positive, mkElement (mkAttrib 0 0 2 None None (Some "smain") None (RelStr "--"))
                    [2%positive; 3%positive]);
     (2%positive, node 1 1 2 (Some "slaapt") (Some "verb") None None (RelDict [(0, Plain "hd")]));
     (3%positive, node 2 0 1 (Some "hij") (Some "pron") None None (RelDict [(7, Plain "su")]))].

(** A decomposer that unifies the lexica and returns lists. *)
Definition unifying : Decompose (TA := Ty_algebra) :=
  mkDecompose default_type_dict true true (λ w, w) "|"
    ["hd"; "rhd"; "whd"; "cmp"; "crd"; "dlink"].

End Samples.

(** ** Relations between inputs and results *)

Section Relations.
Import Decompose.

(** Stores that differ in [rel] attributes only. *)
Definition same_but_rel (s s' : store) : Prop :=
  ∀ l, match s !! l, s' !! l with
       | Some e, Some e' =>
           children e' = children e ∧ set_rel (rel (attrib e)) (attrib e') = attrib e
       | None, None => True
       | _, _ => False
       end.

(** The nodes with category [ppart] or [inf]. *)
Definition is_nonfinite (s : store) (key : option loc) : Prop :=
  ∃ k a, key = Some k ∧ get s k = Ok a ∧ (cat a = Some "ppart" ∨ cat a = Some "inf").

(** Stores with the same elements, which differ in [rel] attributes and
    in children that the second has lost. *)
Definition rewired (s s' : store) : Prop :=
  ∀ l, match s !! l, s' !! l with
       | Some e, Some e' =>
           set_rel (rel (attrib e)) (attrib e') = attrib e
           ∧ children e' `sublist_of` children e
       | None, None => True
       | _, _ => False
       end.

(** The edges that [remove_abstract_so] leaves alone. *)
Definition kept_edge (x : loc * Rel) : Prop := is_so secondary x.2 = false.

Global Instance kept_edge_dec x : Decision (kept_edge x).
Proof. unfold kept_edge. apply _. Defined.

(** What [remove_abstract_so] does to the store and the dictionary. *)
Definition abstract_removed (st st' : store * Grouped) : Prop :=
  same_but_rel st.1 st'.1
  ∧ map fst st'.2 = map fst st.2
  ∧ ∀ key ch, dict_get key st.2 = Some ch →
      ∃ ch', dict_get key st'.2 = Some ch' ∧ ch' `sublist_of` ch
             ∧ filter kept_edge ch' = filter kept_edge ch
             ∧ (¬ is_nonfinite st.1 key → ch' = ch).

(** The edges that [abstract_object_to_subject] leaves alone: those that
    are not a marked [su] or [obj1]. *)
Definition other_edge (x : loc * Rel) : Prop :=
  is_so primary x.2 = false ∧ is_so secondary x.2 = false.

Global Instance other_edge_dec x : Decision (other_edge x).
Proof. unfold other_edge. apply _. Defined.

Definition relabelled (st st' : store * Grouped) : Prop :=
  same_but_rel st.1 st'.1
  ∧ map fst st'.2 = map fst st.2
  ∧ ∀ key ch, dict_get key st.2 = Some ch →
      ∃ ch', dict_get key st'.2 = Some ch'
             ∧ filter other_edge ch' = filter other_edge ch
             ∧ (length ch' ≤ length ch)%nat.

(** Nodes in the order of their (begin, end, id) keys. *)
Definition span_le (s : store) (x y : loc * Rel) : Prop :=
  ∃ kx ky, edge_key s x = Some kx ∧ edge_key s y = Some ky ∧ triple_leb kx ky = true.

(** The [[child, rel]] pairs that the nodes [nas] contribute under the
    parent identifier [k], in the order of the nodes. *)
Definition edges_under (nas : list (loc * Attrib)) (k : Z) : list (loc * Rel) :=
  map (λ v : loc * Z * Rel, (v.1.1, v.2))
    (filter (λ x : loc * Z * Rel, x.1.2 = k) (concat (map edges_of nas))).

End Relations.

(** * Properties *)

Section Monad.
Context {A B : Type}.

Lemma bind_Ok (m : result A) (k : A → result B) (b : B) :
  m ≫= k = Ok b → ∃ a, m = Ok a ∧ k a = Ok b.
Proof. destruct m; simpl; intros; try discriminate; eauto. Qed.

Lemma bind_Raise_l (e : exn) (k : A → result B) : Raise e ≫= k = Raise e.
Proof. reflexivity. Qed.

End Monad.

Lemma mapM_det {A B} (f g : A → result B) (l : list A) (r1 r2 : list B) :
  (∀ x y1 y2, f x = Ok y1 → g x = Ok y2 → y1 = y2) →
  mapM f l = Ok r1 → mapM g l = Ok r2 → r1 = r2.
Proof.
  intros Hfg. revert r1 r2. induction l as [|x l IH]; intros r1 r2; cbn [mapM].
  - by intros [= <-] [= <-].
  - intros H1 H2.
    destruct (f x) as [y1| | |] eqn:E1; simpl in H1; try done.
    destruct (g x) as [y2| | |] eqn:E2; simpl in H2; try done.
    destruct (mapM f l) as [l1| | |]; simpl in H1; try done.
    destruct (mapM g l) as [l2| | |]; simpl in H2; try done.
    simplify_eq. f_equal; eauto.
Qed.

(** Inversion of a successful sequence of binds. *)
Ltac bind_inv H :=
  cbv beta in H;
  repeat match type of H with
         | (?m ≫= _) = Ok _ =>
             let a := fresh "a" in
             let E := fresh "E" in
             destruct m as [a| | |] eqn:E; simpl in H; [|discriminate H..]
         end.

Lemma upd_Ok (f : Attrib → Attrib) (l : loc) (s s' : store) :
  upd f l s = Ok s' →
  ∃ e, s !! l = Some e ∧ s' = <[l := mkElement (f (attrib e)) (children e)]> s.
Proof. unfold upd. destruct (s !! l) as [e|]; [|done]. intros [= <-]. eauto. Qed.

Lemma upd_other (f : Attrib → Attrib) (l l' : loc) (s s' : store) :
  upd f l s = Ok s' → l' ≠ l → s' !! l' = s !! l'.
Proof. intros (e & _ & ->)%upd_Ok Hne. by rewrite lookup_insert_ne. Qed.

Lemma get_Ok (s : store) (l : loc) (a : Attrib) :
  get s l = Ok a ↔ ∃ e, s !! l = Some e ∧ attrib e = a.
Proof.
  unfold get. destruct (s !! l) as [e|]; split.
  - intros [= <-]. eauto.
  - intros (e' & [= <-] & <-). done.
  - done.
  - intros (? & ? & _). done.
Qed.

(** ** abstract_object_to_subject *)

(** C1 (the code departs from it): on the object-raising sample the real
    argument is attached by a secondary [obj1] edge. The adjacency
    dictionary is updated as described: the primary edge under the
    infinitive and the secondary edge under the clause are gone, and the
    clause has a primary [obj1] edge to the argument. The argument's own
    [rel] entry for the clause however reads [su], not [obj1]. *)
Theorem abstract_object_to_subject_bookkeeping_label :
  ∃ s' grouped',
    Decompose.abstract_object_to_subject Samples.raising_store Samples.raising_grouped
      = Ok (s', grouped')
    ∧ grouped' =
        [(Some 1%positive,
          [(4%positive, Plain "hd"); (2%positive, Plain "vc");
           (3%positive, Marked "obj1" primary)]);
         (Some 2%positive, [(5%positive, Plain "hd")])]
    ∧ (rel <$> get s' 3%positive) = Ok (RelDict [(1, Marked "su" primary)])
    ∧ (rel <$> get s' 3%positive) ≠ Ok (RelDict [(1, Marked "obj1" primary)]).
Proof.
  eexists _, _. split; [vm_compute; reflexivity|].
  split; [reflexivity|]. split; [vm_compute; reflexivity|]. vm_compute. discriminate.
Qed.

(** ** split_dag *)

(** C3 (the code departs from it): on the hollow sample both noun phrases
    [2] and [3] lose their only child to the relation filter and are
    deleted as keys by the cascade; the loop that drops the edges to them
    removes from the list it iterates over, skips the edge to [3], and
    [split_dag] returns with the clause still pointing to the deleted
    key [3]. *)
Theorem split_dag_keeps_edge_to_deleted_key :
  ∃ grouped',
    Decompose.split_dag Samples.hollow_store Samples.hollow_grouped
      Decompose.default_cats_to_remove Decompose.default_rels_to_remove = Ok grouped'
    ∧ grouped' = [(Some 1%positive, [(3%positive, Plain "obj1"); (4%positive, Plain "hd")])]
    ∧ (Some 3%positive ∈ map fst Samples.hollow_grouped)
    ∧ (Some 3%positive ∉ map fst grouped')
    ∧ (∃ ch, dict_get (Some 1%positive) grouped' = Some ch ∧ 3%positive ∈ map fst ch).
Proof.
  eexists. split; [vm_compute; reflexivity|]. split; [reflexivity|].
  split; [|split].
  - compute_done.
  - compute_done.
  - eexists. split; [vm_compute; reflexivity|]. compute_done.
Qed.

(** The first half of C3 holds: [split_dag] returns a dictionary without
    empty child lists. *)
Lemma cascade_no_empty_key (fuel : nat) (grouped grouped' : Grouped) :
  Decompose.cascade fuel grouped = Ok grouped' → Decompose.empty_keys_of grouped' = [].
Proof.
  revert grouped. induction fuel as [|f IH]; intros grouped; simpl.
  - destruct (Decompose.empty_keys_of grouped) eqn:E; [|done]. by intros [= <-].
  - destruct (Decompose.empty_keys_of grouped) eqn:E; [by intros [= <-]|].
    intros H. bind_inv H. by eapply IH.
Qed.

Lemma split_dag_no_empty_key (s : store) (grouped grouped' : Grouped)
    (cats_to_remove rels_to_remove : list string) :
  Decompose.split_dag s grouped cats_to_remove rels_to_remove = Ok grouped' →
  ∀ key ch, (key, ch) ∈ grouped' → ch ≠ [].
Proof.
  unfold Decompose.split_dag. intros H. bind_inv H.
  match type of H with
  | context [Decompose.cascade (length ?g) _] =>
      apply (cascade_no_empty_key (S (length g)) g grouped') in H
  end.
  intros key ch Hin ->.
  assert (Hk : key ∈ Decompose.empty_keys_of grouped').
  { unfold Decompose.empty_keys_of.
    apply (list_elem_of_fmap_2' fst _ (key, [])); [|done]. by apply list_elem_of_filter. }
  rewrite H in Hk. inv Hk.
Qed.

(** ** remove_abstract_so *)

(** C5 (the code departs from it): on the control sample the infinitive
    has two adjacent secondary edges, [su] and [obj1]. Removing the first
    while iterating makes the loop skip the second, which is still there
    when [remove_abstract_so] returns; so is its entry in the [rel]
    dictionary of the child. *)
Theorem remove_abstract_so_skips_adjacent_edge :
  ∃ s' grouped',
    Decompose.remove_abstract_so Samples.control_store Samples.control_grouped
      = Ok (s', grouped')
    ∧ (rel <$> get s' 1%positive) = (rel <$> get Samples.control_store 1%positive)
    ∧ (cat <$> get s' 1%positive) = Ok (Some "inf")
    ∧ dict_get (Some 1%positive) grouped'
        = Some [(3%positive, Marked "obj1" secondary); (4%positive, Plain "hd")]
    ∧ (rel <$> get s' 2%positive) = Ok (RelDict [(0, Marked "su" primary)])
    ∧ (rel <$> get s' 3%positive)
        = Ok (RelDict [(1, Marked "obj1" secondary); (0, Marked "obj1" primary)]).
Proof.
  eexists _, _. split; [vm_compute; reflexivity|].
  repeat split; vm_compute; reflexivity.
Qed.

(** ** choose_head *)

Section ChooseHead.
Context `{TA : TypeAlgebra}.
Import Decompose.

Lemma first_candidate_None (cands : list string) (children_rels : list (loc * Rel)) :
  Forall (λ x, get_rel x.2 ∉ cands) children_rels →
  first_candidate cands children_rels = None.
Proof.
  induction 1 as [|[c r] l Hx _ IH]; simpl; [done|].
  unfold py_in. rewrite bool_decide_eq_false_2; done.
Qed.

Lemma plain_not_in (name : string) (children_rels : list (loc * Rel)) :
  Forall (λ x, get_rel x.2 ≠ name) children_rels →
  py_in (Plain name) (map snd children_rels) = false.
Proof.
  intros H. unfold py_in. apply bool_decide_eq_false_2.
  intros [[c r] [Hr Hin]]%list_elem_of_fmap_1.
  rewrite Forall_forall in H. apply (H _ Hin). simpl in *. by subst r.
Qed.

(** C7: when no child relation is a head candidate, [crd] or [cnj],
    [choose_head] raises the headless-structure error, and so does
    [recursive_assignment] on a node with these children, whatever the
    inherited type and the lexicon. *)
Theorem choose_head_headless (self : Decompose) (children_rels : list (loc * Rel)) :
  head_candidates self = ["hd"; "rhd"; "whd"; "cmp"; "crd"; "dlink"] →
  Forall (λ x, (get_rel x.2 ∉ ["hd"; "rhd"; "whd"; "cmp"; "crd"; "dlink"])
               ∧ get_rel x.2 ≠ "crd" ∧ get_rel x.2 ≠ "cnj") children_rels →
  choose_head self children_rels = Raise headless_error
  ∧ ∀ set_iter fuel s grouped current top_type lexicon,
      dict_get (Some current) grouped = Some children_rels →
      recursive_assignment set_iter self (S fuel) s grouped current top_type lexicon
        = Raise headless_error.
Proof.
  intros Hself Hrels.
  assert (Hch : choose_head self children_rels = Raise headless_error).
  { unfold choose_head. rewrite Hself, first_candidate_None.
    - rewrite !plain_not_in; [done| |]; eapply Forall_impl; eauto;
        intros x (_ & ? & ?); done.
    - eapply Forall_impl; eauto. intros x (? & _); done. }
  split; [done|].
  intros set_iter fuel s grouped current top_type lexicon Hg.
  simpl. unfold children_of. rewrite Hg. simpl. by rewrite Hch.
Qed.

End ChooseHead.

(** A node whose children carry only [mod] and [app]. *)
Lemma choose_head_headless_witness :
  Decompose.choose_head (Decompose.init (λ w, w) "|")
    [(2%positive, Plain "mod"); (3%positive, Plain "app")]
  = Raise Decompose.headless_error.
Proof.
  apply (choose_head_headless (Decompose.init (λ w, w) "|")
           [(2%positive, Plain "mod"); (3%positive, Plain "app")]).
  - reflexivity.
  - compute_done.
Defined.

(** ** The stable sort *)

Section Sorted.
Context {A K : Type} (leb : K → K → bool) (key : A → K).

Local Abbreviation kle := (key_le leb key).

Lemma insert_sorted_perm (x : A) (l : list A) : insert_sorted leb key x l ≡ₚ x :: l.
Proof.
  induction l as [|y l IH]; simpl; [done|].
  destruct (leb (key x) (key y)); [done|].
  rewrite IH. apply perm_swap.
Qed.

Lemma sorted_perm (l : list A) : sorted leb key l ≡ₚ l.
Proof.
  induction l as [|x l IH]; simpl; [done|].
  unfold sorted in *. simpl. by rewrite insert_sorted_perm, IH.
Qed.

Lemma sorted_cons (x : A) (l : list A) :
  sorted leb key (x :: l) = insert_sorted leb key x (sorted leb key l).
Proof. reflexivity. Qed.

Lemma elem_of_sorted (x : A) (l : list A) : x ∈ sorted leb key l ↔ x ∈ l.
Proof. by rewrite sorted_perm. Qed.

Lemma sorted_nil_inv (l : list A) : sorted leb key l = [] → l = [].
Proof. intros H. apply Permutation_nil. by rewrite <- H, sorted_perm. Qed.

(** An element below all others stays in front. *)
Lemma sorted_cons_min (x : A) (l : list A) :
  Forall (kle x) l → sorted leb key (x :: l) = x :: sorted leb key l.
Proof.
  intros Hx. rewrite sorted_cons.
  destruct (sorted leb key l) as [|y r] eqn:E; [done|]. simpl.
  assert (Hy : y ∈ l) by (apply (proj1 (elem_of_sorted _ _)); rewrite E; left).
  rewrite Forall_forall in Hx. by rewrite (Hx _ Hy).
Qed.

Section Order.
Hypothesis leb_total : ∀ a b, leb a b = true ∨ leb b a = true.
Hypothesis leb_trans : ∀ a b c, leb a b = true → leb b c = true → leb a c = true.

Lemma insert_sorted_StronglySorted (x : A) (l : list A) :
  StronglySorted kle l → StronglySorted kle (insert_sorted leb key x l).
Proof.
  induction 1 as [|y l Hl IH Hy]; simpl.
  - repeat constructor.
  - destruct (leb (key x) (key y)) eqn:E.
    + constructor; [by constructor|].
      constructor; [done|]. eapply Forall_impl; [exact Hy|].
      intros z Hz. unfold key_le in *. eauto.
    + constructor; [done|].
      rewrite insert_sorted_perm. constructor; [|done].
      unfold key_le. destruct (leb_total (key x) (key y)); congruence.
Qed.

Lemma sorted_StronglySorted (l : list A) : StronglySorted kle (sorted leb key l).
Proof.
  induction l as [|x l IH]; [constructor|].
  rewrite sorted_cons. by apply insert_sorted_StronglySorted.
Qed.

(** The first element of the result has a least key. *)
Lemma sorted_head_min (l : list A) (x : A) :
  head (sorted leb key l) = Some x → x ∈ l ∧ Forall (kle x) l.
Proof.
  intros Hhd. pose proof (sorted_StronglySorted l) as Hs.
  destruct (sorted leb key l) as [|y r] eqn:E; simplify_eq/=.
  split; [apply (proj1 (elem_of_sorted _ _)); rewrite E; left|].
  apply StronglySorted_inv in Hs as [_ Hr].
  rewrite <- (sorted_perm l), E. constructor; [|done].
  unfold key_le. destruct (leb_total (key x) (key x)); done.
Qed.

(** With pairwise distinct keys the result does not depend on the order
    of the input. *)
Lemma sorted_perm_eq (l1 l2 : list A) :
  (∀ a b, leb a b = true → leb b a = true → a = b) →
  NoDup (map key l1) → l1 ≡ₚ l2 → sorted leb key l1 = sorted leb key l2.
Proof.
  intros Hanti Hnd Hp.
  apply (StronglySorted_unique_strong kle); try apply sorted_StronglySorted.
  - intros x y Hx Hy Hxy Hyx.
    apply (proj1 (elem_of_sorted _ _)) in Hx, Hy.
    rewrite <- Hp in Hy.
    assert (Hk : key x = key y) by (apply Hanti; done).
    clear -Hnd Hx Hy Hk. induction l1 as [|z l IH]; [by inv Hx|].
    simpl in Hnd. apply NoDup_cons in Hnd as [Hz Hnd].
    inv Hx; inv Hy; auto.
    + exfalso. apply Hz. rewrite Hk. by apply list_elem_of_fmap_2.
    + exfalso. apply Hz. rewrite <- Hk. by apply list_elem_of_fmap_2.
  - by rewrite !sorted_perm.
Qed.

End Order.

(** Stability: elements with the same key keep their order. *)
Lemma sorted_filter_key `{EqDecision K} (k : K) (l : list A) :
  (∀ a, leb a a = true) →
  filter (λ x, key x = k) (sorted leb key l) = filter (λ x, key x = k) l.
Proof.
  intros Hrefl. induction l as [|x l IH]; [done|].
  rewrite sorted_cons, filter_cons, <- IH. clear IH.
  induction (sorted leb key l) as [|y r IHr]; simpl.
  - by rewrite filter_cons, filter_nil.
  - destruct (leb (key x) (key y)) eqn:E.
    + by rewrite filter_cons.
    + rewrite (filter_cons _ y), IHr, (filter_cons _ y).
      repeat case_decide; try done. subst. congruence.
Qed.

End Sorted.

Lemma triple_leb_total (a b : Z * Z * Z) : triple_leb a b = true ∨ triple_leb b a = true.
Proof.
  destruct a as [[a1 a2] a3], b as [[b1 b2] b3]. unfold triple_leb.
  repeat (case_match; try (left; reflexivity); try (right; reflexivity)); lia.
Qed.

Lemma triple_leb_trans (a b c : Z * Z * Z) :
  triple_leb a b = true → triple_leb b c = true → triple_leb a c = true.
Proof.
  destruct a as [[a1 a2] a3], b as [[b1 b2] b3], c as [[c1 c2] c3]. unfold triple_leb.
  repeat case_match; try done; lia.
Qed.

Lemma triple_leb_antisym (a b : Z * Z * Z) :
  triple_leb a b = true → triple_leb b a = true → a = b.
Proof.
  destruct a as [[a1 a2] a3], b as [[b1 b2] b3]. unfold triple_leb.
  repeat case_match; try done; intros; repeat f_equal; lia.
Qed.

(** ** Dictionaries *)

Section Dict.
Context {K V : Type} `{EqDecision K}.

Lemma dict_set_fresh (k : K) (v : V) (d : list (K * V)) :
  k ∉ map fst d → dict_set k v d = d ++ [(k, v)].
Proof.
  induction d as [|[k' v'] d IH]; simpl; [done|].
  intros Hk. apply not_elem_of_cons in Hk as [Hne Hk].
  rewrite decide_False by done. by rewrite IH.
Qed.

(** A comprehension over distinct keys lists them in order. *)
Lemma dict_of_NoDup (l : list (K * V)) : NoDup (map fst l) → dict_of l = l.
Proof.
  unfold dict_of. intros Hnd.
  enough (Hgen : ∀ acc, NoDup (map fst (acc ++ l)) →
            fold_left (λ d kv, dict_set kv.1 kv.2 d) l acc = acc ++ l)
    by (by apply (Hgen [])).
  clear Hnd. induction l as [|[k v] l IH]; intros acc Hnd.
  - by rewrite app_nil_r.
  - simpl. rewrite dict_set_fresh.
    + rewrite IH; rewrite <- app_assoc; done.
    + rewrite map_app in Hnd. apply NoDup_app in Hnd as (_ & Hd & _).
      intros Hk. apply (Hd _ Hk). simpl. left.
Qed.

Lemma dict_get_Some_elem (k : K) (v : V) (d : list (K * V)) :
  dict_get k d = Some v → (k, v) ∈ d.
Proof.
  induction d as [|[k' v'] d IH]; simpl; [done|].
  case_decide; intros; simplify_eq; [left|right; auto].
Qed.

Lemma dict_get_None (k : K) (d : list (K * V)) :
  dict_get k d = None ↔ k ∉ map fst d.
Proof.
  induction d as [|[k' v'] d IH]; simpl.
  - split; [intros _ H; inv H|done].
  - rewrite not_elem_of_cons. case_decide as Hk.
    + split; [done|]. intros [Hne _]. by destruct Hne.
    + rewrite IH. split; [by split|]. by intros [_ ?].
Qed.

End Dict.

(** ** majority_vote *)

Lemma set_order_remove_dups : set_order (remove_dups (A := string)).
Proof. intros l. split; [apply NoDup_remove_dups|]. intros x. apply elem_of_remove_dups. Qed.

Lemma count_0 (c : string) (l : list string) : c ∉ l → count c l = 0%nat.
Proof.
  unfold count. induction l as [|x l IH]; [done|].
  intros [Hne Hl]%not_elem_of_cons. rewrite filter_cons, decide_False by done. auto.
Qed.

Section MajorityVote.
Import Decompose.

Lemma set_order_starting_with (k : string) : set_order (starting_with k).
Proof.
  intros l. unfold starting_with. case_decide as Hk.
  - split.
    + constructor; [|apply NoDup_filter, NoDup_remove_dups].
      intros [Hne _]%list_elem_of_filter. done.
    + intros x. apply (proj1 (elem_of_remove_dups _ _)) in Hk.
      rewrite elem_of_cons, list_elem_of_filter, elem_of_remove_dups.
      destruct (decide (x = k)) as [->|Hx].
      * split; [done|by left].
      * split; [by intros [?|[_ ?]]|by right].
  - split; [apply NoDup_remove_dups|]. intros x. apply elem_of_remove_dups.
Qed.

Section Tally.
Variable set_iter : list string → list string.
Hypothesis set_iter_order : set_order set_iter.

Lemma votes_of_eq (tys : list string) :
  votes_of set_iter tys = map (λ c, (c, Z.of_nat (count c tys))) (set_iter tys).
Proof.
  unfold votes_of. apply dict_of_NoDup.
  rewrite map_map. simpl. rewrite map_id. apply set_iter_order.
Qed.

Lemma elem_of_votes_of (k : string) (n : Z) (tys : list string) :
  (k, n) ∈ votes_of set_iter tys ↔ k ∈ tys ∧ n = Z.of_nat (count k tys).
Proof.
  rewrite votes_of_eq. split.
  - intros (c & Heq & Hc)%list_elem_of_fmap_1. simplify_eq.
    split; [|done]. by apply set_iter_order.
  - intros [Hk ->]. apply (list_elem_of_fmap_2 (λ c, (c, Z.of_nat (count c tys)))).
    by apply set_iter_order.
Qed.

(** The tally returns a key with the largest number of votes. *)
Lemma tally_max (tys : list string) :
  tys ≠ [] →
  ∃ k, tally set_iter tys = Ok k ∧ k ∈ tys ∧ ∀ k', (count k' tys ≤ count k tys)%nat.
Proof.
  intros Hne. unfold tally.
  destruct (sorted Z.leb (λ cv : string * Z, - cv.2) (votes_of set_iter tys))
    as [|[k n] r] eqn:E.
  - apply sorted_nil_inv in E. destruct tys as [|t tys]; [done|].
    assert (Ht : (t, Z.of_nat (count t (t :: tys))) ∈ votes_of set_iter (t :: tys))
      by (apply elem_of_votes_of; split; [left|done]).
    rewrite E in Ht. inv Ht.
  - exists k. split; [done|].
    destruct (sorted_head_min Z.leb (λ cv : string * Z, - cv.2)) with
      (l := votes_of set_iter tys) (x := (k, n)) as [Hin Hmin].
    + intros a b. rewrite !Z.leb_le. lia.
    + intros a b c. rewrite !Z.leb_le. lia.
    + by rewrite E.
    + apply elem_of_votes_of in Hin as [Hk ->]. split; [done|].
      intros k'. destruct (decide (k' ∈ tys)) as [Hk'|Hk'].
      * rewrite Forall_forall in Hmin.
        specialize (Hmin (k', Z.of_nat (count k' tys))).
        unfold key_le in Hmin. simpl in Hmin. rewrite Z.leb_le in Hmin.
        assert (- Z.of_nat (count k tys) ≤ - Z.of_nat (count k' tys))
          by (apply Hmin, elem_of_votes_of; done).
        lia.
      * rewrite (count_0 k') by done. lia.
Qed.

End Tally.

(** Every key with the largest number of votes is returned under some
    iteration order. *)
Lemma tally_starting_with (k : string) (tys : list string) :
  k ∈ tys → (∀ k', (count k' tys ≤ count k tys)%nat) →
  tally (starting_with k) tys = Ok k.
Proof.
  intros Hk Hmax. unfold tally.
  rewrite (votes_of_eq _ (set_order_starting_with k)).
  unfold starting_with. rewrite decide_True by (by apply elem_of_remove_dups).
  simpl map at 2. rewrite sorted_cons_min; [done|].
  apply Forall_forall. intros [c n] (c' & Heq & _)%list_elem_of_fmap_1. simplify_eq.
  unfold key_le. simpl. rewrite Z.leb_le. specialize (Hmax c'). lia.
Qed.

(** C9: for a node with children whose type keys are all defined,
    [majority_vote] returns one of these keys with a maximal number of
    occurrences among them. Which of several tied keys it returns depends
    on the iteration order of the set only: each tied key is the result of
    the tally under some iteration order. *)
Theorem majority_vote_maximal (set_iter : list string → list string)
    (fuel : nat) (s : store) (grouped : Grouped) (node : loc)
    (ch : list (loc * Rel)) (tys : list string) :
  set_order set_iter →
  dict_get (Some node) grouped = Some ch →
  ch ≠ [] →
  mapM (λ n : loc * Rel, get_type_key set_iter fuel s grouped n.1) ch = Ok tys →
  ∃ k, majority_vote set_iter (S fuel) s grouped node = Ok k
       ∧ k ∈ tys
       ∧ (∀ k', (count k' tys ≤ count k tys)%nat)
       ∧ (∀ k', k' ∈ tys → count k' tys = count k tys →
            ∃ it, set_order it ∧ tally it tys = Ok k').
Proof.
  intros Hset Hch Hne Htys.
  assert (Htne : tys ≠ []).
  { intros ->. destruct ch as [|c ch]; [done|]. simpl in Htys.
    destruct (get_type_key _ _ _ _ _); simpl in Htys; try done.
    destruct (mapM _ ch); simpl in Htys; done. }
  destruct (tally_max set_iter Hset tys Htne) as (k & Hk & Hin & Hmax).
  exists k. split; [|split; [done|split; [done|]]].
  - simpl. unfold children_of. rewrite Hch. simpl.
    unfold get_type_key in Htys. rewrite Htys. simpl. done.
  - intros k' Hk' Heq. exists (starting_with k').
    split; [apply set_order_starting_with|].
    apply tally_starting_with; [done|]. intros k''. rewrite Heq. apply Hmax.
Qed.

End MajorityVote.

(** The coordination sample: two nouns against one conjunction. *)
Lemma majority_vote_maximal_witness :
  ∃ k, Decompose.majority_vote remove_dups 1 Samples.conj_store Samples.conj_grouped 1%positive
         = Ok k
       ∧ k ∈ ["noun"; "vg"; "noun"]
       ∧ (∀ k', (count k' ["noun"; "vg"; "noun"] ≤ count k ["noun"; "vg"; "noun"])%nat)
       ∧ (∀ k', k' ∈ ["noun"; "vg"; "noun"] →
            count k' ["noun"; "vg"; "noun"] = count k ["noun"; "vg"; "noun"] →
            ∃ it, set_order it ∧ Decompose.tally it ["noun"; "vg"; "noun"] = Ok k').
Proof.
  apply (majority_vote_maximal remove_dups 0 Samples.conj_store Samples.conj_grouped 1%positive
           [(2%positive, Plain "cnj"); (3%positive, Plain "crd"); (4%positive, Plain "cnj")]).
  - apply set_order_remove_dups.
  - reflexivity.
  - discriminate.
  - vm_compute. reflexivity.
Defined.

(** ** collapse_mwu *)

Section DelKeys.
Context {K V : Type} `{EqDecision K}.

Lemma dict_del_keys (k : K) (d d' : list (K * V)) :
  dict_del k d = Some d' → NoDup (map fst d) →
  NoDup (map fst d') ∧ ∀ k', k' ∈ map fst d' ↔ k' ∈ map fst d ∧ k' ≠ k.
Proof.
  revert d'. induction d as [|[k0 v0] d IH]; intros d'; simpl; [done|].
  intros Hdel [Hk0 Hnd]%NoDup_cons. case_decide as Hk.
  - simplify_eq. split; [done|]. intros k'. rewrite elem_of_cons.
    split; [|by intros [[?|?] ?]].
    intros Hin. split; [by right|]. by intros ->.
  - destruct (dict_del k d) as [d1|] eqn:E; simplify_eq/=.
    destruct (IH d1 eq_refl Hnd) as [Hnd1 Hiff]. split.
    + constructor; [|done]. rewrite Hiff. by intros [? _].
    + intros k'. rewrite !elem_of_cons, Hiff.
      split; [intros [->|[? ?]]; auto|intros [[->|?] ?]; auto].
Qed.

End DelKeys.

Section CollapseMwu.
Import Decompose.

Lemma del_keys_keys (removed : list (option loc)) (g g' : Grouped) :
  del_keys removed g = Ok g' → NoDup (map fst g) →
  ∀ k, k ∈ map fst g' → k ∈ map fst g ∧ k ∉ removed.
Proof.
  unfold del_keys. revert g. induction removed as [|r removed IH]; intros g; simpl.
  - intros [= <-] _ k Hk. split; [done|]. intros H. inv H.
  - intros Hdel Hnd k Hk. bind_inv Hdel.
    destruct (dict_del r g) as [g1|] eqn:Edel; simplify_eq/=.
    destruct (dict_del_keys _ _ _ Edel Hnd) as [Hnd1 Hiff].
    destruct (IH _ Hdel Hnd1 k Hk) as [Hin Hnot].
    apply Hiff in Hin as [Hin Hne]. split; [done|].
    rewrite not_elem_of_cons. done.
Qed.

Lemma collapse_key_skip (set_iter : list string → list string) (fuel : nat)
    (g : Grouped) (key : option loc) (s : store) (tr : list (option loc)) :
  not_mwu s key → collapse_key set_iter fuel g key (s, tr) = Ok (s, tr).
Proof.
  intros Hk. unfold collapse_key. destruct key as [k|]; [|done].
  destruct (Hk k eq_refl) as (a & -> & Hcat). simpl.
  by rewrite bool_decide_eq_false_2.
Qed.

Lemma collapse_key_inv (set_iter : list string → list string) (fuel : nat)
    (g : Grouped) (key : option loc) (s s' : store) (tr tr' : list (option loc)) :
  collapse_key set_iter fuel g key (s, tr) = Ok (s', tr') →
  (s' = s ∧ tr' = tr ∧ not_mwu s key)
  ∨ (tr' = tr ++ [key] ∧ ∃ k, key = Some k ∧ ∀ l, l ≠ k → s' !! l = s !! l).
Proof.
  unfold collapse_key. destruct key as [k|]; [|intros [= <- <-]; left; done].
  intros H. bind_inv H. case_bool_decide as Hcat.
  - right. bind_inv H. simplify_eq. split; [done|]. exists k. split; [done|].
    intros l Hl.
    repeat match goal with
           | Hu : upd _ _ _ = Ok _ |- _ => apply upd_Ok in Hu as (? & _ & ->)
           end.
    by rewrite !lookup_insert_ne.
  - left. simplify_eq. split; [done|]. split; [done|]. intros ? [= <-]. eauto.
Qed.

Lemma collapse_keys_inv (set_iter : list string → list string) (fuel : nat)
    (g : Grouped) (keys : list (option loc)) (s s' : store) (tr tr' : list (option loc)) :
  foldM (collapse_key set_iter fuel g) keys (s, tr) = Ok (s', tr') →
  ∃ removed, tr' = tr ++ removed
    ∧ (∀ l, Some l ∉ removed → s' !! l = s !! l)
    ∧ (∀ key, key ∈ keys → key ∉ removed → not_mwu s' key).
Proof.
  revert s tr. induction keys as [|key keys IH]; intros s tr; simpl.
  - intros [= <- <-]. exists []. rewrite app_nil_r.
    split; [done|]. split; [done|]. intros key H. inv H.
  - intros H. bind_inv H. destruct a as [s1 tr1].
    destruct (IH _ _ H) as (removed & -> & Hsame & Hrest).
    apply collapse_key_inv in E as [(-> & -> & Hkey)|(-> & k & -> & Hother)].
    + exists removed. split; [done|]. split; [done|].
      intros key' [->|Hin]%elem_of_cons Hnot; [|by apply Hrest].
      intros k Hk. destruct (Hkey k Hk) as (a & Ha & Hcat). exists a. split; [|done].
      subst key. apply get_Ok in Ha as (e & He & <-). apply get_Ok.
      exists e. by rewrite Hsame.
    + exists (Some k :: removed). rewrite <- app_assoc. split; [done|]. split.
      * intros l [Hl Hnot]%not_elem_of_cons.
        rewrite Hsame by done. apply Hother. congruence.
      * intros key' [->|Hin]%elem_of_cons [Hne Hnot]%not_elem_of_cons; [done|].
        by apply Hrest.
Qed.

Lemma collapse_keys_skip (set_iter : list string → list string) (fuel : nat)
    (g : Grouped) (keys : list (option loc)) (s : store) (tr : list (option loc)) :
  Forall (not_mwu s) keys →
  foldM (collapse_key set_iter fuel g) keys (s, tr) = Ok (s, tr).
Proof.
  induction 1 as [|key keys Hkey _ IH]; [done|].
  cbn [foldM]. by rewrite collapse_key_skip.
Qed.

(** C6: after a pass of [collapse_mwu] no key of the dictionary has
    category [mwu], and a second pass returns the store and the
    dictionary as they are. *)
Theorem collapse_mwu_idempotent (set_iter : list string → list string) (fuel : nat)
    (s s' : store) (grouped grouped' : Grouped) :
  NoDup (map fst grouped) →
  collapse_mwu set_iter fuel s grouped = Ok (s', grouped') →
  (∀ k, Some k ∈ map fst grouped' → ∃ a, get s' k = Ok a ∧ cat a ≠ Some "mwu")
  ∧ ∀ set_iter' fuel', collapse_mwu set_iter' fuel' s' grouped' = Ok (s', grouped').
Proof.
  intros Hnd H. unfold collapse_mwu in H. bind_inv H. destruct a as [s1 to_remove].
  bind_inv H. simplify_eq.
  apply collapse_keys_inv in E as (removed & Hrem & _ & Hkeys). simpl in Hrem. subst.
  assert (Hall : ∀ key, key ∈ map fst grouped' → not_mwu s' key).
  { intros key Hkey. destruct (del_keys_keys _ _ _ E0 Hnd key Hkey) as [Hin Hnot].
    by apply Hkeys. }
  split.
  - intros k Hk. by apply (Hall (Some k)).
  - intros set_iter' fuel'. unfold collapse_mwu.
    rewrite collapse_keys_skip by (by apply Forall_forall). done.
Qed.

End CollapseMwu.

(** The multi-word unit sample. *)
Lemma collapse_mwu_idempotent_witness :
  ∃ s' grouped',
    Decompose.collapse_mwu remove_dups 2 Samples.mwu_store Samples.mwu_grouped
      = Ok (s', grouped')
    ∧ (word <$> get s' 3%positive) = Ok (Some "New York")
    ∧ (∀ k, Some k ∈ map fst grouped' → ∃ a, get s' k = Ok a ∧ cat a ≠ Some "mwu")
    ∧ ∀ set_iter' fuel', Decompose.collapse_mwu set_iter' fuel' s' grouped' = Ok (s', grouped').
Proof.
  eexists _, _. split; [vm_compute; reflexivity|]. split; [vm_compute; reflexivity|].
  apply (collapse_mwu_idempotent remove_dups 2 Samples.mwu_store _ Samples.mwu_grouped _).
  - compute_done.
  - vm_compute. reflexivity.
Defined.

(** ** lexicon_to_list *)

Section LexiconToList.
Context `{TA : TypeAlgebra}.
Import Decompose.









End LexiconToList.



(** On that sample the leaf [4] is left out. *)
Example lexicon_to_list_raising :
  Decompose.lexicon_to_list remove_dups (Decompose.init (TA := Ty_algebra) (λ w, w) "|")
    Samples.raising_store Samples.raising_sublex Samples.raising_grouped false
  = Ok (Decompose.Pairs
          [("haar", TAtom "NP"); ("zien", TFunctor [TAtom "NP"] (TAtom "INF") [] false)]).
Proof. vm_compute. reflexivity. Qed.

(** ** The order on strings *)

Lemma string_compare_trans (a b c : string) :
  String.compare a b ≠ Gt → String.compare b c ≠ Gt → String.compare a c ≠ Gt.
Proof.
  revert b c. induction a as [|x a IH]; intros b c.
  - destruct c; simpl; discriminate.
  - destruct b as [|y b]; [simpl; congruence|].
    destruct c as [|z c]; [simpl; congruence|]. simpl.
    unfold Ascii.compare.
    destruct (N.compare_spec (Ascii.N_of_ascii x) (Ascii.N_of_ascii y)) as [Hxy|Hxy|Hxy];
      destruct (N.compare_spec (Ascii.N_of_ascii y) (Ascii.N_of_ascii z)) as [Hyz|Hyz|Hyz];
      try congruence; intros Hab Hbc.
    + rewrite Hxy, Hyz, N.compare_refl. by apply (IH b).
    + rewrite Hxy. by apply N.compare_lt_iff in Hyz as ->.
    + rewrite <- Hyz. by apply N.compare_lt_iff in Hxy as ->.
    + assert (Hxz : (Ascii.N_of_ascii x < Ascii.N_of_ascii z)%N) by lia.
      by apply N.compare_lt_iff in Hxz as ->.
Qed.

Lemma string_leb_trans (a b c : string) :
  String.leb a b = true → String.leb b c = true → String.leb a c = true.
Proof.
  unfold String.leb. intros Hab Hbc.
  pose proof (string_compare_trans a b c) as H.
  destruct (String.compare a b), (String.compare b c), (String.compare a c);
    try done; exfalso; apply H; done.
Qed.

Lemma string_leb_refl (a : string) : String.leb a a = true.
Proof. by destruct (String.leb_total a a). Qed.

(** ** groupby on a sorted list *)

Section Groupby.
Context {A K : Type} `{EqDecision K} (leb : K → K → bool) (key : A → K).
Hypothesis leb_antisym : ∀ a b, leb a b = true → leb b a = true → a = b.

Lemma groupby_head (l : list A) :
  head (map fst (groupby key l)) = head (map key l).
Proof.
  destruct l as [|x l]; [done|]. simpl.
  destruct (groupby key l) as [|[k g] r]; [done|]. by case_decide; simplify_eq.
Qed.

Lemma groupby_keys (l : list A) (k : K) :
  k ∈ map fst (groupby key l) → k ∈ map key l.
Proof.
  revert k. induction l as [|x l IH]; intros k; simpl; [done|].
  destruct (groupby key l) as [|[k' g] r] eqn:E.
  - simpl. intros ->%list_elem_of_singleton. left.
  - case_decide; simpl.
    + intros Hk. right. apply IH. by simplify_eq.
    + intros [->|Hk]%elem_of_cons; [left|right; by apply IH].
Qed.

(** In a sorted list the elements with the same key are neighbours. *)
Lemma sorted_key_fresh (x : A) (l : list A) :
  StronglySorted (key_le leb key) (x :: l) →
  head (map key l) ≠ Some (key x) → key x ∉ map key l.
Proof.
  intros [Hl Hx]%StronglySorted_inv Hhd.
  destruct l as [|h t]; [intros H; inv H|].
  intros (y & Hy & Hin)%list_elem_of_fmap_1.
  apply Hhd. simpl. f_equal. apply leb_antisym.
  - apply StronglySorted_inv in Hl as [_ Hh]. rewrite Hy.
    apply elem_of_cons in Hin as [->|Hin].
    + pose proof (proj1 (Forall_forall _ _) Hx h) as Hxh.
      unfold key_le in Hxh. rewrite Hy in Hxh. apply Hxh. left.
    + by apply (proj1 (Forall_forall _ _) Hh).
  - apply (proj1 (Forall_forall _ _) Hx h). left.
Qed.

Lemma filter_key_fresh (k : K) (l : list A) :
  k ∉ map key l → filter (λ x, key x = k) l = [].
Proof.
  induction l as [|x l IH]; [done|]. simpl. intros [Hne Hk]%not_elem_of_cons.
  rewrite filter_cons, decide_False by done. auto.
Qed.

(** On a sorted list [groupby] yields one group per key, made of the
    elements with that key in their order. *)
Lemma groupby_sorted (l : list A) :
  StronglySorted (key_le leb key) l →
  NoDup (map fst (groupby key l))
  ∧ ∀ i, dict_get i (groupby key l)
         = if decide (i ∈ map key l) then Some (filter (λ x, key x = i) l) else None.
Proof.
  induction l as [|x l IH]; intros Hs.
  - split; [constructor|]. intros i. done.
  - pose proof Hs as [Hl _]%StronglySorted_inv.
    destruct (IH Hl) as [Hnd Hget]. clear IH.
    pose proof (groupby_head l) as Hhd. pose proof (groupby_keys l) as Hkeys.
    simpl. destruct (groupby key l) as [|[k g] r] eqn:E.
    + assert (l = []) as -> by (destruct l; [done|]; simpl in Hhd; done).
      split; [repeat constructor; intros H; inv H|].
      intros i. simpl. rewrite filter_cons, filter_nil.
      case_decide as Hk; simplify_eq.
      * rewrite decide_True by left. done.
      * rewrite decide_False; [done|]. intros ->%list_elem_of_singleton. done.
    + simpl in Hhd. pose proof (Hget k) as Hk. simpl in Hk.
      assert (Hkin : k ∈ map key l)
        by (destruct (map key l); simplify_eq/=; left).
      rewrite !decide_True in Hk by done. injection Hk as ->.
      case_decide as Hxk.
      * split; [done|]. intros i. cbn [dict_get]. rewrite filter_cons.
        specialize (Hget i). cbn [dict_get] in Hget.
        destruct (decide (k = i)) as [<-|Hki].
        -- rewrite !decide_True by (done || set_solver). done.
        -- rewrite Hget, (decide_False (P := key x = i)) by congruence.
           repeat case_decide; try done; set_solver.
      * assert (Hfresh : key x ∉ map key l).
        { apply sorted_key_fresh; [done|]. rewrite <- Hhd. congruence. }
        split.
        -- simpl. constructor; [|done]. intros Hin. apply Hfresh, Hkeys. done.
        -- intros i. cbn [dict_get]. rewrite filter_cons.
           specialize (Hget i). cbn [dict_get] in Hget.
           destruct (decide (key x = i)) as [<-|Hxi].
           ++ rewrite decide_True by set_solver. by rewrite filter_key_fresh.
           ++ rewrite Hget. repeat case_decide; try done; set_solver.
Qed.

End Groupby.

(** ** find_main_coindex *)

Section FindMainCoindex.
Import Lassy.

Lemma coindexed_of_cons (na : loc * Attrib) (nas : list (loc * Attrib)) :
  coindexed_of (na :: nas)
  = match index na.2 with
    | Some i => (i, na) :: coindexed_of nas
    | None => coindexed_of nas
    end.
Proof. unfold coindexed_of. simpl. by destruct (index na.2). Qed.

Lemma coindexed_of_filter (i : string) (nas : list (loc * Attrib)) :
  map snd (filter (λ x : string * (loc * Attrib), x.1 = i) (coindexed_of nas))
  = filter (λ na : loc * Attrib, index na.2 = Some i) nas.
Proof.
  induction nas as [|na nas IH]; [done|].
  rewrite coindexed_of_cons, (filter_cons _ na).
  destruct (index na.2) as [j|] eqn:E.
  - rewrite filter_cons. simpl. destruct (decide (j = i)) as [->|Hne].
    + rewrite decide_True by done. simpl. by rewrite IH.
    + rewrite decide_False by congruence. done.
  - rewrite decide_False by done. done.
Qed.

Lemma coindexed_of_keys (i : string) (nas : list (loc * Attrib)) :
  i ∈ map fst (coindexed_of nas) ↔ ∃ na, na ∈ nas ∧ index na.2 = Some i.
Proof.
  induction nas as [|na nas IH].
  - split; [intros H; inv H|intros (? & H & _); inv H].
  - rewrite coindexed_of_cons. destruct (index na.2) as [j|] eqn:E; simpl.
    + rewrite elem_of_cons, IH. split.
      * intros [->|(na' & ? & ?)]; [exists na; split; [left|done]|].
        exists na'. split; [by right|done].
      * intros (na' & [->|Hin]%elem_of_cons & Hi); [left; congruence|].
        right. eauto.
    + rewrite IH. split.
      * intros (na' & ? & ?). exists na'. split; [by right|done].
      * intros (na' & [->|Hin]%elem_of_cons & Hi); [congruence|]. eauto.
Qed.

Lemma dict_get_map_values {V W} (f : V → W) (i : string) (d : list (string * V)) :
  dict_get i (map (λ kv : string * V, (kv.1, f kv.2)) d) = f <$> dict_get i d.
Proof.
  induction d as [|[k v] d IH]; [done|]. simpl. case_decide; [done|apply IH].
Qed.

Lemma mapM_pick_main (d : list (string * list (loc * Attrib))) :
  Forall (λ kg, filter (λ na, is_main_candidate na = true) kg.2 ≠ []) d →
  ∃ m, mapM pick_main d = Ok m ∧ map fst m = map fst d
       ∧ ∀ i, dict_get i m
              = dict_get i d ≫= λ g, fst <$> head (filter (λ na, is_main_candidate na = true) g).
Proof.
  induction 1 as [|[k g] d Hg _ (m & Hm & Hkeys & Hget)].
  - exists []. by repeat split.
  - simpl in Hg. destruct (filter _ g) as [|na r] eqn:E; [done|].
    assert (Hp : pick_main (k, g) = Ok (k, na.1))
      by (unfold pick_main; cbn [fst snd]; by rewrite E).
    exists ((k, na.1) :: m). cbn [mapM]. rewrite Hp, Hm.
    split; [done|]. split; [simpl; by rewrite Hkeys|].
    intros i. cbn [dict_get]. case_decide; [|apply Hget].
    cbn [mbind option_bind]. by rewrite E.
Qed.

(** The nodes of a tree do not depend on the fuel. *)
Lemma iter_fuel (f1 f2 : nat) (s : store) (l : loc) (n1 n2 : list loc) :
  iter f1 s l = Ok n1 → iter f2 s l = Ok n2 → n1 = n2.
Proof.
  revert f2 l n1 n2. induction f1 as [|f1 IH]; intros [|f2] l n1 n2; try done.
  cbn [iter]. unfold get_children. destruct (s !! l) as [e|]; [|done]. simpl.
  intros H1 H2. bind_inv H1. bind_inv H2. simplify_eq. f_equal. f_equal.
  eapply mapM_det; [|eassumption..]. intros c m1 m2. apply IH.
Qed.

Lemma head_filter_least {A} (P : A → Prop) `{∀ x, Decision (P x)} (f : A → Z)
    (l : list A) (x : A) :
  StronglySorted Z.lt (map f l) → head (filter P l) = Some x →
  x ∈ l ∧ ∀ y, y ∈ l → P y → f x ≤ f y.
Proof.
  induction l as [|z l IH]; [done|]. simpl.
  intros [Hl Hz]%StronglySorted_inv. rewrite filter_cons. case_decide as Hp.
  - intros [= ->]. split; [left|]. intros y [->|Hy]%elem_of_cons _; [lia|].
    rewrite Forall_forall in Hz. specialize (Hz (f y) (list_elem_of_fmap_2 f _ _ Hy)). lia.
  - intros Hhd. destruct (IH Hl Hhd) as [Hin Hmin]. split; [by right|].
    intros y [->|Hy]%elem_of_cons Hpy; [done|]. by apply Hmin.
Qed.

Lemma first_candidate_of_None (nas : list (loc * Attrib)) (i : string) :
  i ∉ map fst (coindexed_of nas) → first_candidate_of nas i = None.
Proof.
  intros Hi. unfold first_candidate_of.
  destruct (filter _ nas) as [|na r] eqn:E; [done|]. exfalso. apply Hi.
  apply coindexed_of_keys. exists na.
  assert (Hin : na ∈ filter (λ na : loc * Attrib,
                   is_main_candidate na = true ∧ index na.2 = Some i) nas)
    by (rewrite E; left).
  apply list_elem_of_filter in Hin as [[_ ?] ?]. done.
Qed.

Lemma dict_get_NoDup_elem {V} (k : string) (v : V) (d : list (string * V)) :
  NoDup (map fst d) → (k, v) ∈ d → dict_get k d = Some v.
Proof.
  induction d as [|[k' v'] d IH]; [intros _ H; inv H|]. simpl.
  intros [Hk Hnd]%NoDup_cons [[= -> ->]|Hin]%elem_of_cons.
  - by rewrite decide_True.
  - rewrite decide_False; [auto|]. intros ->. apply Hk.
    by apply (list_elem_of_fmap_2 fst) in Hin.
Qed.

(** The groups that [find_main_coindex] forms: for each index the nodes
    carrying it, in document order. *)
Lemma all_coind_groups (nas : list (loc * Attrib)) :
  let all_coind :=
    map (λ ig : string * list (string * (loc * Attrib)), (ig.1, map snd ig.2))
      (groupby fst (sorted String.leb fst (coindexed_of nas))) in
  NoDup (map fst all_coind)
  ∧ ∀ i, dict_get i all_coind
         = if decide (i ∈ map fst (coindexed_of nas))
           then Some (filter (λ na : loc * Attrib, index na.2 = Some i) nas)
           else None.
Proof.
  intros all_coind.
  destruct (groupby_sorted String.leb fst String.leb_antisym
              (sorted String.leb fst (coindexed_of nas))) as [Hnd Hget].
  { apply sorted_StronglySorted; [apply String.leb_total|apply string_leb_trans]. }
  assert (Hkeys : map fst all_coind
                  = map fst (groupby fst (sorted String.leb fst (coindexed_of nas)))).
  { unfold all_coind. rewrite map_map. done. }
  split; [by rewrite Hkeys|].
  intros i. unfold all_coind. rewrite dict_get_map_values, Hget.
  assert (Hp : map fst (sorted String.leb fst (coindexed_of nas))
               ≡ₚ map fst (coindexed_of nas)) by apply Permutation_map, sorted_perm.
  destruct (decide (i ∈ map fst (coindexed_of nas))) as [Hi|Hi].
  - rewrite decide_True by (by rewrite Hp). simpl. f_equal.
    rewrite sorted_filter_key by apply string_leb_refl. apply coindexed_of_filter.
  - rewrite decide_False by (by rewrite Hp). done.
Qed.

(** C4, amended: when every coindex group has a member carrying [cat] or
    [word], [find_main_coindex] returns, and the main node of a group is
    its first such member in document order; this is the member with the
    lowest identifier when identifiers increase in document order. The
    choice is the same on every run. *)
Theorem find_main_coindex_first_in_document_order (fuel : nat) (s : store) (xtree : loc)
    (nodes : list loc) (nas : list (loc * Attrib)) :
  iter fuel s xtree = Ok nodes →
  mapM (λ l, a ← get s l; Ok (l, a)) nodes = Ok nas →
  (∀ na i, na ∈ nas → index na.2 = Some i →
     ∃ na', na' ∈ nas ∧ index na'.2 = Some i ∧ is_main_candidate na' = true) →
  ∃ all_coind main_coind,
    find_main_coindex fuel s xtree = Ok (all_coind, main_coind)
    ∧ (∀ i, dict_get i main_coind = first_candidate_of nas i)
    ∧ (StronglySorted Z.lt (map (λ na : loc * Attrib, id na.2) nas) →
       ∀ i m, dict_get i main_coind = Some m →
         ∃ a, (m, a) ∈ nas ∧
           ∀ na, na ∈ nas → index na.2 = Some i → is_main_candidate na = true →
                 id a ≤ id na.2)
    ∧ (∀ fuel' r, find_main_coindex fuel' s xtree = Ok r → r = (all_coind, main_coind)).
Proof.
  intros Hiter Hnas Hcand.
  assert (Hmain : ∃ all_coind main_coind,
            find_main_coindex fuel s xtree = Ok (all_coind, main_coind)
            ∧ ∀ i, dict_get i main_coind = first_candidate_of nas i).
  { unfold find_main_coindex. rewrite Hiter. simpl. rewrite Hnas. simpl.
    destruct (coindexed_of nas) as [|c cs] eqn:Ec.
    { exists [], []. split; [done|]. intros i. symmetry.
      apply first_candidate_of_None. rewrite Ec. intros H. inv H. }
    rewrite <- Ec. clear c cs Ec.
    destruct (all_coind_groups nas) as [Hnd Hget].
    rewrite dict_of_NoDup by done.
    destruct (mapM_pick_main
                (map (λ ig : string * list (string * (loc * Attrib)), (ig.1, map snd ig.2))
                   (groupby fst (sorted String.leb fst (coindexed_of nas)))))
      as (m & Hm & Hkeys & Hgetm).
    { apply Forall_forall. intros [k g] Hin. simpl.
      pose proof (dict_get_NoDup_elem k g _ Hnd Hin) as Hk. rewrite Hget in Hk.
      case_decide as Hi; [|done]. injection Hk as <-.
      apply coindexed_of_keys in Hi as (na & Hna & Hidx).
      destruct (Hcand na k Hna Hidx) as (na' & Hna' & Hidx' & Hc).
      intros Hnil.
      assert (Hin' : na' ∈ filter (λ na, is_main_candidate na = true)
                       (filter (λ na : loc * Attrib, index na.2 = Some k) nas))
        by (by rewrite !list_elem_of_filter).
      rewrite Hnil in Hin'. inv Hin'. }
    rewrite Hm. simpl. eexists _, _. split; [done|].
    rewrite dict_of_NoDup by (by rewrite Hkeys).
    intros i. rewrite Hgetm, Hget. case_decide as Hi.
    - simpl. unfold first_candidate_of. by rewrite list_filter_filter.
    - symmetry. by apply first_candidate_of_None. }
  destruct Hmain as (all_coind & main_coind & Hfind & Hget).
  exists all_coind, main_coind. split; [done|]. split; [done|]. split.
  - intros Hsorted i m Hm. rewrite Hget in Hm. unfold first_candidate_of in Hm.
    destruct (head (filter _ nas)) as [[m' a]|] eqn:Ehd; simplify_eq/=.
    destruct (head_filter_least _ (λ na : loc * Attrib, id na.2) nas (m, a) Hsorted Ehd)
      as [Hin Hmin].
    exists a. split; [done|]. intros na Hna Hidx Hc. by apply (Hmin na).
  - intros fuel' r Hr. unfold find_main_coindex in Hr, Hfind.
    destruct (iter fuel' s xtree) as [nodes'| | |] eqn:E; simpl in Hr; try done.
    rewrite (iter_fuel _ _ _ _ _ _ E Hiter) in Hr. rewrite Hiter in Hfind.
    simpl in Hfind. congruence.
Qed.

End FindMainCoindex.

(** The coindex sample: the main node of the group is the first member
    in document order. *)
Lemma find_main_coindex_first_in_document_order_witness :
  ∃ all_coind main_coind,
    Lassy.find_main_coindex 2 Samples.coindex_store 1%positive = Ok (all_coind, main_coind)
    ∧ dict_get "1" main_coind = Some 2%positive.
Proof.
  destruct (find_main_coindex_first_in_document_order 2 Samples.coindex_store 1%positive
              [1%positive; 2%positive; 3%positive]
              [(1%positive, mkAttrib 0 0 2 None None (Some "top") None (RelStr "top"));
               (2%positive, mkAttrib 5 0 1 (Some "a") (Some "noun") None (Some "1")
                              (RelStr "su"));
               (3%positive, mkAttrib 3 1 2 (Some "a") (Some "noun") None (Some "1")
                              (RelStr "obj1"))])
    as (all_coind & main_coind & Hfind & Hget & _).
  - vm_compute. reflexivity.
  - vm_compute. reflexivity.
  - intros na i Hin Hi.
    exists (2%positive, mkAttrib 5 0 1 (Some "a") (Some "noun") None (Some "1") (RelStr "su")).
    split; [right; left|]. split; [|reflexivity].
    repeat (apply elem_of_cons in Hin as [->|Hin]; [simpl in *; congruence|]).
    inv Hin.
  - exists all_coind, main_coind. split; [done|]. rewrite Hget. reflexivity.
Defined.

(** C4, as stated, fails: on the coindex sample the group ["1"] has the
    members [2] (identifier 5) and [3] (identifier 3), both carrying
    [word]; the main node is [2], the first in document order, although
    [3] has the lower identifier. And when another group has no member
    carrying [cat] or [word], the call raises and selects no main node
    for the group that has one. *)
Lemma find_main_coindex_not_lowest_identifier :
  (∃ all_coind main_coind,
     Lassy.find_main_coindex 2 Samples.coindex_store 1%positive = Ok (all_coind, main_coind)
     ∧ dict_get "1" all_coind = Some [2%positive; 3%positive]
     ∧ dict_get "1" main_coind = Some 2%positive
     ∧ (id <$> get Samples.coindex_store 2%positive) = Ok 5
     ∧ (id <$> get Samples.coindex_store 3%positive) = Ok 3
     ∧ (word <$> get Samples.coindex_store 3%positive) = Ok (Some "a"))
  ∧ (word <$> get Samples.orphan_group_store 2%positive) = Ok (Some "a")
  ∧ (index <$> get Samples.orphan_group_store 2%positive) = Ok (Some "1")
  ∧ Lassy.find_main_coindex 2 Samples.orphan_group_store 1%positive = Raise IndexError.
Proof.
  split.
  - eexists _, _. split; [vm_compute; reflexivity|]. repeat split.
  - repeat split.
Qed.

(** ** tree_to_dag *)

Section TreeToDag.
Import Lassy.

Lemma copy_inv_init (s : store) : copy_inv s (s, ∅).
Proof.
  split; [done|]. split.
  - intros k e Hk He. simpl in He. congruence.
  - intros k k' H. simpl in H. by rewrite lookup_empty in H.
Qed.

Lemma copy_children_inv (copy : loc → store * gmap loc loc → result (loc * (store * gmap loc loc)))
    (s : store) (cs cs' : list loc) (st st' : store * gmap loc loc) :
  (∀ c c' st0 st1, copy_inv s st0 → copy c st0 = Ok (c', st1) →
     copy_inv s st1 ∧ s !! c' = None) →
  copy_inv s st → copy_children copy cs st = Ok (cs', st') →
  copy_inv s st' ∧ Forall (λ c, s !! c = None) cs'.
Proof.
  intros Hcopy. revert cs' st st'.
  induction cs as [|c cs IH]; intros cs' st st' Hinv H; cbn [copy_children] in H.
  - by simplify_eq.
  - bind_inv H. destruct a as [c1 st1]. simpl in H.
    bind_inv H. destruct a as [r st2]. simplify_eq/=.
    destruct (Hcopy _ _ _ _ Hinv E) as [Hinv1 Hc1].
    destruct (IH _ _ _ Hinv1 E0) as [Hinv2 Hr].
    split; [done|]. by constructor.
Qed.

(** A deep copy leaves the elements it starts from alone and returns a
    new element. *)
Lemma deepcopy_inv (fuel : nat) (s : store) (l l' : loc) (st st' : store * gmap loc loc) :
  copy_inv s st → deepcopy fuel l st = Ok (l', st') →
  copy_inv s st' ∧ s !! l' = None.
Proof.
  revert l l' st st'. induction fuel as [|f IH]; intros l l' st st' Hinv H; [done|].
  cbn [deepcopy] in H. destruct (st.2 !! l) as [k|] eqn:Ememo.
  - simplify_eq. split; [done|]. by apply Hinv in Ememo.
  - destruct (st.1 !! l) as [e|] eqn:El; [|done].
    bind_inv H. destruct a as [cs st1]. simpl in H. simplify_eq.
    destruct (copy_children_inv (deepcopy f) s _ _ _ _ IH Hinv E) as [Hinv1 Hcs].
    destruct Hinv1 as (Hold & Hnew & Hmemo).
    assert (Hfresh : st1.1 !! fresh (dom st1.1) = None)
      by (apply not_elem_of_dom, is_fresh).
    assert (Hs : s !! fresh (dom st1.1) = None).
    { destruct (s !! fresh (dom st1.1)) as [e'|] eqn:E'; [|done].
      apply Hold in E'. congruence. }
    split; [|done]. split; [|split]; simpl.
    + intros k e' Hk. rewrite lookup_insert_ne by congruence. by apply Hold.
    + intros k e' Hk. destruct (decide (fresh (dom st1.1) = k)) as [<-|Hne].
      * rewrite lookup_insert_eq. by intros [= <-].
      * rewrite lookup_insert_ne by done. by apply Hnew.
    + intros k k'. destruct (decide (l = k)) as [<-|Hne].
      * rewrite lookup_insert_eq. by intros [= <-].
      * rewrite lookup_insert_ne by done. apply Hmemo.
Qed.

Lemma get_children_Ok (s : store) (l : loc) (cs : list loc) :
  get_children s l = Ok cs ↔ ∃ e, s !! l = Some e ∧ children e = cs.
Proof.
  unfold get_children. destruct (s !! l) as [e|]; split.
  - intros [= <-]. eauto.
  - intros (e' & [= <-] & <-). done.
  - done.
  - intros (? & ? & _). done.
Qed.

Lemma mapM_Forall {A B} (P : A → Prop) (Q : B → Prop) (f : A → result B)
    (l : list A) (r : list B) :
  (∀ x y, P x → f x = Ok y → Q y) → Forall P l → mapM f l = Ok r → Forall Q r.
Proof.
  intros Hf Hl. revert r. induction Hl as [|x l Hx _ IH]; intros r H; cbn [mapM] in H.
  - by simplify_eq.
  - bind_inv H. simplify_eq. constructor; eauto.
Qed.

Lemma Forall_concat {A} (P : A → Prop) (ls : list (list A)) :
  Forall (Forall P) ls → Forall P (concat ls).
Proof. induction 1; simpl; [constructor|]. by apply Forall_app. Qed.

(** The traversals of a copy only meet elements of the copy. *)
Lemma iter_outside (fuel : nat) (s s1 : store) (l : loc) (nodes : list loc) :
  closed_outside s s1 → s !! l = None → iter fuel s1 l = Ok nodes →
  Forall (λ c, s !! c = None) nodes.
Proof.
  intros Hclosed. revert l nodes. induction fuel as [|f IH]; intros l nodes Hl H; [done|].
  cbn [iter] in H. bind_inv H. simplify_eq.
  match goal with
  | Hc : get_children _ _ = Ok _ |- _ => apply get_children_Ok in Hc as (e & He & <-)
  end.
  constructor; [done|]. apply Forall_concat.
  eapply (mapM_Forall (λ c, s !! c = None)); [|by eapply Hclosed|done].
  intros c sub Hc Hsub. by eapply IH.
Qed.

Lemma extract_level_outside (fuel : nat) (s s1 : store) (parents : list loc)
    (pairs : list (loc * option loc)) :
  closed_outside s s1 → Forall (λ c, s !! c = None) parents →
  extract_level fuel s1 parents = Ok pairs →
  Forall (λ np : loc * option loc,
            s !! np.1 = None ∧ ∃ p, np.2 = Some p ∧ s !! p = None) pairs.
Proof.
  intros Hclosed. revert parents pairs.
  induction fuel as [|f IH]; intros parents pairs Hparents H.
  - destruct parents; simpl in H; [|done]. simplify_eq. constructor.
  - destruct parents as [|p ps]; [simpl in H; simplify_eq; constructor|].
    cbn [extract_level] in H. bind_inv H. simplify_eq.
    assert (Hlevel : Forall (λ np : loc * option loc,
                        s !! np.1 = None ∧ ∃ p, np.2 = Some p ∧ s !! p = None)
                       (concat a)).
    { apply Forall_concat.
      eapply (mapM_Forall (λ c, s !! c = None)); [|exact Hparents|exact E].
      intros parent level Hp Hlevel. bind_inv Hlevel. simplify_eq.
      match goal with
      | Hc : get_children _ _ = Ok _ |- _ => apply get_children_Ok in Hc as (e & He & <-)
      end.
      apply Forall_forall. intros [c o] (c' & [= -> ->] & Hin)%list_elem_of_fmap_1.
      split; [|eauto]. simpl.
      by apply (proj1 (Forall_forall _ _) (Hclosed _ _ Hp He)). }
    apply Forall_app. split; [done|]. eapply IH; [|done].
    apply Forall_forall. intros c ([c' o] & -> & Hin)%list_elem_of_fmap_1.
    by apply (proj1 (Forall_forall _ _) Hlevel (c', o)).
Qed.

Lemma dict_set_elem {K V} `{EqDecision K} (k k0 : K) (v v0 : V) (d : list (K * V)) :
  (k, v) ∈ dict_set k0 v0 d → (k, v) = (k0, v0) ∨ (k, v) ∈ d.
Proof.
  induction d as [|[k' v'] d IH]; simpl.
  - intros ->%list_elem_of_singleton. by left.
  - case_decide.
    + intros [->|Hin]%elem_of_cons; [by left|right; by right].
    + intros [->|Hin]%elem_of_cons; [right; left|].
      destruct (IH Hin) as [->|?]; [by left|right; by right].
Qed.

Lemma dict_of_elem {K V} `{EqDecision K} (k : K) (v : V) (l : list (K * V)) :
  (k, v) ∈ dict_of l → (k, v) ∈ l.
Proof.
  unfold dict_of.
  enough (Hgen : ∀ acc, (k, v) ∈ fold_left (λ d kv, dict_set kv.1 kv.2 d) l acc →
            (k, v) ∈ acc ∨ (k, v) ∈ l).
  { intros H. destruct (Hgen [] H) as [Hnil|?]; [inv Hnil|done]. }
  induction l as [|[k0 v0] l IH]; intros acc; simpl; [by left|].
  intros [[->|Hin]%dict_set_elem|Hin]%IH; [right; left|by left|right; by right].
Qed.

Lemma groupby_elem {A K} `{EqDecision K} (key : A → K) (l : list A) (k : K) (g : list A) :
  (k, g) ∈ groupby key l → ∀ x, x ∈ g → x ∈ l.
Proof.
  revert k g. induction l as [|y l IH]; intros k g; simpl; [intros H; inv H|].
  destruct (groupby key l) as [|[k' g'] r] eqn:E.
  - intros [= -> ->]%list_elem_of_singleton x ->%list_elem_of_singleton. left.
  - case_decide.
    + intros [[= -> ->]|Hin]%elem_of_cons x Hx.
      * apply elem_of_cons in Hx as [->|Hx]; [left|right]. eapply IH; [left|done].
      * right. eapply IH; [right; exact Hin|done].
    + intros [[= -> ->]|Hin]%elem_of_cons x Hx.
      * apply list_elem_of_singleton in Hx as ->. left.
      * right. eapply IH; [exact Hin|done].
Qed.

Lemma mapM_pick_main_elem (d : list (string * list (loc * Attrib)))
    (m : list (string * loc)) :
  mapM pick_main d = Ok m →
  ∀ k v, (k, v) ∈ m → ∃ g a, (k, g) ∈ d ∧ (v, a) ∈ g.
Proof.
  revert m. induction d as [|[k0 g0] d IH]; intros m H; cbn [mapM] in H.
  - simplify_eq. intros k v Hin. inv Hin.
  - bind_inv H. simplify_eq. intros k v [Heq|Hin]%elem_of_cons.
    + unfold pick_main in E. simpl in E.
      destruct (filter _ g0) as [|na r] eqn:Ef; [done|].
      injection E as <-. injection Heq as -> ->.
      exists g0, na.2. split; [left|].
      assert (Hin : na ∈ filter (λ na, is_main_candidate na = true) g0)
        by (rewrite Ef; left).
      apply list_elem_of_filter in Hin as [_ Hin]. by destruct na.
    + destruct (IH _ eq_refl k v Hin) as (g & a' & ? & ?).
      exists g, a'. split; [by right|done].
Qed.

Lemma coindexed_of_elem (i : string) (na : loc * Attrib) (nas : list (loc * Attrib)) :
  (i, na) ∈ coindexed_of nas → na ∈ nas.
Proof.
  induction nas as [|na' nas IH]; [intros H; inv H|].
  rewrite coindexed_of_cons. destruct (index na'.2).
  - intros [[= -> ->]|Hin]%elem_of_cons; [left|right; auto].
  - intros Hin. right. auto.
Qed.

Lemma mapM_get_nodes (s : store) (ls : list loc) (las : list (loc * Attrib)) :
  mapM (λ l, a ← get s l; Ok (l, a)) ls = Ok las → map fst las = ls.
Proof.
  revert las. induction ls as [|l ls IH]; intros las H; cbn [mapM] in H.
  - by simplify_eq.
  - destruct (get s l) as [a| | |]; simpl in H; try done.
    destruct (mapM _ ls) as [r| | |] eqn:E; simpl in H; try done.
    simplify_eq. simpl. f_equal. by apply IH.
Qed.

(** The main nodes are nodes of the tree. *)
Lemma find_main_coindex_values (fuel : nat) (s : store) (xtree : loc)
    (nodes : list loc) (all_coind : list (string * list loc))
    (main_coind : list (string * loc)) :
  iter fuel s xtree = Ok nodes →
  find_main_coindex fuel s xtree = Ok (all_coind, main_coind) →
  ∀ i m, dict_get i main_coind = Some m → m ∈ nodes.
Proof.
  intros Hiter H i m Hm. unfold find_main_coindex in H. rewrite Hiter in H. simpl in H.
  bind_inv H. rename a into nas.
  pose proof (mapM_get_nodes _ _ _ E) as Hnodes.
  destruct (coindexed_of nas) as [|c cs] eqn:Ec; [by simplify_eq|].
  rewrite <- Ec in H. clear c cs Ec. bind_inv H. simplify_eq.
  apply dict_get_Some_elem, dict_of_elem in Hm.
  destruct (mapM_pick_main_elem _ _ E0 _ _ Hm) as (g & a' & Hg & Ha').
  apply dict_of_elem in Hg.
  apply list_elem_of_fmap_1 in Hg as ([k g0] & [= -> ->] & Hg0).
  apply list_elem_of_fmap_1 in Ha' as ([j na] & Hna & Hin). simpl in Hna. subst na.
  pose proof (groupby_elem _ _ _ _ Hg0 _ Hin) as Hs.
  apply (proj1 (elem_of_sorted _ _ _ _)) in Hs. apply coindexed_of_elem in Hs.
  by apply (list_elem_of_fmap_2 fst) in Hs.
Qed.

Lemma upd_outside (s s2 s3 : store) (f : Attrib → Attrib) (l : loc) :
  upd f l s2 = Ok s3 → s !! l = None → ∀ k, is_Some (s !! k) → s3 !! k = s2 !! k.
Proof.
  intros Hupd Hl k [e Hk]. eapply upd_other; [done|]. congruence.
Qed.

(** The two loops only write to the nodes they are given. *)
Lemma mark_primary_outside (s s2 s3 : store) (main_coind : list (string * loc))
    (np : loc * option loc) :
  s !! np.1 = None → mark_primary main_coind np s2 = Ok s3 →
  ∀ k, is_Some (s !! k) → s3 !! k = s2 !! k.
Proof.
  destruct np as [node parent]. simpl. intros Hnode H. unfold mark_primary in H.
  destruct (py_in node _); [|by simplify_eq].
  bind_inv H. destruct (rel _); [|done]. by eapply upd_outside.
Qed.

Lemma redirect_outside (s s2 s3 : store) (main_coind : list (string * loc))
    (np : loc * option loc) :
  s !! np.1 = None → (∃ p, np.2 = Some p ∧ s !! p = None) →
  (∀ i m, dict_get i main_coind = Some m → s !! m = None) →
  redirect main_coind np s2 = Ok s3 →
  ∀ k, is_Some (s !! k) → s3 !! k = s2 !! k.
Proof.
  destruct np as [node parent]. simpl. intros Hnode (p & -> & Hp) Hmain H k Hk.
  unfold redirect in H. bind_inv H. destruct (rel _); [|by simplify_eq].
  destruct (index _) as [i|].
  - simpl in H. bind_inv H.
    destruct (dict_get i main_coind) as [m|] eqn:Em; [|done].
    simpl in *. simplify_eq.
    destruct (rel _); [done|]. bind_inv H. simplify_eq.
    rewrite lookup_insert_ne by (destruct Hk; congruence).
    eapply upd_outside; eauto.
  - simpl in H. bind_inv H. by eapply upd_outside.
Qed.

Lemma foldM_outside {A} (s : store) (step : A → store → result store)
    (l : list A) (s2 s3 : store) :
  Forall (λ x, ∀ a b, step x a = Ok b → ∀ k, is_Some (s !! k) → b !! k = a !! k) l →
  foldM step l s2 = Ok s3 → ∀ k, is_Some (s !! k) → s3 !! k = s2 !! k.
Proof.
  intros Hl. revert s2. induction Hl as [|x l Hx _ IH]; intros s2 H k Hk; cbn [foldM] in H.
  - by simplify_eq.
  - bind_inv H. rewrite (IH _ H k Hk). by eapply Hx.
Qed.

(** C8: with [inline=False], [tree_to_dag] returns the root of a deep
    copy of the tree, the result is what the in-place conversion does to
    that copy, and every element of the caller's store is as it was. *)
Theorem tree_to_dag_copy (fuel : nat) (s s' : store) (xtree r : loc) :
  tree_to_dag fuel s xtree false = Ok (s', r) →
  (∃ st, deepcopy fuel xtree (s, ∅) = Ok (r, st)
         ∧ tree_to_dag fuel st.1 r true = Ok (s', r))
  ∧ s !! r = None
  ∧ ∀ l e, s !! l = Some e → s' !! l = Some e.
Proof.
  intros H. unfold tree_to_dag in H.
  destruct (deepcopy fuel xtree (s, ∅)) as [[x' st]| | |] eqn:Ecopy; try done.
  simpl in H.
  destruct (deepcopy_inv _ _ _ _ _ _ (copy_inv_init s) Ecopy) as [(Hold & Hnew & _) Hx'].
  destruct (extract_nodes fuel st.1 x') as [nodes| | |] eqn:Enodes; try done.
  simpl in H.
  destruct (find_main_coindex fuel st.1 x') as [[all_coind main_coind]| | |] eqn:Emain;
    try done.
  simpl in H.
  destruct (foldM (mark_primary main_coind) (tail nodes) st.1) as [s2| | |] eqn:E1;
    try done.
  simpl in H.
  destruct (foldM (redirect main_coind) (tail nodes) s2) as [s3| | |] eqn:E2; try done.
  simpl in H. simplify_eq.
  split; [|split; [done|]].
  - exists st. split; [done|]. unfold tree_to_dag. simpl.
    rewrite Enodes. simpl. rewrite Emain. simpl. rewrite E1. simpl. by rewrite E2.
  - intros l e Hl.
    unfold extract_nodes in Enodes. bind_inv Enodes. simplify_eq. simpl in *.
    assert (Hrest : Forall (λ np : loc * option loc,
                       s !! np.1 = None ∧ ∃ p, np.2 = Some p ∧ s !! p = None) a).
    { eapply extract_level_outside; [exact Hnew| |done]. by constructor. }
    assert (Hmain : ∀ i m, dict_get i main_coind = Some m → s !! m = None).
    { intros i m Hm.
      assert (Hiter : ∃ nodes, iter fuel st.1 r = Ok nodes).
      { unfold find_main_coindex in Emain.
        destruct (iter fuel st.1 r); try done. eauto. }
      destruct Hiter as [nodes Hiter].
      pose proof (find_main_coindex_values _ _ _ _ _ _ Hiter Emain i m Hm) as Hin.
      pose proof (iter_outside _ _ _ _ _ Hnew Hx' Hiter) as Hout.
      by apply (proj1 (Forall_forall _ _) Hout). }
    assert (H2 : ∀ k, is_Some (s !! k) → s' !! k = s2 !! k).
    { eapply foldM_outside; [|exact E2]. eapply Forall_impl; [exact Hrest|].
      intros np [Hn Hp] ? ?. by apply redirect_outside. }
    assert (H1 : ∀ k, is_Some (s !! k) → s2 !! k = st.1 !! k).
    { eapply foldM_outside; [|exact E1]. eapply Forall_impl; [exact Hrest|].
      intros np [Hn _] ? ?. by apply mark_primary_outside. }
    rewrite H2, H1 by eauto. by apply Hold.
Qed.

End TreeToDag.

(** The coindex sample: the duplicate is removed from the copy, and the
    caller's three elements are untouched. *)
Lemma tree_to_dag_copy_witness :
  ∃ s' r,
    Lassy.tree_to_dag 3 Samples.coindex_store 1%positive false = Ok (s', r)
    ∧ (children <$> s' !! r) = Some [4%positive]
    ∧ Samples.coindex_store !! r = None
    ∧ ∀ l e, Samples.coindex_store !! l = Some e → s' !! l = Some e.
Proof.
  eexists _, _. split; [vm_compute; reflexivity|]. split; [vm_compute; reflexivity|].
  eapply (tree_to_dag_copy 3 Samples.coindex_store _ 1%positive _).
  vm_compute. reflexivity.
Defined.

(** With [inline=True] the caller's tree itself is converted. *)
Example tree_to_dag_inline :
  ∃ s', Lassy.tree_to_dag 3 Samples.coindex_store 1%positive true = Ok (s', 1%positive)
        ∧ (children <$> s' !! 1%positive) = Some [2%positive]
        ∧ (children <$> Samples.coindex_store !! 1%positive) = Some [2%positive; 3%positive].
Proof. eexists. split; [vm_compute; reflexivity|]. split; vm_compute; reflexivity. Qed.

(** ** recursive_assignment *)

(** C2, as stated, fails, in three ways. The coordination sample has two
    coordinators: [choose_head] takes the first in the child list, so the
    two orders of the child list give the two words different types. In
    the tie sample the three type keys of the children have one vote
    each: the vote goes to the key that the iteration over the set
    meets first, so two runs on the same dictionary that iterate over
    the set in two orders give the coordinator different types. The
    twin sample lists a child twice: the two edges have the same
    (begin, end, id) key, the stable sorts leave them in the order of the
    list, and the head gets its argument colours in that order. *)
Lemma recursive_assignment_depends_on_order :
  (∃ lex1 lex2,
    Decompose.recursive_assignment remove_dups (Decompose.init (λ w, w) "|") 2
      Samples.zowel_als_store Samples.zowel_als_grouped 1%positive None ∅ = Ok lex1
    ∧ Decompose.recursive_assignment remove_dups (Decompose.init (λ w, w) "|") 2
        Samples.zowel_als_store Samples.als_zowel_grouped 1%positive None ∅ = Ok lex2
    ∧ Samples.zowel_als_grouped.*1 = Samples.als_zowel_grouped.*1
    ∧ Forall2 (λ kv1 kv2, kv1.2 ≡ₚ kv2.2) Samples.zowel_als_grouped Samples.als_zowel_grouped
    ∧ lex1 !! "zowel|2" = Some (TFunctor [TAtom "NP"; TAtom "NP"; TAtom "NP"; TAtom "VG"]
                                  (TFunctor [] (TAtom "NP") [] false)
                                  ["cnj"; "cnj"; "cnj"; "crd"] false)
    ∧ lex2 !! "zowel|2" = Some (TFunctor [] (TAtom "VG") [] false)
    ∧ lex1 ≠ lex2
    ∧ Decompose.no_ties remove_dups Samples.zowel_als_store Samples.zowel_als_grouped
    ∧ Forall (λ kv : option loc * list (loc * Rel),
                NoDup (map (Decompose.edge_key Samples.zowel_als_store) kv.2))
        Samples.zowel_als_grouped)
  ∧ (∃ lex1 lex2,
      set_order (remove_dups (A := string)) ∧ set_order (starting_with "verb")
      ∧ Decompose.recursive_assignment remove_dups (Decompose.init (λ w, w) "|") 2
          Samples.tie_store Samples.tie_grouped 1%positive None ∅ = Ok lex1
      ∧ Decompose.recursive_assignment (starting_with "verb") (Decompose.init (λ w, w) "|") 2
          Samples.tie_store Samples.tie_grouped 1%positive None ∅ = Ok lex2
      ∧ lex1 !! "en|3" = Some (TFunctor [TAtom "NP"; TAtom "VERB"]
                                 (TFunctor [] (TAtom "NP") [] false) ["cnj"; "cnj"] false)
      ∧ lex2 !! "en|3" = Some (TFunctor [TAtom "NP"; TAtom "VERB"]
                                 (TFunctor [] (TAtom "VERB") [] false) ["cnj"; "cnj"] false)
      ∧ lex1 ≠ lex2
      ∧ Decompose.reordered (Decompose.init (TA := Ty_algebra) (λ w, w) "|")
          Samples.tie_store Samples.tie_grouped Samples.tie_grouped)
  ∧ (∃ lex1 lex2,
      Decompose.recursive_assignment remove_dups (Decompose.init (λ w, w) "|") 2
        Samples.twin_store Samples.twin_grouped 1%positive None ∅ = Ok lex1
      ∧ Decompose.recursive_assignment remove_dups (Decompose.init (λ w, w) "|") 2
          Samples.twin_store Samples.twin_swapped 1%positive None ∅ = Ok lex2
      ∧ Samples.twin_grouped.*1 = Samples.twin_swapped.*1
      ∧ Forall2 (λ kv1 kv2, kv1.2 ≡ₚ kv2.2) Samples.twin_grouped Samples.twin_swapped
      ∧ Forall2 (λ kv1 kv2, Decompose.choose_head (Decompose.init (TA := Ty_algebra) (λ w, w) "|")
                              kv1.2
                            = Decompose.choose_head (Decompose.init (λ w, w) "|") kv2.2)
          Samples.twin_grouped Samples.twin_swapped
      ∧ lex1 !! "huis|2" = Some (TFunctor [TAtom "DET"; TAtom "DET"]
                                   (TFunctor [] (TAtom "NP") [] false) ["det"; "mod"] false)
      ∧ lex2 !! "huis|2" = Some (TFunctor [TAtom "DET"; TAtom "DET"]
                                   (TFunctor [] (TAtom "NP") [] false) ["mod"; "det"] false)
      ∧ lex1 ≠ lex2
      ∧ Decompose.no_ties remove_dups Samples.twin_store Samples.twin_grouped).
Proof.
  split; [|split].
  - assert (H : { p : gmap string Ty * gmap string Ty |
        Decompose.recursive_assignment remove_dups (Decompose.init (λ w, w) "|") 2
          Samples.zowel_als_store Samples.zowel_als_grouped 1%positive None ∅ = Ok p.1
        ∧ Decompose.recursive_assignment remove_dups (Decompose.init (λ w, w) "|") 2
            Samples.zowel_als_store Samples.als_zowel_grouped 1%positive None ∅ = Ok p.2
        ∧ p.1 !! "zowel|2" = Some (TFunctor [TAtom "NP"; TAtom "NP"; TAtom "NP"; TAtom "VG"]
                                     (TFunctor [] (TAtom "NP") [] false)
                                     ["cnj"; "cnj"; "cnj"; "crd"] false)
        ∧ p.2 !! "zowel|2" = Some (TFunctor [] (TAtom "VG") [] false) }).
    { eexists (_, _). repeat split; vm_compute; reflexivity. }
    destruct H as [[lex1 lex2] (H1 & H2 & H3 & H4)]. simpl in *.
    exists lex1, lex2. split; [done|]. split; [done|]. split; [reflexivity|]. split.
    { constructor; [|constructor]. simpl. solve_Permutation. }
    split; [done|]. split; [done|].
    split; [intros ->; rewrite H3 in H4; discriminate|]. split; [|compute_done].
    intros fuel node a ch tys Ha Hconj Hch Htys.
    simpl in Hch. case_decide; simplify_eq.
    vm_compute in Htys. injection Htys as <-. exists "noun".
    intros k' Hin Hne.
    repeat (apply elem_of_cons in Hin as [->|Hin]; [done || (vm_compute; lia)|]).
    inv Hin.
  - assert (H : { p : gmap string Ty * gmap string Ty |
        Decompose.recursive_assignment remove_dups (Decompose.init (λ w, w) "|") 2
          Samples.tie_store Samples.tie_grouped 1%positive None ∅ = Ok p.1
        ∧ Decompose.recursive_assignment (starting_with "verb") (Decompose.init (λ w, w) "|") 2
            Samples.tie_store Samples.tie_grouped 1%positive None ∅ = Ok p.2
        ∧ p.1 !! "en|3" = Some (TFunctor [TAtom "NP"; TAtom "VERB"]
                                  (TFunctor [] (TAtom "NP") [] false) ["cnj"; "cnj"] false)
        ∧ p.2 !! "en|3" = Some (TFunctor [TAtom "NP"; TAtom "VERB"]
                                  (TFunctor [] (TAtom "VERB") [] false) ["cnj"; "cnj"] false) }).
    { eexists (_, _). repeat split; vm_compute; reflexivity. }
    destruct H as [[lex1 lex2] (H1 & H2 & H3 & H4)]. simpl in *.
    exists lex1, lex2. split; [apply set_order_remove_dups|].
    split; [apply set_order_starting_with|].
    split; [done|]. split; [done|]. split; [done|]. split; [done|].
    split; [intros ->; rewrite H3 in H4; discriminate|].
    intros k l1 Hk. simpl in Hk. case_decide; simplify_eq.
    eexists. split; [reflexivity|]. split; [done|]. split; [done|]. compute_done.
  - assert (H : { p : gmap string Ty * gmap string Ty |
        Decompose.recursive_assignment remove_dups (Decompose.init (λ w, w) "|") 2
          Samples.twin_store Samples.twin_grouped 1%positive None ∅ = Ok p.1
        ∧ Decompose.recursive_assignment remove_dups (Decompose.init (λ w, w) "|") 2
            Samples.twin_store Samples.twin_swapped 1%positive None ∅ = Ok p.2
        ∧ p.1 !! "huis|2" = Some (TFunctor [TAtom "DET"; TAtom "DET"]
                                    (TFunctor [] (TAtom "NP") [] false) ["det"; "mod"] false)
        ∧ p.2 !! "huis|2" = Some (TFunctor [TAtom "DET"; TAtom "DET"]
                                    (TFunctor [] (TAtom "NP") [] false) ["mod"; "det"] false) }).
    { eexists (_, _). repeat split; vm_compute; reflexivity. }
    destruct H as [[lex1 lex2] (H1 & H2 & H3 & H4)]. simpl in *.
    exists lex1, lex2. split; [done|]. split; [done|]. split; [reflexivity|]. split.
    { constructor; [|constructor]. simpl. solve_Permutation. }
    split; [constructor; [vm_compute; reflexivity|constructor]|].
    split; [done|]. split; [done|].
    split; [intros ->; rewrite H3 in H4; discriminate|].
    intros fuel node a ch tys Ha Hconj Hch Htys.
    simpl in Hch. case_decide; simplify_eq. vm_compute in Ha. by simplify_eq.
Qed.

Section MonadLists.
Context {A B : Type}.

Lemma mapM_cons_Ok (f : A → result B) (x : A) (l : list A) (r : list B) :
  mapM f (x :: l) = Ok r ↔ ∃ y r', f x = Ok y ∧ mapM f l = Ok r' ∧ r = y :: r'.
Proof.
  cbn [mapM]. split.
  - intros H. bind_inv H. simplify_eq. eauto.
  - intros (y & r' & -> & Hr & ->). simpl. by rewrite Hr.
Qed.

Lemma mapM_perm_Ok (f : A → result B) (l1 l2 : list A) (r1 : list B) :
  l1 ≡ₚ l2 → mapM f l1 = Ok r1 → ∃ r2, mapM f l2 = Ok r2 ∧ r1 ≡ₚ r2.
Proof.
  intros Hp. revert r1. induction Hp as [|x l1 l2 _ IH|x y l|l1 l2 l3 _ IH1 _ IH2]; intros r1.
  - intros [= <-]. by exists [].
  - intros (y & r' & Hx & Hr & ->)%mapM_cons_Ok.
    destruct (IH _ Hr) as (r2 & Hr2 & Hp2). exists (y :: r2). split.
    + apply mapM_cons_Ok. eauto.
    + by constructor.
  - intros (y' & r' & Hy & (x' & r'' & Hx & Hr & ->)%mapM_cons_Ok & ->)%mapM_cons_Ok.
    exists (x' :: y' :: r''). split; [|apply perm_swap].
    apply mapM_cons_Ok. eexists _, _. split; [done|]. split; [|done].
    apply mapM_cons_Ok. eauto.
  - intros H1. destruct (IH1 _ H1) as (r2 & H2 & Hp2).
    destruct (IH2 _ H2) as (r3 & H3 & Hp3). exists r3. split; [done|]. by etrans.
Qed.

Lemma mapM_ext_Ok (f g : A → result B) (l : list A) (r : list B) :
  (∀ x y, x ∈ l → f x = Ok y → g x = Ok y) → mapM f l = Ok r → mapM g l = Ok r.
Proof.
  revert r. induction l as [|x l IH]; intros r Hfg; [done|].
  intros (y & r' & Hx & Hr & ->)%mapM_cons_Ok. apply mapM_cons_Ok.
  exists y, r'. split; [apply Hfg; [left|done]|]. split; [|done].
  apply IH; [|done]. intros x' y' Hin. apply Hfg. by right.
Qed.

Lemma foldM_ext_Ok (f g : A → B → result B) (l : list A) (a b : B) :
  (∀ x a b, x ∈ l → f x a = Ok b → g x a = Ok b) → foldM f l a = Ok b → foldM g l a = Ok b.
Proof.
  revert a. induction l as [|x l IH]; intros a Hfg; [done|]. cbn [foldM].
  intros H. bind_inv H. rewrite (Hfg x a a0) by (done || left). simpl.
  apply IH; [|done]. intros x' a' b' Hin. apply Hfg. by right.
Qed.

End MonadLists.

Lemma count_perm (c : string) (l1 l2 : list string) : l1 ≡ₚ l2 → count c l1 = count c l2.
Proof. intros Hp. unfold count. by rewrite Hp. Qed.

Lemma sorted_set_iter_order : set_order sorted_set_iter.
Proof.
  intros l. unfold sorted_set_iter. split.
  - rewrite sorted_perm. apply NoDup_remove_dups.
  - intros x. rewrite elem_of_sorted. apply elem_of_remove_dups.
Qed.

Lemma sorted_set_iter_perm (l1 l2 : list string) :
  l1 ≡ₚ l2 → sorted_set_iter l1 = sorted_set_iter l2.
Proof.
  intros Hp. unfold sorted_set_iter. apply sorted_perm_eq.
  - apply String.leb_total.
  - apply string_leb_trans.
  - apply String.leb_antisym.
  - rewrite map_id. apply NoDup_remove_dups.
  - apply NoDup_Permutation; [apply NoDup_remove_dups..|].
    intros x. by rewrite !elem_of_remove_dups, Hp.
Qed.

Section Reordered.
Context `{TA : TypeAlgebra}.
Import Decompose.
Variables it1 it2 : list string → list string.
Hypothesis it1_order : set_order it1.
Hypothesis it2_order : set_order it2.
Variables (self : Decompose) (s : store) (g1 g2 : Grouped).
Hypothesis g_reordered : reordered self s g1 g2.
Hypothesis g_no_ties : no_ties it1 s g1.

Lemma tally_nil (it : list string → list string) :
  set_order it → tally it [] = Raise IndexError.
Proof.
  intros Hit. unfold tally, votes_of. destruct (it []) as [|x r] eqn:E; [done|].
  assert (Hx : x ∈ it []) by (rewrite E; left).
  destruct (Hit []) as [_ Hiff]. apply Hiff in Hx. inv Hx.
Qed.

(** A key with more votes than every other wins the tally, whatever the
    iteration order of the set. *)
Lemma tally_winner (it : list string → list string) (tys : list string) (k : string) :
  set_order it → tys ≠ [] →
  (∀ k', k' ∈ tys → k' ≠ k → (count k' tys < count k tys)%nat) →
  tally it tys = Ok k.
Proof.
  intros Hit Hne Hk. destruct (tally_max it Hit tys Hne) as (km & Hkm & Hin & Hmax).
  destruct (decide (km = k)) as [->|Hneq]; [done|].
  specialize (Hk km Hin Hneq). specialize (Hmax k). lia.
Qed.

Lemma get_type_key_with_ext (vote1 vote2 : loc → result string) (node : loc) (k : string) :
  (∀ a k, get s node = Ok a → cat a = Some "conj" → vote1 node = Ok k → vote2 node = Ok k) →
  get_type_key_with vote1 s node = Ok k → get_type_key_with vote2 s node = Ok k.
Proof.
  intros Hv. unfold get_type_key_with. destruct (get s node) as [a| | |] eqn:Ea; simpl; try done.
  destruct (cat a) as [c|] eqn:Ec; [|done]. case_bool_decide as Hc; [|done].
  subst c. by apply (Hv a).
Qed.

Lemma majority_vote_reordered (fuel : nat) (node : loc) (a : Attrib) (k : string) :
  get s node = Ok a → cat a = Some "conj" →
  majority_vote it1 fuel s g1 node = Ok k →
  majority_vote it2 fuel s g2 node = Ok k.
Proof.
  revert node a k. induction fuel as [|f IH]; intros node a k Ha Hconj; [done|].
  cbn [majority_vote]. unfold children_of. intros H.
  destruct (dict_get (Some node) g1) as [l1|] eqn:E1; [|done]. simpl in H.
  destruct (mapM _ l1) as [tys1| | |] eqn:Etys; simpl in H; try done.
  destruct (g_no_ties f node a l1 tys1 Ha Hconj E1 Etys) as [k0 Hk0].
  assert (Hne1 : tys1 ≠ []) by (intros ->; by rewrite tally_nil in H).
  rewrite (tally_winner it1 tys1 k0 it1_order Hne1 Hk0) in H. injection H as <-.
  destruct (g_reordered _ _ E1) as (l2 & -> & Hp & _). simpl.
  assert (H2 : mapM (λ n : loc * Rel,
                       get_type_key_with (majority_vote it2 f s g2) s n.1) l1 = Ok tys1).
  { eapply mapM_ext_Ok; [|done]. intros x y _. apply get_type_key_with_ext.
    intros a' k'. apply IH. }
  destruct (mapM_perm_Ok _ _ _ _ Hp H2) as (tys2 & -> & Hp2). simpl.
  apply tally_winner; [done| |].
  - intros ->. symmetry in Hp2. apply Permutation_nil in Hp2. done.
  - intros k' Hin Hneq. rewrite <- !(count_perm _ _ _ Hp2). apply Hk0; [|done].
    by rewrite Hp2.
Qed.

Lemma get_plain_type_reordered (fuel : nat) (node : loc) (t : WType) :
  get_plain_type it1 self fuel s g1 node = Ok t →
  get_plain_type it2 self fuel s g2 node = Ok t.
Proof.
  unfold get_plain_type. destruct (get s node) as [a| | |] eqn:Ea; simpl; try done.
  destruct (cat a) as [c|] eqn:Ec; [|done]. case_bool_decide as Hconj; [|done].
  intros Hv. subst c.
  destruct (majority_vote it1 fuel s g1 node) as [v| | |] eqn:Ev; simpl in Hv;
    try done.
  by rewrite (majority_vote_reordered _ _ _ _ Ea Ec Ev).
Qed.

Lemma order_siblings_reordered (l1 l2 r : list (loc * Rel)) (exclude : option loc) :
  l1 ≡ₚ l2 → NoDup (map (edge_key s) l1) →
  order_siblings s l1 exclude = Ok r → order_siblings s l2 exclude = Ok r.
Proof.
  intros Hp Hnd. unfold order_siblings.
  set (f1 := match exclude with
             | Some e => filter (λ x : loc * Rel, x.1 ≠ e) l1
             | None => l1
             end).
  set (f2 := match exclude with
             | Some e => filter (λ x : loc * Rel, x.1 ≠ e) l2
             | None => l2
             end).
  assert (Hpf : f1 ≡ₚ f2) by (unfold f1, f2; destruct exclude; by rewrite Hp).
  assert (Hndf : NoDup (map (edge_key s) f1)).
  { unfold f1. destruct exclude; [|done].
    eapply sublist_NoDup; [exact Hnd|]. apply (fmap_sublist (edge_key s)), sublist_filter. }
  clearbody f1 f2. intros H. bind_inv H. simplify_eq.
  destruct (mapM_perm_Ok _ _ _ _ Hpf E) as (keyed2 & -> & Hpk). simpl.
  do 2 f_equal. symmetry. apply sorted_perm_eq; try done.
  - apply triple_leb_total.
  - apply triple_leb_trans.
  - apply triple_leb_antisym.
  - apply (NoDup_fmap_1 Some).
    enough (Hk : map Some (map fst a) = map (edge_key s) f1)
      by (change (NoDup (map Some (map fst a))); by rewrite Hk).
    clear -E. revert a E. induction f1 as [|x l IH]; intros keyed.
    + by intros [= <-].
    + intros (y & r' & Hx & Hr & ->)%mapM_cons_Ok. simpl. rewrite (IH _ Hr). f_equal.
      unfold edge_key. unfold get in Hx. destruct (s !! x.1); simpl in *; by simplify_eq.
Qed.

Lemma arglist_reordered (fuel : nat) (siblings : list (loc * Rel))
    (arglist : list (WType * string)) :
  mapM (λ sr : loc * Rel,
          t ← get_plain_type it1 self fuel s g1 sr.1; Ok (t, get_rel sr.2)) siblings
    = Ok arglist →
  mapM (λ sr : loc * Rel,
          t ← get_plain_type it2 self fuel s g2 sr.1; Ok (t, get_rel sr.2)) siblings
    = Ok arglist.
Proof.
  apply mapM_ext_Ok. intros sr y _ Hy.
  destruct (get_plain_type it1 self fuel s g1 sr.1) as [t| | |] eqn:Et;
    simpl in Hy; try done.
  by rewrite (get_plain_type_reordered _ _ _ Et).
Qed.

Lemma recursive_assignment_reordered (fuel : nat) (current : loc)
    (top_type : option WType) (lexicon lexicon' : gmap string WType) :
  recursive_assignment it1 self fuel s g1 current top_type lexicon = Ok lexicon' →
  recursive_assignment it2 self fuel s g2 current top_type lexicon = Ok lexicon'.
Proof.
  revert current top_type lexicon lexicon'.
  induction fuel as [|f IH]; intros current top_type lexicon lexicon'; [done|].
  cbn [recursive_assignment]. unfold children_of. intros H.
  destruct (dict_get (Some current) g1) as [l1|] eqn:E1; [|done]. simpl in H.
  destruct (g_reordered _ _ E1) as (l2 & -> & Hp & Hhead & Hnd). simpl.
  rewrite <- Hhead.
  destruct (choose_head self l1) as [[headchild headrel]| | |]; simpl in *; try done.
  assert (Htop : ∀ t,
            match top_type with
            | Some t => Ok t
            | None => t ← get_plain_type it1 self f s g1 current; Ok (word_type t false)
            end = Ok t →
            match top_type with
            | Some t => Ok t
            | None => t ← get_plain_type it2 self f s g2 current; Ok (word_type t false)
            end = Ok t).
  { intros t. destruct top_type; [done|]. intros Ht.
    destruct (get_plain_type it1 self f s g1 current) as [t'| | |] eqn:Et;
      simpl in Ht; try done.
    by rewrite (get_plain_type_reordered _ _ _ Et). }
  destruct (match top_type with Some t => Ok t | None => _ end) as [top| | |] eqn:Etop;
    simpl in H; try done.
  rewrite (Htop _ eq_refl). simpl. clear Htop.
  destruct (order_siblings s l1 headchild) as [siblings| | |] eqn:Es; simpl in H; try done.
  rewrite (order_siblings_reordered _ _ _ _ Hp Hnd Es). simpl.
  match type of H with
  | (?m ≫= _) = Ok _ => destruct m as [lexh| | |] eqn:Eh; simpl in H; try done
  end.
  match goal with
  | |- (?m ≫= _) = Ok _ => assert (Hh : m = Ok lexh)
  end.
  { destruct headchild as [hc|]; [|done].
    match type of Eh with
    | (?m ≫= _) = Ok _ => destruct m as [arglist| | |] eqn:Ea; simpl in Eh; try done
    end.
    rewrite (arglist_reordered _ _ _ Ea). simpl.
    destruct (get s hc) as [ha| | |]; simpl in *; try done.
    destruct (is_leaf ha); [done|]. by apply IH. }
  rewrite Hh. simpl. eapply foldM_ext_Ok; [|exact H].
  intros sr lex lex' _. simpl.
  destruct (get s sr.1) as [sa| | |]; simpl; try done.
  destruct (is_leaf sa).
  - intros Hs.
    destruct (get_plain_type it1 self f s g1 sr.1) as [plain| | |] eqn:Et;
      simpl in Hs; try done.
    by rewrite (get_plain_type_reordered _ _ _ Et).
  - destruct (is_gap sr.2); [done|]. apply IH.
Qed.

End Reordered.

(** C2, amended: when type assignment succeeds on an adjacency
    dictionary, it succeeds with the same lexicon on a dictionary whose
    child lists are in another order, whatever the orders in which the
    two runs iterate over a set of type keys, provided that [choose_head]
    finds the same head in both orders of each child list, that the
    children of a node differ in their (begin, end, id) keys, and that no
    majority vote is tied. *)
Theorem recursive_assignment_order_independent `{TA : TypeAlgebra}
    (it1 it2 : list string → list string) (self : Decompose.Decompose)
    (s : store) (g1 g2 : Grouped) (fuel : nat) (current : loc)
    (top_type : option WType) (lexicon lexicon' : gmap string WType) :
  set_order it1 → set_order it2 →
  Decompose.reordered self s g1 g2 →
  Decompose.no_ties it1 s g1 →
  Decompose.recursive_assignment it1 self fuel s g1 current top_type lexicon
    = Ok lexicon' →
  Decompose.recursive_assignment it2 self fuel s g2 current top_type lexicon
    = Ok lexicon'.
Proof.
  intros Hit1 Hit2 Hre Hties. by apply recursive_assignment_reordered.
Qed.

(** The coordination sample with its conjuncts shuffled and the two
    coordinators in their order, under two iteration orders: three of
    the five votes go to [noun]. *)
Lemma recursive_assignment_order_independent_witness :
  ∃ lexicon',
    Decompose.recursive_assignment remove_dups (Decompose.init (λ w, w) "|") 2
      Samples.zowel_als_store Samples.zowel_als_grouped 1%positive None ∅ = Ok lexicon'
    ∧ Decompose.recursive_assignment sorted_set_iter (Decompose.init (λ w, w) "|") 2
        Samples.zowel_als_store Samples.zowel_als_shuffled 1%positive None ∅ = Ok lexicon'.
Proof.
  eexists. split; [vm_compute; reflexivity|].
  apply (recursive_assignment_order_independent (TA := Ty_algebra) remove_dups sorted_set_iter
           (Decompose.init (λ w, w) "|") Samples.zowel_als_store
           Samples.zowel_als_grouped Samples.zowel_als_shuffled).
  - apply set_order_remove_dups.
  - apply sorted_set_iter_order.
  - intros k l1 Hk. simpl in Hk. case_decide; simplify_eq.
    eexists. split; [reflexivity|]. split; [solve_Permutation|].
    split; [vm_compute; reflexivity|]. compute_done.
  - intros fuel node a ch tys Ha Hconj Hch Htys.
    simpl in Hch. case_decide; simplify_eq.
    vm_compute in Htys. injection Htys as <-. exists "noun".
    intros k' Hin Hne.
    repeat (apply elem_of_cons in Hin as [->|Hin]; [done || (vm_compute; lia)|]).
    inv Hin.
  - vm_compute. reflexivity.
Defined.

(** * Further properties *)

(** ** Removal from a list *)

Section PyRemove.
Context {A : Type} `{EqDecision A}.

Lemma py_remove_Some (x : A) (l l' : list A) :
  py_remove x l = Some l' → l ≡ₚ x :: l' ∧ l' `sublist_of` l.
Proof.
  revert l'. induction l as [|y l IH]; intros l'; simpl; [done|].
  case_decide as Hy.
  - intros [= <-]. subst y. split; [done|]. by apply sublist_cons.
  - destruct (py_remove x l) as [l1|]; [|done]. simpl. intros [= <-].
    destruct (IH _ eq_refl) as [Hp Hs]. split.
    + rewrite Hp. apply perm_swap.
    + by apply sublist_skip.
Qed.

Lemma py_remove_elem (x : A) (l : list A) : x ∈ l → is_Some (py_remove x l).
Proof.
  induction l as [|y l IH]; [intros H; inv H|]. simpl. case_decide; [eauto|].
  intros [->|Hin]%elem_of_cons; [done|]. destruct (IH Hin) as [l' ->]. simpl. eauto.
Qed.

Lemma py_remove_app (x : A) (pre l : list A) :
  x ∉ pre → py_remove x (pre ++ x :: l) = Some (pre ++ l).
Proof.
  induction pre as [|y pre IH]; simpl.
  - by rewrite decide_True.
  - intros [Hne Hpre]%not_elem_of_cons. rewrite decide_False by done.
    by rewrite IH.
Qed.

(** Removing, one after the other, the elements that satisfy [P] leaves
    the others in their order. *)
Lemma remove_filter (P : A → Prop) `{∀ x, Decision (P x)} (e : exn) (l : list A) :
  foldM (λ c l, of_option e (py_remove c l)) (filter P l) l = Ok (filter (λ x, ¬ P x) l).
Proof.
  enough (Hgen : ∀ pre, Forall (λ x, ¬ P x) pre →
            foldM (λ c l, of_option e (py_remove c l)) (filter P l) (pre ++ l)
            = Ok (pre ++ filter (λ x, ¬ P x) l)) by apply (Hgen [] (Forall_nil_2 _)).
  induction l as [|x l IH]; intros pre Hpre.
  - done.
  - rewrite !filter_cons. destruct (decide (P x)) as [Hx|Hx].
    + rewrite decide_False by tauto. cbn [foldM]. rewrite py_remove_app.
      * simpl. by apply IH.
      * intros Hin. by apply (proj1 (Forall_forall _ _) Hpre x).
    + rewrite decide_True by done.
      rewrite (cons_middle x pre l), (cons_middle x pre (filter _ l)), !app_assoc.
      apply IH. apply Forall_app. split; [done|]. by constructor.
Qed.

Lemma py_remove_filter (P : A → Prop) `{∀ x, Decision (P x)} (x : A) (l l' : list A) :
  py_remove x l = Some l' → ¬ P x → filter P l' = filter P l.
Proof.
  revert l'. induction l as [|y l IH]; intros l'; simpl; [done|].
  case_decide as Hy.
  - intros [= <-] Hx. subst y. by rewrite filter_cons, decide_False.
  - destruct (py_remove x l) as [l1|]; [|done]. simpl. intros [= <-] Hx.
    rewrite !filter_cons. by rewrite (IH _ eq_refl Hx).
Qed.

End PyRemove.

(** ** Loops that change the list they iterate over *)

Section ForMut.
Context {A St : Type} (body : A → St * list A → result (St * list A)).

(** What the body keeps of the state and the list, the loop keeps. *)
Lemma for_mut_invariant (P : St * list A → Prop) (fuel idx : nat) (st st' : St * list A) :
  (∀ x st st', P st → x ∈ st.2 → body x st = Ok st' → P st') →
  P st → for_mut body fuel idx st = Ok st' → P st'.
Proof.
  intros Hbody. revert idx st. induction fuel as [|f IH]; intros idx st HP; simpl.
  - destruct (st.2 !! idx); [done|]. by intros [= <-].
  - destruct (st.2 !! idx) as [x|] eqn:Ex; [|by intros [= <-]].
    intros H. bind_inv H. eapply IH; [|done].
    eapply Hbody; [done| |done]. by eapply list_elem_of_lookup_2.
Qed.

(** A body that returns and does not lengthen the list: the loop returns
    within as many steps as the list is long. *)
Lemma for_mut_returns (fuel idx : nat) (st : St * list A) :
  (∀ x st, x ∈ st.2 → ∃ st', body x st = Ok st' ∧ (length st'.2 ≤ length st.2)%nat) →
  (length st.2 ≤ fuel + idx)%nat →
  ∃ st', for_mut body fuel idx st = Ok st'.
Proof.
  intros Hbody. revert idx st. induction fuel as [|f IH]; intros idx st Hlen; simpl.
  - rewrite lookup_ge_None_2 by lia. eauto.
  - destruct (st.2 !! idx) as [x|] eqn:Ex; [|eauto].
    destruct (Hbody x st) as (st1 & -> & Hle); [by eapply list_elem_of_lookup_2|].
    simpl. apply IH. lia.
Qed.

End ForMut.

(** ** More on the result monad *)

Section MonadMore.
Context {A B : Type}.

Lemma mapM_Forall2 (f : A → result B) (l : list A) (r : list B) :
  mapM f l = Ok r → Forall2 (λ x y, f x = Ok y) l r.
Proof.
  revert r. induction l as [|x l IH]; intros r.
  - intros [= <-]. constructor.
  - intros (y & r' & Hx & Hr & ->)%mapM_cons_Ok. constructor; auto.
Qed.

Lemma mapM_returns (f : A → result B) (l : list A) :
  Forall (λ x, ∃ y, f x = Ok y) l → ∃ r, mapM f l = Ok r.
Proof.
  induction 1 as [|x l [y Hy] _ [r Hr]]; [by exists []|].
  exists (y :: r). apply mapM_cons_Ok. eauto.
Qed.

Lemma filterM_filter (p : A → result bool) (q : A → bool) (l r : list A) :
  Forall (λ x, ∀ b, p x = Ok b → b = q x) l →
  filterM p l = Ok r → r = filter (λ x, q x = true) l.
Proof.
  intros Hl. revert r. induction Hl as [|x l Hx _ IH]; intros r; cbn [filterM].
  - by intros [= <-].
  - intros H. bind_inv H. simplify_eq. rewrite filter_cons, (IH _ eq_refl).
    rewrite (Hx _ eq_refl). by destruct (q x).
Qed.

Lemma filterM_returns (p : A → result bool) (l : list A) :
  Forall (λ x, ∃ b, p x = Ok b) l → ∃ r, filterM p l = Ok r.
Proof.
  induction 1 as [|x l [b Hb] _ [r Hr]]; [by exists []|].
  cbn [filterM]. rewrite Hb, Hr. simpl. eauto.
Qed.

End MonadMore.

(** ** split_dag: what it removes and what it keeps *)

Section SplitDag.
Import Decompose.

Lemma dict_del_sublist {K V} `{EqDecision K} (k : K) (d d' : list (K * V)) :
  dict_del k d = Some d' → d' `sublist_of` d.
Proof.
  revert d'. induction d as [|[k0 v0] d IH]; intros d'; simpl; [done|].
  case_decide.
  - intros [= <-]. by apply sublist_cons.
  - destruct (dict_del k d) as [d1|]; [|done]. simpl. intros [= <-].
    apply sublist_skip. by apply IH.
Qed.

Lemma del_keys_sublist (keys : list (option loc)) (g g' : Grouped) :
  del_keys keys g = Ok g' → g' `sublist_of` g.
Proof.
  unfold del_keys. revert g. induction keys as [|k keys IH]; intros g; cbn [foldM].
  - by intros [= <-].
  - intros H. bind_inv H. destruct (dict_del k g) as [g1|] eqn:Ed; simplify_eq/=.
    etrans; [by apply IH|]. by eapply dict_del_sublist.
Qed.

Lemma drop_edges_to_sublist (empty_keys : list (option loc)) (ch ch' : list (loc * Rel)) :
  drop_edges_to empty_keys ch = Ok ch' → ch' `sublist_of` ch.
Proof.
  unfold drop_edges_to. intros H. bind_inv H. simplify_eq.
  refine (for_mut_invariant _ (λ st, st.2 `sublist_of` ch) _ _ _ _ _ _ E);
    [|simpl; reflexivity].
  simpl. intros x st st' Hst _ Hbody. destruct (py_in _ _); [|by simplify_eq].
  destruct (py_remove x st.2) as [l|] eqn:El; simplify_eq/=.
  etrans; [|done]. by apply py_remove_Some in El as [_ ?].
Qed.

Lemma thinned_refl (g : Grouped) : thinned g g.
Proof. intros key ch Hin. by exists ch. Qed.

Lemma thinned_trans (g1 g2 g3 : Grouped) : thinned g1 g2 → thinned g2 g3 → thinned g1 g3.
Proof.
  intros H12 H23 key ch3 Hin. destruct (H23 _ _ Hin) as (ch2 & Hin2 & Hs2).
  destruct (H12 _ _ Hin2) as (ch1 & Hin1 & Hs1). exists ch1. split; [done|]. by etrans.
Qed.

Lemma thinned_keys (g g' : Grouped) (key : option loc) :
  thinned g g' → key ∈ map fst g' → key ∈ map fst g.
Proof.
  intros Hth ([k ch'] & -> & Hin)%list_elem_of_fmap_1.
  destruct (Hth _ _ Hin) as (ch & Hin' & _). by apply (list_elem_of_fmap_2' fst _ (k, ch)).
Qed.

Lemma cascade_thinned (fuel : nat) (g g' : Grouped) :
  cascade fuel g = Ok g' → thinned g g'.
Proof.
  revert g. induction fuel as [|f IH]; intros g; cbn [cascade].
  - destruct (empty_keys_of g); [|done]. intros [= <-]. apply thinned_refl.
  - destruct (empty_keys_of g) as [|k ks] eqn:Ek; [intros [= <-]; apply thinned_refl|].
    intros H. rewrite <- Ek in H. clear k ks Ek.
    destruct (del_keys (empty_keys_of g) g) as [ga| | |] eqn:Ea; simpl in H; try done.
    destruct (mapM _ ga) as [gb| | |] eqn:Eb; simpl in H; try done.
    eapply thinned_trans; [|by apply IH].
    intros key ch' Hin. apply mapM_Forall2 in Eb.
    destruct (proj1 (list_elem_of_lookup _ _) Hin) as [i Hi].
    destruct (Forall2_lookup_r _ _ _ _ _ Eb Hi) as ([k ch] & Hk & Hf).
    simpl in Hf. destruct (drop_edges_to _ ch) as [ch1| | |] eqn:Ed; simplify_eq/=.
    exists ch. split; [|by eapply drop_edges_to_sublist].
    eapply elem_of_sublist; [by eapply list_elem_of_lookup_2|by eapply del_keys_sublist].
Qed.

Lemma keys_to_remove_filter (s : store) (cats : list string) (keys r : list (option loc)) :
  filterM (λ key : option loc,
             match key with
             | None => Ok false
             | Some k =>
                 a ← get s k;
                 Ok (match cat a with Some c => py_in c cats | None => false end)
             end) keys = Ok r →
  r = filter (λ key, has_cat_in s cats key = true) keys.
Proof.
  apply filterM_filter. apply Forall_forall. intros [k|] _ b; simpl; [|by intros [= <-]].
  unfold get. destruct (s !! k); simpl; [by intros [= <-]|done].
Qed.

(** The edges that the two filters of [split_dag] drop. *)
Lemma filtered_edges (keys_to_remove : list (option loc)) (rels : list string)
    (g g1 : Grouped) :
  mapM (λ kv : option loc * list (loc * Rel),
          let children_to_remove :=
            filter (λ cr : loc * Rel,
                      py_in (Some cr.1) keys_to_remove = true
                      ∨ py_in (get_rel cr.2) rels = true) kv.2 in
          ch ← foldM (λ c l, of_option remove_error (py_remove c l))
                 children_to_remove kv.2;
          Ok (kv.1, ch)) g = Ok g1 →
  g1 = map (λ kv : option loc * list (loc * Rel),
              (kv.1, filter (λ cr : loc * Rel,
                               ¬ (py_in (Some cr.1) keys_to_remove = true
                                  ∨ py_in (get_rel cr.2) rels = true)) kv.2)) g.
Proof.
  revert g1. induction g as [|kv g IH]; intros g1.
  - by intros [= <-].
  - intros (y & r' & Hy & Hr & ->)%mapM_cons_Ok. simpl. rewrite <- (IH _ Hr). f_equal.
    simpl in Hy. rewrite remove_filter in Hy. simpl in Hy. by simplify_eq.
Qed.

Lemma split_dag_inv (s : store) (grouped grouped' : Grouped)
    (cats_to_remove rels_to_remove : list string) :
  NoDup (map fst grouped) →
  split_dag s grouped cats_to_remove rels_to_remove = Ok grouped' →
  thinned grouped grouped'
  ∧ (∀ key, key ∈ map fst grouped' → has_cat_in s cats_to_remove key = false)
  ∧ (∀ key ch c r, (key, ch) ∈ grouped' → (c, r) ∈ ch →
       (has_cat_in s cats_to_remove (Some c) = true → Some c ∉ map fst grouped)
       ∧ get_rel r ∉ rels_to_remove)
  ∧ (∀ key ch, (key, ch) ∈ grouped' → ch ≠ []).
Proof.
  intros Hnd H. pose proof (split_dag_no_empty_key _ _ _ _ _ H) as Hne.
  unfold split_dag in H.
  destruct (filterM _ (map fst grouped)) as [ktr| | |] eqn:Ek; simpl in H; try done.
  apply keys_to_remove_filter in Ek.
  destruct (del_keys ktr grouped) as [g0| | |] eqn:E0; simpl in H; try done.
  destruct (mapM _ g0) as [g1| | |] eqn:E1; simpl in H; try done.
  apply filtered_edges in E1. apply (cascade_thinned (S (length g1))) in H.
  assert (H01 : thinned g0 g1).
  { intros key ch' Hin. rewrite E1 in Hin.
    apply list_elem_of_fmap_1 in Hin as ([k ch] & [= -> ->] & Hin).
    exists ch. split; [done|]. apply sublist_filter. }
  assert (H0 : thinned grouped g0).
  { intros key ch Hin. exists ch. split; [|done].
    eapply elem_of_sublist; [done|]. by eapply del_keys_sublist. }
  split; [|split; [|split; [|done]]].
  - eapply thinned_trans; [|done]. by eapply thinned_trans.
  - intros key Hkey. apply (thinned_keys _ _ _ H), (thinned_keys _ _ _ H01) in Hkey.
    destruct (del_keys_keys _ _ _ E0 Hnd key Hkey) as [Hin Hnot].
    destruct (has_cat_in s cats_to_remove key) eqn:Ec; [|done].
    exfalso. apply Hnot. rewrite Ek. by apply list_elem_of_filter.
  - intros key ch c r Hin Hc. destruct (H _ _ Hin) as (ch1 & Hin1 & Hs).
    assert (Hc1 : (c, r) ∈ ch1) by (by eapply elem_of_sublist).
    rewrite E1 in Hin1. apply list_elem_of_fmap_1 in Hin1 as ([k ch0] & [= -> ->] & Hin0).
    apply list_elem_of_filter in Hc1 as [Hbad _]. simpl in Hbad. split.
    + intros Hcat Hkey. apply Hbad. left. unfold py_in. apply bool_decide_eq_true.
      rewrite Ek. by apply list_elem_of_filter.
    + intros Hrel. apply Hbad. right. unfold py_in. by apply bool_decide_eq_true.
Qed.

(** The category and relation filters of [split_dag], and what the
    cascade adds: the result has none of the keys with a category to
    remove, no edge to such a key, no edge with a relation to remove, and
    no empty child list; its keys are keys of the input and its child
    lists are child lists of the input with edges left out. *)
Theorem split_dag_filters (s : store) (grouped grouped' : Grouped)
    (cats_to_remove rels_to_remove : list string) :
  NoDup (map fst grouped) →
  split_dag s grouped cats_to_remove rels_to_remove = Ok grouped' →
  thinned grouped grouped'
  ∧ (∀ key, key ∈ map fst grouped' → has_cat_in s cats_to_remove key = false)
  ∧ (∀ key ch c r, (key, ch) ∈ grouped' → (c, r) ∈ ch →
       (has_cat_in s cats_to_remove (Some c) = true → Some c ∉ map fst grouped)
       ∧ get_rel r ∉ rels_to_remove)
  ∧ (∀ key ch, (key, ch) ∈ grouped' → ch ≠ []).
Proof. apply split_dag_inv. Qed.

Lemma dict_del_returns {K V} `{EqDecision K} (k : K) (d : list (K * V)) :
  k ∈ map fst d → ∃ d', dict_del k d = Some d' ∧ length d = S (length d').
Proof.
  induction d as [|[k0 v0] d IH]; [intros H; inv H|]. simpl. case_decide; [eauto|].
  intros [->|Hin]%elem_of_cons; [done|]. destruct (IH Hin) as (d' & -> & Hlen).
  simpl. eexists. split; [done|]. simpl. by rewrite Hlen.
Qed.

Lemma del_keys_returns (keys : list (option loc)) (g : Grouped) :
  NoDup keys → (∀ k, k ∈ keys → k ∈ map fst g) → NoDup (map fst g) →
  ∃ g', del_keys keys g = Ok g' ∧ (length g' + length keys = length g)%nat.
Proof.
  unfold del_keys. intros Hks. revert g. induction Hks as [|k keys Hk _ IH]; intros g Hin Hnd.
  - exists g. split; [done|]. simpl. lia.
  - destruct (dict_del_returns k g) as (g1 & Hdel & Hlen); [apply Hin; left|].
    destruct (dict_del_keys _ _ _ Hdel Hnd) as [Hnd1 Hiff].
    destruct (IH g1) as (g' & Hg' & Hlen'); [|done|].
    + intros k' Hk'. apply Hiff. split; [apply Hin; by right|]. by intros ->.
    + exists g'. cbn [foldM]. rewrite Hdel. simpl. split; [done|]. simpl. lia.
Qed.

Lemma drop_edges_to_returns (empty_keys : list (option loc)) (ch : list (loc * Rel)) :
  ∃ ch', drop_edges_to empty_keys ch = Ok ch'.
Proof.
  unfold drop_edges_to.
  destruct (for_mut_returns
              (λ (cr : loc * Rel) (st : () * list (loc * Rel)),
                 if py_in (Some cr.1) empty_keys
                 then l ← of_option remove_error (py_remove cr st.2); Ok ((), l)
                 else Ok st) (length ch) 0 ((), ch)) as [st' ->]; [|simpl; lia|by eauto].
  intros x st Hx. destruct (py_in _ _); [|by eauto].
  destruct (py_remove_elem x st.2 Hx) as [l Hl]. rewrite Hl. simpl.
  eexists. split; [done|]. simpl. apply py_remove_Some in Hl as [Hp _].
  rewrite Hp. simpl. lia.
Qed.

Lemma empty_keys_of_keys (g : Grouped) :
  empty_keys_of g `sublist_of` map fst g.
Proof. unfold empty_keys_of. apply (fmap_sublist fst), sublist_filter. Qed.

(** The [while] loop of [split_dag] ends: each round deletes a key. *)
Lemma cascade_returns (fuel : nat) (g : Grouped) :
  NoDup (map fst g) → (length g < fuel)%nat → ∃ g', cascade fuel g = Ok g'.
Proof.
  revert g. induction fuel as [|f IH]; intros g Hnd Hlen; [lia|].
  cbn [cascade]. destruct (empty_keys_of g) as [|k ks] eqn:Ek; [eauto|].
  rewrite <- Ek.
  destruct (del_keys_returns (empty_keys_of g) g) as (ga & Ha & Hla); [| |done|].
  { eapply sublist_NoDup; [exact Hnd|]. apply empty_keys_of_keys. }
  { intros k' Hk'. eapply elem_of_sublist; [done|]. apply empty_keys_of_keys. }
  rewrite Ha. simpl.
  destruct (mapM_returns
              (λ kv : option loc * list (loc * Rel),
                 ch ← drop_edges_to (empty_keys_of g) kv.2; Ok (kv.1, ch)) ga) as [gb Hb].
  { apply Forall_forall. intros kv _.
    destruct (drop_edges_to_returns (empty_keys_of g) kv.2) as [ch' ->]. simpl. eauto. }
  rewrite Hb. simpl. apply mapM_Forall2 in Hb.
  assert (Hkeys : map fst gb = map fst ga).
  { clear -Hb. induction Hb as [|kv kv' ga gb Hkv _ IH]; [done|]. simpl. rewrite IH. f_equal.
    destruct (drop_edges_to _ kv.2); simplify_eq/=. done. }
  apply IH.
  - rewrite Hkeys. eapply sublist_NoDup; [exact Hnd|].
    apply (fmap_sublist fst). by eapply del_keys_sublist.
  - apply (f_equal length) in Hkeys. rewrite !length_map in Hkeys.
    rewrite Ek in Hla. simpl in Hla. lia.
Qed.

(** [split_dag] returns on every dictionary with distinct keys whose
    key nodes exist. *)
Theorem split_dag_returns (s : store) (grouped : Grouped)
    (cats_to_remove rels_to_remove : list string) :
  NoDup (map fst grouped) →
  (∀ k, Some k ∈ map fst grouped → is_Some (s !! k)) →
  ∃ grouped', split_dag s grouped cats_to_remove rels_to_remove = Ok grouped'.
Proof.
  intros Hnd Hstore. unfold split_dag.
  destruct (filterM_returns
              (λ key : option loc,
                 match key with
                 | None => Ok false
                 | Some k =>
                     a ← get s k;
                     Ok (match cat a with Some c => py_in c cats_to_remove | None => false end)
                 end) (map fst grouped)) as [ktr Hk].
  { apply Forall_forall. intros [k|] Hin; [|eauto].
    destruct (Hstore k Hin) as [e He]. unfold get. rewrite He. simpl. eauto. }
  rewrite Hk. simpl. apply keys_to_remove_filter in Hk.
  destruct (del_keys_returns ktr grouped) as (g0 & H0 & _); [| |done|].
  { rewrite Hk. by apply NoDup_filter. }
  { intros k Hin. rewrite Hk in Hin. by apply list_elem_of_filter in Hin as [_ ?]. }
  rewrite H0. simpl.
  set (f := λ kv : option loc * list (loc * Rel),
              let children_to_remove :=
                filter (λ cr : loc * Rel,
                          py_in (Some cr.1) ktr = true
                          ∨ py_in (get_rel cr.2) rels_to_remove = true) kv.2 in
              ch ← foldM (λ c l, of_option remove_error (py_remove c l))
                     children_to_remove kv.2;
              Ok (kv.1, ch)).
  destruct (mapM_returns f g0) as [g1 H1].
  { apply Forall_forall. intros kv _. unfold f. simpl. rewrite remove_filter. simpl. eauto. }
  rewrite H1. change (∃ grouped', cascade (S (length g1)) g1 = Ok grouped').
  apply cascade_returns; [|lia].
  apply filtered_edges in H1. rewrite H1, map_map. simpl.
  eapply sublist_NoDup; [exact Hnd|]. apply (fmap_sublist fst). by eapply del_keys_sublist.
Qed.

End SplitDag.

(** The hollow sample. *)
Lemma split_dag_filters_witness :
  ∃ grouped',
    Decompose.split_dag Samples.hollow_store Samples.hollow_grouped
      Decompose.default_cats_to_remove Decompose.default_rels_to_remove = Ok grouped'
    ∧ Decompose.thinned Samples.hollow_grouped grouped'
    ∧ (∀ key ch c r, (key, ch) ∈ grouped' → (c, r) ∈ ch →
         Decompose.get_rel r ∉ Decompose.default_rels_to_remove).
Proof.
  assert (H : { grouped' |
                Decompose.split_dag Samples.hollow_store Samples.hollow_grouped
                  Decompose.default_cats_to_remove Decompose.default_rels_to_remove
                = Ok grouped' }).
  { eexists. vm_compute. reflexivity. }
  destruct H as [grouped' H]. exists grouped'. split; [exact H|].
  assert (Hnd : NoDup (map fst Samples.hollow_grouped)) by compute_done.
  destruct (split_dag_filters _ _ _ _ _ Hnd H) as (Hth & _ & Hed & _).
  split; [done|]. intros key ch c r Hin Hc. by apply (Hed key ch c r).
Defined.

Lemma split_dag_returns_witness :
  ∃ grouped',
    Decompose.split_dag Samples.hollow_store Samples.hollow_grouped
      Decompose.default_cats_to_remove Decompose.default_rels_to_remove = Ok grouped'.
Proof.
  apply split_dag_returns.
  - compute_done.
  - intros k Hk. cbn in Hk.
    repeat (apply elem_of_cons in Hk as [Hk|Hk]; [simplify_eq; compute_done|]).
    by apply elem_of_nil in Hk.
Defined.

(** Destructs the membership hypotheses of a concrete list. *)
Ltac elem_cases :=
  repeat match goal with
         | H : _ ∈ _ :: _ |- _ => apply elem_of_cons in H as [H|H]; simplify_eq/=
         | H : _ ∈ [] |- _ => inv H
         end.

(** ** remove_abstract_so: what it removes and what it keeps *)

Section RemoveAbstractSo.
Import Decompose.

Lemma same_but_rel_refl s : same_but_rel s s.
Proof. intros l. destruct (s !! l) as [[[] ?]|]; done. Qed.

Lemma same_but_rel_trans s1 s2 s3 :
  same_but_rel s1 s2 → same_but_rel s2 s3 → same_but_rel s1 s3.
Proof.
  intros H12 H23 l. specialize (H12 l). specialize (H23 l).
  destruct (s1 !! l) as [e1|], (s2 !! l) as [e2|], (s3 !! l) as [e3|]; try done.
  destruct H12 as [Hc1 Ha1], H23 as [Hc2 Ha2]. split; [congruence|].
  rewrite <- Ha1, <- Ha2. by destruct (attrib e3).
Qed.

Lemma same_but_rel_upd s s' l v :
  upd (set_rel v) l s = Ok s' → same_but_rel s s'.
Proof.
  intros (e & He & ->)%upd_Ok l'. destruct (decide (l' = l)) as [->|Hne].
  - rewrite He, lookup_insert_eq. simpl. split; [done|]. by destruct (attrib e).
  - rewrite lookup_insert_ne by done. destruct (s !! l') as [[[] ?]|]; done.
Qed.

Lemma same_but_rel_cat s s' l :
  same_but_rel s s' → cat <$> get s' l = cat <$> get s l.
Proof.
  intros H. specialize (H l). unfold get.
  destruct (s !! l) as [e|], (s' !! l) as [e'|]; try done.
  destruct H as [_ <-]. done.
Qed.

Lemma is_nonfinite_same s s' key :
  same_but_rel s s' → is_nonfinite s key ↔ is_nonfinite s' key.
Proof.
  intros H. split; intros (k & a & -> & Ha & Hc); pose proof (same_but_rel_cat _ _ k H) as Hk;
    rewrite Ha in Hk; simpl in Hk.
  - destruct (get s' k) as [a'| | |] eqn:E; simplify_eq/=. exists k, a'. by rewrite Hk.
  - destruct (get s k) as [a'| | |] eqn:E; simplify_eq/=. exists k, a'. by rewrite <- Hk.
Qed.

Section DictMore.
Context {K V : Type} `{EqDecision K}.

Lemma dict_get_set (k k' : K) (v : V) (d : list (K * V)) :
  dict_get k' (dict_set k v d) = if decide (k' = k) then Some v else dict_get k' d.
Proof.
  induction d as [|[k0 v0] d IH]; simpl.
  - repeat case_decide; congruence.
  - repeat (case_decide; simpl; simplify_eq); try congruence.
Qed.

Lemma dict_set_keys (k : K) (v : V) (d : list (K * V)) :
  is_Some (dict_get k d) → map fst (dict_set k v d) = map fst d.
Proof.
  induction d as [|[k0 v0] d IH]; simpl; [by intros [? ?]|].
  case_decide; simpl; [by subst|]. intros H'. by rewrite IH.
Qed.

End DictMore.

Section FoldRel.
Context {A St : Type} (body : A → St → result St) (R : St → St → Prop).

(** A reflexive and transitive relation that each round of a loop
    establishes holds between the initial and the final state. *)
Lemma foldM_rel (l : list A) (st st' : St) :
  (∀ st, R st st) → (∀ st1 st2 st3, R st1 st2 → R st2 st3 → R st1 st3) →
  (∀ x st st', x ∈ l → body x st = Ok st' → R st st') →
  foldM body l st = Ok st' → R st st'.
Proof.
  intros Hrefl Htrans. revert st. induction l as [|x l IH]; intros st Hbody; cbn [foldM].
  - intros [= <-]. apply Hrefl.
  - intros H. destruct (body x st) as [st1| | |] eqn:E; simpl in H; try done.
    eapply Htrans; [eapply Hbody; [left|done]|].
    apply IH; [|done]. intros y st2 st3 Hy. apply Hbody. by right.
Qed.

End FoldRel.

Lemma abstract_removed_refl st : abstract_removed st st.
Proof.
  split; [apply same_but_rel_refl|]. split; [done|]. intros key ch Hk. by exists ch.
Qed.

Lemma abstract_removed_trans st1 st2 st3 :
  abstract_removed st1 st2 → abstract_removed st2 st3 → abstract_removed st1 st3.
Proof.
  intros (Hs1 & Hk1 & H1) (Hs2 & Hk2 & H2). split; [by eapply same_but_rel_trans|].
  split; [congruence|]. intros key ch Hk.
  destruct (H1 _ _ Hk) as (ch1 & Hg1 & Hsub1 & Hf1 & Hn1).
  destruct (H2 _ _ Hg1) as (ch2 & Hg2 & Hsub2 & Hf2 & Hn2).
  exists ch2. split; [done|]. split; [by etrans|]. split; [congruence|].
  intros Hn. rewrite Hn2, Hn1; [done..|]. by rewrite <- (is_nonfinite_same _ _ _ Hs1).
Qed.

Lemma remove_abstract_edge_inv (parent : loc) (s0 : store) (ch0 : list (loc * Rel))
    (cr : loc * Rel) (st st' : store * list (loc * Rel)) :
  same_but_rel s0 st.1 ∧ st.2 `sublist_of` ch0 ∧ filter kept_edge st.2 = filter kept_edge ch0 →
  remove_abstract_edge parent cr st = Ok st' →
  same_but_rel s0 st'.1 ∧ st'.2 `sublist_of` ch0 ∧ filter kept_edge st'.2 = filter kept_edge ch0.
Proof.
  intros (Hs & Hsub & Hf). destruct st as [s ch]. unfold remove_abstract_edge.
  destruct cr as [c [r|r m]]; simpl; [by intros [= <-]|].
  case_bool_decide as Hr; [|by intros [= <-]].
  destruct m.
  - intros H. bind_inv H. by simplify_eq.
  - intros H. destruct (py_remove _ ch) as [ch1|] eqn:Er; simpl in H; [|done].
    bind_inv H. destruct (rel a) as [|d]; [done|].
    destruct (dict_del _ d) as [d1|]; simpl in H; [|done].
    bind_inv H. simplify_eq. simpl in *.
    split; [|split].
    + eapply same_but_rel_trans; [done|]. by eapply same_but_rel_upd.
    + etrans; [|done]. by apply py_remove_Some in Er as [_ ?].
    + rewrite <- Hf. eapply py_remove_filter; [done|].
      unfold kept_edge, is_so. simpl. rewrite bool_decide_eq_true_2; [done|].
      destruct Hr as [-> | ->]; auto.
Qed.

Lemma remove_abstract_under_removed (parent : option loc) (st st' : store * Grouped) :
  remove_abstract_under parent st = Ok st' → abstract_removed st st'.
Proof.
  destruct st as [s g]. unfold remove_abstract_under.
  destruct parent as [p|]; simpl; [|done].
  destruct (get s p) as [a| | |] eqn:Ea; simpl; try done.
  destruct (cat a) as [c|] eqn:Ec; simpl; [|done].
  case_bool_decide as Hc; [intros [= <-]; apply abstract_removed_refl|].
  unfold children_of. destruct (dict_get (Some p) g) as [ch|] eqn:Eg; simpl; [|done].
  destruct (for_mut _ _ _ _) as [[s1 ch1]| | |] eqn:Ef; simpl; try done.
  intros [= <-].
  assert (Hinv : same_but_rel s s1 ∧ ch1 `sublist_of` ch
                 ∧ filter kept_edge ch1 = filter kept_edge ch).
  { refine (for_mut_invariant _
              (λ st, same_but_rel s st.1 ∧ st.2 `sublist_of` ch
                     ∧ filter kept_edge st.2 = filter kept_edge ch) _ _ _ _ _ _ Ef).
    - intros x st st' Hst _ Hb. by eapply remove_abstract_edge_inv.
    - simpl. split; [apply same_but_rel_refl|]. done. }
  destruct Hinv as (Hs & Hsub & Hf).
  split; [done|]. simpl. split; [by apply dict_set_keys|].
  intros key ch' Hk. rewrite dict_get_set. case_decide as Hkey.
  - subst key. rewrite Eg in Hk. simplify_eq. exists ch1. split; [done|].
    split; [done|]. split; [done|]. intros Hn. exfalso. apply Hn.
    exists p, a. split; [done|]. split; [done|].
    destruct (decide (c = "ppart")) as [->|]; [by left|].
    destruct (decide (c = "inf")) as [->|]; [by right|]. by destruct Hc.
  - exists ch'. done.
Qed.

(** [remove_abstract_so] keeps the keys of the dictionary and changes
    [rel] attributes only. From a child list it removes secondary [su]
    and [obj1] edges and nothing else: the other edges stay, in their
    order, and the child list of a key whose category is not [ppart] or
    [inf] stays as it is. *)
Theorem remove_abstract_so_removes (s s' : store) (grouped grouped' : Grouped) :
  remove_abstract_so s grouped = Ok (s', grouped') →
  same_but_rel s s'
  ∧ map fst grouped' = map fst grouped
  ∧ ∀ key ch, dict_get key grouped = Some ch →
      ∃ ch', dict_get key grouped' = Some ch' ∧ ch' `sublist_of` ch
             ∧ filter kept_edge ch' = filter kept_edge ch
             ∧ (¬ is_nonfinite s key → ch' = ch).
Proof.
  intros H. unfold remove_abstract_so in H.
  apply (foldM_rel _ abstract_removed) in H; [done|..].
  - apply abstract_removed_refl.
  - apply abstract_removed_trans.
  - intros x st st' _. apply remove_abstract_under_removed.
Qed.

End RemoveAbstractSo.

Lemma remove_abstract_so_removes_witness :
  ∃ s' grouped',
    Decompose.remove_abstract_so Samples.control_store Samples.control_grouped
      = Ok (s', grouped')
    ∧ same_but_rel Samples.control_store s'
    ∧ map fst grouped' = map fst Samples.control_grouped.
Proof.
  eexists _, _. split; [vm_compute; reflexivity|].
  destruct (remove_abstract_so_removes Samples.control_store _ Samples.control_grouped _
              ltac:(vm_compute; reflexivity)) as (H1 & H2 & _).
  by split.
Defined.

(** ** The root sentinel as a key of the relabelling passes *)

Section RootKey.
Import Decompose.

Lemma foldM_never {A St} (body : A → St → result St) (l : list A) (x : A) (st st' : St) :
  x ∈ l → (∀ st st', body x st ≠ Ok st') → foldM body l st ≠ Ok st'.
Proof.
  intros Hx Hbody. revert st. induction l as [|y l IH]; intros st; [inv Hx|].
  cbn [foldM]. apply elem_of_cons in Hx as [<-|Hx].
  - destruct (body x st) as [st1| | |] eqn:E; simpl; try done. by apply Hbody in E.
  - destruct (body y st) as [st1| | |] eqn:E; simpl; try done. by apply IH.
Qed.

(** Neither relabelling pass returns on a dictionary that has the root
    sentinel [None] among its keys: both read [key.attrib] of every key.
    With [None] as the first key they raise AttributeError. *)
Theorem abstract_passes_need_node_keys (s : store) (grouped : Grouped) :
  None ∈ map fst grouped →
  (∀ r, abstract_object_to_subject s grouped ≠ Ok r)
  ∧ (∀ r, remove_abstract_so s grouped ≠ Ok r)
  ∧ (head (map fst grouped) = Some None →
     abstract_object_to_subject s grouped = Raise AttributeError
     ∧ remove_abstract_so s grouped = Raise AttributeError).
Proof.
  intros Hin. split; [|split].
  - intros r. unfold abstract_object_to_subject. eapply foldM_never; [done|].
    by intros [s1 g1] st'.
  - intros r. unfold remove_abstract_so. eapply foldM_never; [done|]. by intros [s1 g1] st'.
  - unfold abstract_object_to_subject, remove_abstract_so.
    destruct (map fst grouped) as [|[k|] keys]; try done.
Qed.

End RootKey.

Lemma abstract_passes_need_node_keys_witness :
  Decompose.abstract_object_to_subject Samples.dag_store Samples.dag_grouped
    = Raise AttributeError.
Proof.
  apply (abstract_passes_need_node_keys Samples.dag_store Samples.dag_grouped).
  - compute_done.
  - reflexivity.
Defined.

(** ** abstract_object_to_subject: what it keeps *)

Section Relabel.
Import Decompose.

Lemma relabelled_refl st : relabelled st st.
Proof.
  split; [apply same_but_rel_refl|]. split; [done|]. intros key ch Hk. by exists ch.
Qed.

Lemma relabelled_trans st1 st2 st3 :
  relabelled st1 st2 → relabelled st2 st3 → relabelled st1 st3.
Proof.
  intros (Hs1 & Hk1 & H1) (Hs2 & Hk2 & H2). split; [by eapply same_but_rel_trans|].
  split; [congruence|]. intros key ch Hk.
  destruct (H1 _ _ Hk) as (ch1 & Hg1 & Hf1 & Hl1).
  destruct (H2 _ _ Hg1) as (ch2 & Hg2 & Hf2 & Hl2).
  exists ch2. split; [done|]. split; [congruence|lia].
Qed.

Lemma filterM_elem {A} (p : A → result bool) (l r : list A) (x : A) :
  filterM p l = Ok r → x ∈ r → x ∈ l ∧ p x = Ok true.
Proof.
  revert r. induction l as [|y l IH]; intros r; cbn [filterM].
  - intros [= <-] Hx. inv Hx.
  - intros H. destruct (p y) as [b| | |] eqn:Ep; simpl in H; try done.
    destruct (filterM p l) as [r1| | |] eqn:Er; simpl in H; try done.
    simplify_eq. intros Hx. destruct b.
    + apply elem_of_cons in Hx as [->|Hx]; [split; [left|done]|].
      destruct (IH _ eq_refl Hx). split; [by right|done].
    + destruct (IH _ eq_refl Hx). split; [by right|done].
Qed.

Lemma find_abstract_elem (s : store) (grouped : Grouped) (real_so ppart : loc)
    (r : list (loc * Rel)) (x : loc * Rel) :
  find_abstract s grouped real_so ppart = Ok r → x ∈ r → is_so primary x.2 = true.
Proof.
  unfold find_abstract. intros H Hx.
  destruct (children_of grouped (Some ppart)) as [ch| | |]; simpl in H; try done.
  destruct (filterM_elem _ _ _ _ H Hx) as [_ Hp]. simpl in Hp.
  destruct (get s x.1) as [a| | |]; simpl in Hp; try done.
  destruct (index a); [|done]. by destruct (is_so primary x.2).
Qed.

Lemma is_so_get_rel (m m' : Marker) (r : Rel) :
  is_so m r = true → is_so m' (Marked (get_rel r) m') = true.
Proof.
  unfold is_so. intros H. apply bool_decide_eq_true in H. apply bool_decide_eq_true.
  destruct H as [-> | ->]; simpl; auto.
Qed.

Lemma not_other_edge (m : Marker) (c : loc) (r : Rel) :
  is_so m r = true → ¬ other_edge (c, r).
Proof. intros H [H1 H2]. simpl in *. destruct m; congruence. Qed.

Lemma children_of_Ok (g : Grouped) (k : option loc) (ch : list (loc * Rel)) :
  children_of g k = Ok ch ↔ dict_get k g = Some ch.
Proof. unfold children_of. destruct (dict_get k g); simpl; split; congruence. Qed.

Lemma relabel_clause_relabelled (main_parent : option loc) (st st' : store * Grouped) :
  relabel_clause main_parent st = Ok st' → relabelled st st'.
Proof.
  destruct st as [s g]. unfold relabel_clause.
  destruct main_parent as [mp|]; simpl; [|done].
  destruct (get s mp) as [a| | |] eqn:Ea; simpl; try done.
  destruct (cat a) as [c|] eqn:Ec; simpl; [|done].
  destruct (negb _); [intros [= <-]; apply relabelled_refl|].
  destruct (children_of g (Some mp)) as [ch| | |] eqn:Eg; simpl; try done.
  apply children_of_Ok in Eg.
  destruct (filter _ ch) as [|[real_so real_rel] rest] eqn:Ereal;
    [intros [= <-]; apply relabelled_refl|].
  assert (Hreal : is_so secondary real_rel = true).
  { assert (Hin : (real_so, real_rel) ∈ filter (λ x : loc * Rel, is_so secondary x.2 = true) ch)
      by (rewrite Ereal; left).
    by apply list_elem_of_filter in Hin as [? _]. }
  destruct (with_cat s ["ti"] ch) as [ti| | |] eqn:Eti; simpl; try done.
  set (parent := match ti with (t, _) :: _ => t | [] => mp end).
  destruct (children_of g (Some parent)) as [pch| | |] eqn:Epch; simpl; try done.
  destruct (with_cat s ["ppart"; "inf"] pch) as [pparts| | |] eqn:Epp; simpl; try done.
  destruct pparts as [|[ppart0 ?] ?]; [intros [= <-]; apply relabelled_refl|].
  destruct (find_abstract s g real_so ppart0) as [abs0| | |] eqn:Eabs0; simpl; try done.
  intros H.
  match type of H with
  | (?m ≫= _) = _ => destruct m as [[ppart abs]| | |] eqn:Esel; simpl in H; try done
  end.
  destruct abs as [|[abstract_so abstract_rel] ?]; [injection H as <-; apply relabelled_refl|].
  assert (Habs : is_so primary abstract_rel = true).
  { destruct abs0 as [|x0 abs0'].
    - destruct (children_of g (Some ppart0)) as [pch2| | |]; simpl in Esel; try done.
      destruct (with_cat s ["ppart"; "inf"] pch2) as [pp2| | |]; simpl in Esel; try done.
      destruct pp2 as [|[ppart2 ?] ?]; [by simplify_eq|].
      destruct (find_abstract s g real_so ppart2) as [abs2| | |] eqn:Eabs2;
        simpl in Esel; try done.
      simplify_eq. eapply (find_abstract_elem _ _ _ _ _ (_, _)); [done|left].
    - simplify_eq. eapply (find_abstract_elem _ _ _ _ _ (_, _)); [done|left]. }
  destruct (children_of g (Some ppart)) as [chp| | |] eqn:Echp; simpl in H; try done.
  apply children_of_Ok in Echp.
  destruct (py_remove _ chp) as [chp1|] eqn:Er1; simpl in H; [|done].
  destruct (children_of _ (Some mp)) as [chm| | |] eqn:Echm; simpl in H; try done.
  apply children_of_Ok in Echm. rewrite dict_get_set in Echm.
  destruct (py_remove _ chm) as [chm1|] eqn:Er2; simpl in H; [|done].
  destruct (get s abstract_so) as [aa| | |]; simpl in H; try done.
  destruct (get s ppart) as [pa| | |]; simpl in H; try done.
  destruct (rel aa) as [|d]; [done|].
  destruct (dict_del _ d) as [d1|]; simpl in H; [|done].
  destruct (upd _ abstract_so s) as [s1| | |] eqn:Eu; simpl in H; try done.
  injection H as <-.
  pose proof (py_remove_Some _ _ _ Er1) as [Hp1 _].
  pose proof (py_remove_Some _ _ _ Er2) as [Hp2 _].
  assert (Hf1 : filter other_edge chp1 = filter other_edge chp).
  { eapply py_remove_filter; [done|]. eapply (not_other_edge primary).
    by eapply is_so_get_rel. }
  assert (Hf2 : filter other_edge (chm1 ++ [(abstract_so, Marked (get_rel real_rel) primary)])
                = filter other_edge chm).
  { rewrite filter_app, filter_cons, decide_False, filter_nil, app_nil_r.
    - eapply py_remove_filter; [done|]. eapply (not_other_edge secondary).
      by eapply is_so_get_rel.
    - eapply (not_other_edge primary). by eapply is_so_get_rel. }
  assert (Hl1 : length chp = S (length chp1)) by (by rewrite Hp1).
  assert (Hl2 : length chm = S (length chm1)) by (by rewrite Hp2).
  split; [by eapply same_but_rel_upd|]. simpl. split.
  - rewrite dict_set_keys.
    + apply dict_set_keys. by rewrite Echp.
    + rewrite dict_get_set. by rewrite Echm.
  - intros key ch0 Hk. rewrite !dict_get_set.
    destruct (decide (key = Some mp)) as [->|Hne].
    + eexists. split; [done|]. rewrite Hf2, length_app. simpl.
      destruct (decide (Some mp = Some ppart)) as [Heq|_].
      * rewrite <- Heq in Echp. simplify_eq. split; [done|lia].
      * simplify_eq. split; [done|lia].
    + destruct (decide (key = Some ppart)) as [->|Hne'].
      * simplify_eq. eexists. split; [done|]. split; [done|lia].
      * eexists. split; [done|]. done.
Qed.

(** [abstract_object_to_subject] keeps the keys of the dictionary and
    changes [rel] attributes only; in every child list it leaves the
    edges other than marked [su] and [obj1] edges as they are, and adds
    no edge. *)
Theorem abstract_object_to_subject_relabels (s s' : store) (grouped grouped' : Grouped) :
  abstract_object_to_subject s grouped = Ok (s', grouped') →
  same_but_rel s s'
  ∧ map fst grouped' = map fst grouped
  ∧ ∀ key ch, dict_get key grouped = Some ch →
      ∃ ch', dict_get key grouped' = Some ch'
             ∧ filter other_edge ch' = filter other_edge ch
             ∧ (length ch' ≤ length ch)%nat.
Proof.
  intros H. unfold abstract_object_to_subject in H.
  apply (foldM_rel _ relabelled) in H; [done|..].
  - apply relabelled_refl.
  - apply relabelled_trans.
  - intros x st st' _. apply relabel_clause_relabelled.
Qed.

End Relabel.

Lemma abstract_object_to_subject_relabels_witness :
  ∃ s' grouped',
    Decompose.abstract_object_to_subject Samples.raising_store Samples.raising_grouped
      = Ok (s', grouped')
    ∧ same_but_rel Samples.raising_store s'
    ∧ map fst grouped' = map fst Samples.raising_grouped.
Proof.
  eexists _, _. split; [vm_compute; reflexivity|].
  destruct (abstract_object_to_subject_relabels Samples.raising_store _
              Samples.raising_grouped _ ltac:(vm_compute; reflexivity)) as (H1 & H2 & _).
  by split.
Defined.

(** ** collapse_mwu: the entries it removes *)

Section CollapseMwuEntries.
Import Decompose.

Lemma filter_ext_elem {A} (P Q : A → Prop) `{∀ x, Decision (P x)} `{∀ x, Decision (Q x)}
    (l : list A) :
  (∀ x, x ∈ l → P x ↔ Q x) → filter P l = filter Q l.
Proof.
  induction l as [|x l IH]; intros Hl; [done|].
  rewrite !filter_cons. rewrite IH by (intros y Hy; apply Hl; by right).
  destruct (decide (P x)) as [HP|HP], (decide (Q x)) as [HQ|HQ]; try done;
    exfalso; apply (Hl x) in HP || apply (Hl x) in HQ; done || left.
Qed.

Lemma filter_all {A} (P : A → Prop) `{∀ x, Decision (P x)} (l : list A) :
  Forall P l → filter P l = l.
Proof. induction 1; [done|]. rewrite filter_cons, decide_True by done. by f_equal. Qed.

Section DelFilter.
Context {K V : Type} `{EqDecision K}.

Lemma dict_del_filter (k : K) (d d' : list (K * V)) :
  dict_del k d = Some d' → NoDup (map fst d) → d' = filter (λ kv, kv.1 ≠ k) d.
Proof.
  revert d'. induction d as [|[k0 v0] d IH]; intros d'; simpl; [done|].
  intros Hdel [Hk0 Hnd]%NoDup_cons. rewrite filter_cons. simpl. case_decide as Hk.
  - simplify_eq. rewrite decide_False by (intros Hne; by apply Hne).
    symmetry. apply filter_all. apply Forall_forall. intros [k' v'] Hin. simpl. intros ->.
    apply Hk0. by apply (list_elem_of_fmap_2' fst _ (k, v')).
  - rewrite decide_True by done.
    destruct (dict_del k d) as [d1|] eqn:E; simplify_eq/=. f_equal. by apply IH.
Qed.

End DelFilter.

Lemma del_keys_filter (keys : list (option loc)) (g g' : Grouped) :
  del_keys keys g = Ok g' → NoDup (map fst g) → g' = filter (λ kv, kv.1 ∉ keys) g.
Proof.
  unfold del_keys. revert g. induction keys as [|k keys IH]; intros g; cbn [foldM].
  - intros [= <-] _. symmetry. apply filter_all, Forall_forall. intros kv _ H. inv H.
  - intros H Hnd. destruct (dict_del k g) as [g1|] eqn:Ed; simpl in H; [|done].
    pose proof (dict_del_filter _ _ _ Ed Hnd) as ->.
    rewrite (IH _ H).
    + rewrite list_filter_filter. apply list_filter_iff. intros kv.
      rewrite not_elem_of_cons. tauto.
    + eapply sublist_NoDup; [exact Hnd|]. apply (fmap_sublist fst), sublist_filter.
Qed.

Lemma has_cat_in_mwu (s : store) (k : loc) (a : Attrib) :
  get s k = Ok a →
  has_cat_in s ["mwu"] (Some k) = bool_decide (cat a = Some "mwu").
Proof.
  intros (e & He & <-)%get_Ok. simpl. rewrite He. destruct (cat (attrib e)) as [c|].
  - unfold py_in. apply bool_decide_ext. rewrite list_elem_of_singleton.
    split; [by intros ->|by intros [= ->]].
  - by rewrite bool_decide_eq_false_2.
Qed.

Lemma has_cat_in_same (s s' : store) (cats : list string) (key : option loc) :
  (∀ l, key = Some l → s' !! l = s !! l) → has_cat_in s' cats key = has_cat_in s cats key.
Proof. destruct key as [k|]; [|done]. intros H. simpl. by rewrite H. Qed.

Lemma collapse_key_spec (set_iter : list string → list string) (fuel : nat)
    (g : Grouped) (key : option loc) (s s' : store) (tr tr' : list (option loc)) :
  collapse_key set_iter fuel g key (s, tr) = Ok (s', tr') →
  if has_cat_in s ["mwu"] key
  then tr' = tr ++ [key]
       ∧ ∃ k, key = Some k ∧ (∀ l, l ≠ k → s' !! l = s !! l)
              ∧ ∃ a, get s' k = Ok a ∧ is_leaf a = true
  else s' = s ∧ tr' = tr.
Proof.
  unfold collapse_key. destruct key as [k|]; [|by intros [= <- <-]].
  intros H. destruct (get s k) as [a| | |] eqn:Ea; simpl in H; try done.
  rewrite (has_cat_in_mwu _ _ _ Ea). case_bool_decide as Hcat; [|by simplify_eq].
  bind_inv H. simplify_eq. split; [done|]. exists k. split; [done|].
  repeat match goal with
         | Hu : upd _ _ _ = Ok _ |- _ => apply upd_Ok in Hu as (? & ? & ->)
         end.
  split.
  - intros l Hl. by rewrite !lookup_insert_ne.
  - eexists. unfold get. rewrite lookup_insert_eq. split; [done|].
    rewrite lookup_insert_eq in *. by simplify_eq.
Qed.

Lemma collapse_keys_spec (set_iter : list string → list string) (fuel : nat)
    (g : Grouped) (keys : list (option loc)) (s s' : store) (tr tr' : list (option loc)) :
  NoDup keys →
  foldM (collapse_key set_iter fuel g) keys (s, tr) = Ok (s', tr') →
  tr' = tr ++ filter (λ key, has_cat_in s ["mwu"] key = true) keys
  ∧ (∀ l, ¬ (Some l ∈ keys ∧ has_cat_in s ["mwu"] (Some l) = true) → s' !! l = s !! l)
  ∧ (∀ l, Some l ∈ keys → has_cat_in s ["mwu"] (Some l) = true →
       ∃ a, get s' l = Ok a ∧ is_leaf a = true).
Proof.
  intros Hnd. revert s tr. induction Hnd as [|key keys Hkey Hnd IH]; intros s tr; cbn [foldM].
  - intros [= <- <-]. rewrite app_nil_r. split; [done|]. split; [done|].
    intros l Hl. inv Hl.
  - intros H. destruct (collapse_key _ _ _ _ _) as [[s1 tr1]| | |] eqn:E; simpl in H; try done.
    apply collapse_key_spec in E. destruct (IH _ _ H) as (-> & Hsame & Hleaf). clear IH H.
    rewrite filter_cons.
    destruct (has_cat_in s ["mwu"] key) eqn:Hc.
    + destruct E as (-> & k & -> & Hother & a & Ha & Hl).
      assert (Hrest : ∀ key', key' ∈ keys →
                has_cat_in s1 ["mwu"] key' = has_cat_in s ["mwu"] key').
      { intros key' Hin. apply has_cat_in_same. intros l ->. apply Hother. by intros ->. }
      rewrite decide_True by done. rewrite <- app_assoc. cbn [app]. split; [|split].
      * do 2 f_equal. apply filter_ext_elem. intros x Hx. by rewrite Hrest.
      * intros l Hl'. rewrite Hsame.
        -- apply Hother. intros ->. apply Hl'. split; [left|done].
        -- intros [Hin Hc1]. apply Hl'. split; [by right|]. by rewrite <- Hrest.
      * intros l [[= ->]|Hin]%elem_of_cons Hc1.
        -- exists a. split; [|done]. unfold get. rewrite Hsame; [done|].
           by intros [Hin _].
        -- apply Hleaf; [done|]. by rewrite Hrest.
    + destruct E as [-> ->]. rewrite decide_False by done. split; [done|]. split.
      * intros l Hl'. apply Hsame. intros [Hin Hc1]. apply Hl'. split; [by right|done].
      * intros l [[= ->]|Hin]%elem_of_cons Hc1; [congruence|]. by apply Hleaf.
Qed.

(** [collapse_mwu] removes the entries of the keys with category [mwu],
    in the store it was given, and keeps the other entries as they are
    and in their order; each removed key has become a leaf, and the
    elements other than the removed keys are as they were. *)
Theorem collapse_mwu_removes (set_iter : list string → list string) (fuel : nat)
    (s s' : store) (grouped grouped' : Grouped) :
  NoDup (map fst grouped) →
  collapse_mwu set_iter fuel s grouped = Ok (s', grouped') →
  grouped' = filter (λ kv, has_cat_in s ["mwu"] kv.1 = false) grouped
  ∧ (∀ l, ¬ (Some l ∈ map fst grouped ∧ has_cat_in s ["mwu"] (Some l) = true) →
       s' !! l = s !! l)
  ∧ (∀ l, Some l ∈ map fst grouped → has_cat_in s ["mwu"] (Some l) = true →
       ∃ a, get s' l = Ok a ∧ is_leaf a = true).
Proof.
  intros Hnd H. unfold collapse_mwu in H.
  destruct (foldM _ _ _) as [[s1 to_remove]| | |] eqn:E; simpl in H; try done.
  destruct (del_keys to_remove grouped) as [g1| | |] eqn:Ed; simpl in H; try done.
  simplify_eq. apply collapse_keys_spec in E as (-> & Hsame & Hleaf); [|done].
  split; [|done]. rewrite (del_keys_filter _ _ _ Ed Hnd). simpl.
  apply filter_ext_elem. intros [k ch] Hin. simpl. rewrite list_elem_of_filter.
  split.
  - intros Hn. destruct (has_cat_in s ["mwu"] k) eqn:Hc; [|done]. exfalso. apply Hn.
    split; [done|]. by apply (list_elem_of_fmap_2' fst _ (k, ch)).
  - intros Hc [Hc' _]. congruence.
Qed.

End CollapseMwuEntries.

Lemma collapse_mwu_removes_witness :
  ∃ s' grouped',
    Decompose.collapse_mwu remove_dups 2 Samples.mwu_store Samples.mwu_grouped
      = Ok (s', grouped')
    ∧ grouped' = filter (λ kv, Decompose.has_cat_in Samples.mwu_store ["mwu"] kv.1 = false)
                   Samples.mwu_grouped.
Proof.
  assert (H : { r | Decompose.collapse_mwu remove_dups 2 Samples.mwu_store Samples.mwu_grouped
                    = Ok r }).
  { eexists. vm_compute. reflexivity. }
  destruct H as [[s' g'] H]. exists s', g'. split; [done|].
  assert (Hnd : NoDup (map fst Samples.mwu_grouped)) by compute_done.
  apply (collapse_mwu_removes remove_dups 2 Samples.mwu_store s' Samples.mwu_grouped g' Hnd H).
Defined.

(** ** choose_head: the child it returns *)

Section HeadChoice.
Import Decompose.

Lemma filter_first {A} (P : A → Prop) `{∀ x, Decision (P x)} (l r : list A) (x : A) :
  filter P l = x :: r →
  ∃ pre post, l = pre ++ x :: post ∧ P x ∧ Forall (λ y, ¬ P y) pre.
Proof.
  induction l as [|z l IH]; [done|]. rewrite filter_cons. case_decide as Hz.
  - intros [= -> <-]. exists [], l. by repeat split.
  - intros (pre & post & -> & Hx & Hpre)%IH. exists (z :: pre), post.
    split; [done|]. split; [done|]. by constructor.
Qed.

Section ChooseHeadMore.
Context `{TA : TypeAlgebra}.

Lemma first_candidate_Some (cands : list string) (children_rels : list (loc * Rel))
    (c : loc) (r : Rel) :
  first_candidate cands children_rels = Some (c, r) →
  ∃ pre post, children_rels = pre ++ (c, r) :: post ∧ get_rel r ∈ cands
              ∧ Forall (λ x, get_rel x.2 ∉ cands) pre.
Proof.
  induction children_rels as [|[c0 r0] l IH]; simpl; [done|].
  unfold py_in. case_bool_decide as Hr.
  - intros [= -> ->]. exists [], l. by repeat split.
  - intros (pre & post & -> & Hin & Hpre)%IH. exists ((c0, r0) :: pre), post.
    split; [done|]. split; [done|]. by constructor.
Qed.

Lemma first_candidate_None_inv (cands : list string) (children_rels : list (loc * Rel)) :
  first_candidate cands children_rels = None →
  Forall (λ x, get_rel x.2 ∉ cands) children_rels.
Proof.
  induction children_rels as [|[c0 r0] l IH]; simpl; [constructor|].
  unfold py_in. case_bool_decide as Hr; [done|]. intros H. constructor; auto.
Qed.

Lemma pick_first_match_Some (children_rels : list (loc * Rel)) (cond : Rel) :
  cond ∈ map snd children_rels →
  ∃ c pre post, pick_first_match children_rels cond = Some c
                ∧ children_rels = pre ++ (c, cond) :: post
                ∧ Forall (λ x, x.2 ≠ cond) pre.
Proof.
  intros ([c r] & -> & Hin)%list_elem_of_fmap_1. unfold pick_first_match.
  destruct (filter _ children_rels) as [|[c1 r1] rest] eqn:E.
  - exfalso. eapply (filter_nil_not_elem_of _ _ _ E); [|done]. done.
  - apply filter_first in E as (pre & post & -> & Hx & Hpre). simpl in Hx. subst r1.
    exists c1, pre, post. done.
Qed.

(** [choose_head] returns a child of the list with its relation, never
    the head [None]: the first child whose relation is a head candidate,
    or, when there is none, the first child attached by [crd], or, when
    there is none either, the first attached by [cnj]. *)
Theorem choose_head_first (self : Decompose) (children_rels : list (loc * Rel))
    (h : option loc) (r : Rel) :
  choose_head self children_rels = Ok (h, r) →
  ∃ c pre post,
    h = Some c ∧ children_rels = pre ++ (c, r) :: post
    ∧ ((get_rel r ∈ head_candidates self
        ∧ Forall (λ x, get_rel x.2 ∉ head_candidates self) pre)
       ∨ (Forall (λ x, get_rel x.2 ∉ head_candidates self) children_rels
          ∧ Forall (λ x, x.2 ≠ r) pre
          ∧ (r = Plain "crd"
             ∨ (r = Plain "cnj" ∧ Plain "crd" ∉ map snd children_rels)))).
Proof.
  unfold choose_head.
  destruct (first_candidate _ _) as [[c0 r0]|] eqn:E.
  - intros [= <- <-]. apply first_candidate_Some in E as (pre & post & -> & Hin & Hpre).
    exists c0, pre, post. split; [done|]. split; [done|]. by left.
  - apply first_candidate_None_inv in E. unfold py_in.
    case_bool_decide as Hcrd; [|case_bool_decide as Hcnj; [|done]].
    + destruct (pick_first_match_Some _ _ Hcrd) as (c & pre & post & -> & Heq & Hpre).
      intros [= <- <-]. exists c, pre, post. split; [done|]. split; [done|].
      right. split; [done|]. split; [done|]. by left.
    + destruct (pick_first_match_Some _ _ Hcnj) as (c & pre & post & -> & Heq & Hpre).
      intros [= <- <-]. exists c, pre, post. split; [done|]. split; [done|].
      right. split; [done|]. split; [done|]. by right.
Qed.

End ChooseHeadMore.

End HeadChoice.

Lemma choose_head_first_witness :
  ∃ c pre post,
    Some 4%positive = Some c
    ∧ [(2%positive, Plain "su"); (4%positive, Plain "hd"); (3%positive, Plain "hd")]
      = pre ++ (c, Plain "hd") :: post.
Proof.
  destruct (choose_head_first (TA := Ty_algebra) (Decompose.init (λ w, w) "|")
              [(2%positive, Plain "su"); (4%positive, Plain "hd"); (3%positive, Plain "hd")]
              (Some 4%positive) (Plain "hd")) as (c & pre & post & H1 & H2 & _).
  - reflexivity.
  - by exists c, pre, post.
Defined.

(** ** order_siblings *)

Section OrderSiblings.
Import Decompose.

Lemma triple_leb_refl (a : Z * Z * Z) : triple_leb a a = true.
Proof. by destruct (triple_leb_total a a). Qed.

Lemma StronglySorted_map {A B} (R1 : A → A → Prop) (R2 : B → B → Prop) (P : A → Prop)
    (f : A → B) (l : list A) :
  (∀ x y, P x → P y → R1 x y → R2 (f x) (f y)) →
  Forall P l → StronglySorted R1 l → StronglySorted R2 (map f l).
Proof.
  intros HR HP Hs. induction Hs as [|x l Hl IH Hx]; simpl; [constructor|].
  apply Forall_cons in HP as [Hpx HP]. constructor; [by apply IH|].
  apply Forall_fmap, Forall_forall. intros y Hy. rewrite Forall_forall in Hx, HP.
  apply HR; auto.
Qed.

Lemma filter_map_snd {A B} (P : B → Prop) (Q : A * B → Prop)
    `{∀ x, Decision (P x)} `{∀ x, Decision (Q x)} (l : list (A * B)) :
  Forall (λ y, P y.2 ↔ Q y) l → filter P (map snd l) = map snd (filter Q l).
Proof.
  induction 1 as [|y l Hy _ IH]; [done|]. simpl. rewrite !filter_cons, IH.
  destruct (decide (P y.2)), (decide (Q y)); try done; tauto.
Qed.

Lemma keyed_spec (s : store) (l : list (loc * Rel)) (keyed : list (Z * Z * Z * (loc * Rel))) :
  mapM (λ x : loc * Rel, a ← get s x.1; Ok (sort_key a, x)) l = Ok keyed →
  map snd keyed = l ∧ Forall (λ y, edge_key s y.2 = Some y.1) keyed.
Proof.
  revert keyed. induction l as [|x l IH]; intros keyed.
  - by intros [= <-].
  - intros (y & r & Hx & Hr & ->)%mapM_cons_Ok. destruct (IH _ Hr) as [<- Hall].
    unfold get in Hx. destruct (s !! x.1) as [e|] eqn:He; simplify_eq/=.
    split; [done|]. constructor; [|done]. unfold edge_key. simpl. by rewrite He.
Qed.

Lemma order_siblings_perm (s : store) (siblings r : list (loc * Rel))
    (exclude : option loc) :
  order_siblings s siblings exclude = Ok r →
  r ≡ₚ match exclude with
       | Some e => filter (λ x : loc * Rel, x.1 ≠ e) siblings
       | None => siblings
       end.
Proof.
  unfold order_siblings. intros H.
  destruct (mapM _ _) as [keyed| | |] eqn:E; simpl in H; try done.
  injection H as <-. apply keyed_spec in E as [<- _]. by rewrite sorted_perm.
Qed.

(** [order_siblings] returns the siblings other than [exclude], each as
    often as it is listed, by increasing (begin, end, id); siblings with
    the same key keep the order they are listed in. *)
Theorem order_siblings_sorted (s : store) (siblings r : list (loc * Rel))
    (exclude : option loc) :
  order_siblings s siblings exclude = Ok r →
  r ≡ₚ filter (λ x : loc * Rel, Some x.1 ≠ exclude) siblings
  ∧ StronglySorted (span_le s) r
  ∧ ∀ k, filter (λ x, edge_key s x = Some k) r
         = filter (λ x, edge_key s x = Some k)
             (filter (λ x : loc * Rel, Some x.1 ≠ exclude) siblings).
Proof.
  unfold order_siblings.
  assert (Hsib : match exclude with
                 | Some e => filter (λ x : loc * Rel, x.1 ≠ e) siblings
                 | None => siblings
                 end = filter (λ x : loc * Rel, Some x.1 ≠ exclude) siblings).
  { destruct exclude as [e|].
    - apply list_filter_iff. intros x. split; [congruence|]. intros Hx Heq. apply Hx. by f_equal.
    - symmetry. apply filter_all, Forall_forall. done. }
  rewrite Hsib. clear Hsib.
  generalize (filter (λ x : loc * Rel, Some x.1 ≠ exclude) siblings). clear siblings.
  intros l H. destruct (mapM _ l) as [keyed| | |] eqn:E; simpl in H; try done.
  injection H as <-. apply keyed_spec in E as [<- Hall].
  assert (Hall' : Forall (λ y : Z * Z * Z * (loc * Rel), edge_key s y.2 = Some y.1)
                    (sorted triple_leb fst keyed)) by (by rewrite sorted_perm).
  split; [by rewrite sorted_perm|]. split.
  - eapply (StronglySorted_map (key_le triple_leb fst)); [|exact Hall'|].
    + intros x y Hx Hy Hxy. exists x.1, y.1. done.
    + apply sorted_StronglySorted; [apply triple_leb_total|apply triple_leb_trans].
  - intros k.
    rewrite (filter_map_snd _ (λ y : Z * Z * Z * (loc * Rel), y.1 = k)).
    + rewrite (filter_map_snd _ (λ y : Z * Z * Z * (loc * Rel), y.1 = k)).
      * f_equal. apply sorted_filter_key. apply triple_leb_refl.
      * eapply Forall_impl; [exact Hall|]. intros y ->. split; congruence.
    + eapply Forall_impl; [exact Hall'|]. intros y ->. split; congruence.
Qed.

End OrderSiblings.

Lemma order_siblings_sorted_witness :
  ∃ r, Decompose.order_siblings Samples.mwu_store
         [(4%positive, Plain "mwp"); (5%positive, Plain "mwp")] None = Ok r
       ∧ StronglySorted (span_le Samples.mwu_store) r.
Proof.
  eexists. split; [vm_compute; reflexivity|].
  apply (order_siblings_sorted Samples.mwu_store
           [(4%positive, Plain "mwp"); (5%positive, Plain "mwp")] _ None).
  vm_compute. reflexivity.
Defined.

(** ** group_by_parent *)

Section GroupByParent.
Import Decompose.

Lemma elem_of_concat {A} (x : A) (ls : list (list A)) :
  x ∈ concat ls ↔ ∃ l, l ∈ ls ∧ x ∈ l.
Proof.
  induction ls as [|l ls IH]; simpl.
  - split; [intros H; inv H|intros (l & H & _); inv H].
  - rewrite elem_of_app, IH. split.
    + intros [Hx|(l' & Hl' & Hx)]; [exists l; split; [left|done]|].
      exists l'. split; [by right|done].
    + intros (l' & [->|Hl']%elem_of_cons & Hx); [by left|]. right. eauto.
Qed.

Section DictSet.
Context {K V : Type} `{EqDecision K}.

Lemma dict_get_fmap {W} (f : V → W) (i : K) (d : list (K * V)) :
  dict_get i (map (λ kv : K * V, (kv.1, f kv.2)) d) = f <$> dict_get i d.
Proof.
  induction d as [|[k v] d IH]; [done|]. simpl. by case_decide.
Qed.

Lemma dict_set_NoDup (k : K) (v : V) (d : list (K * V)) :
  NoDup (map fst d) → NoDup (map fst (dict_set k v d)).
Proof.
  destruct (decide (k ∈ map fst d)) as [Hin|Hnot].
  - rewrite dict_set_keys; [done|]. apply not_eq_None_Some. intros Hn. by apply dict_get_None in Hn.
  - rewrite dict_set_fresh by done. rewrite map_app. simpl. intros Hnd.
    apply NoDup_app. split; [done|]. split; [|apply NoDup_singleton].
    intros x Hx ->%list_elem_of_singleton. done.
Qed.

End DictSet.

Section DictFold.
Context {K K' V : Type} `{EqDecision K} `{EqDecision K'}.

Variable f : K → result K'.
Hypothesis f_inj : ∀ k1 k2 key, f k1 = Ok key → f k2 = Ok key → k1 = k2.

Local Abbreviation body :=
  (λ (kv : K * V) (newdict : list (K' * V)),
     newkey ← f kv.1; Ok (dict_set newkey kv.2 newdict)).

(** Re-keying a dictionary through an injective [f]. *)
Lemma rekey_spec (rest : list (K * V)) (acc g : list (K' * V)) :
  foldM body rest acc = Ok g → NoDup (map fst rest) → NoDup (map fst acc) →
  NoDup (map fst g)
  ∧ (∀ k, k ∈ map fst rest → ∃ key, f k = Ok key)
  ∧ ∀ key ch, dict_get key g = Some ch ↔
      (∃ k, f k = Ok key ∧ dict_get k rest = Some ch)
      ∨ (dict_get key acc = Some ch ∧ ∀ k, f k = Ok key → k ∉ map fst rest).
Proof.
  revert acc. induction rest as [|[k0 v0] rest IH]; intros acc; cbn [foldM].
  - intros [= <-] _ Hacc. split; [done|]. split; [intros k Hk; inv Hk|].
    intros key ch. split.
    + intros Hk. right. split; [done|]. intros k _ Hk'. inv Hk'.
    + intros [(k & _ & Hk)|[Hk _]]; done.
  - simpl. intros H [Hk0 Hnd]%NoDup_cons Hacc.
    destruct (f k0) as [key0| | |] eqn:Ef; simpl in H; try done.
    destruct (IH _ H Hnd (dict_set_NoDup _ _ _ Hacc)) as (Hg & Hall & Hget). clear IH.
    split; [done|]. split.
    { intros k [->|Hk]%elem_of_cons; eauto. }
    intros key ch. rewrite Hget. clear Hget. rewrite dict_get_set. split.
    + intros [(k & Hfk & Hk)|[Hk Hfresh]].
      * left. exists k. split; [done|]. rewrite decide_False; [done|].
        intros ->. apply Hk0. apply dict_get_Some_elem in Hk.
        by apply (list_elem_of_fmap_2' fst _ (k, ch)).
      * case_decide as Hkey.
        -- subst key. left. exists k0. split; [done|]. rewrite decide_True by done.
           congruence.
        -- right. split; [done|]. intros k Hfk. rewrite not_elem_of_cons. split; [|auto].
           intros ->. congruence.
    + intros [(k & Hfk & Hk)|[Hk Hfresh]].
      * case_decide as Hk0k.
        -- subst k. assert (key = key0) as -> by congruence. simplify_eq.
           right. rewrite decide_True by done.
           split; [done|]. intros k Hfk'. by rewrite (f_inj _ _ _ Hfk' Ef).
        -- left. eauto.
      * right. rewrite decide_False.
        -- split; [done|]. intros k Hfk. specialize (Hfresh k Hfk).
           by apply not_elem_of_cons in Hfresh as [_ ?].
        -- intros ->. specialize (Hfresh k0 Ef). apply Hfresh. left.
Qed.

End DictFold.

Lemma mapM_get_inv (s : store) (nodes : list loc) (nas : list (loc * Attrib)) :
  mapM (λ l, a ← get s l; Ok (l, a)) nodes = Ok nas →
  map fst nas = nodes ∧ Forall (λ na : loc * Attrib, get s na.1 = Ok na.2) nas.
Proof.
  revert nas. induction nodes as [|l nodes IH]; intros nas.
  - by intros [= <-].
  - intros (y & r & Hx & Hr & ->)%mapM_cons_Ok. destruct (IH _ Hr) as [<- Hall].
    destruct (get s l) as [a| | |] eqn:Ea; simplify_eq/=. split; [done|]. by constructor.
Qed.

Lemma node_of_id_Some (nas : list (loc * Attrib)) (k : Z) (n : loc) :
  node_of_id nas k = Ok (Some n) →
  k ≠ -1 ∧ ∃ pre a post, nas = pre ++ (n, a) :: post ∧ id a = k
                         ∧ Forall (λ na : loc * Attrib, id na.2 ≠ k) pre.
Proof.
  unfold node_of_id. case_decide as Hk; [done|].
  destruct (filter _ nas) as [|[n0 a0] rest] eqn:E; [done|]. intros [= <-].
  apply filter_first in E as (pre & post & -> & Hid & Hpre). split; [done|].
  by exists pre, a0, post.
Qed.

Lemma node_of_id_None (nas : list (loc * Attrib)) (k : Z) :
  node_of_id nas k = Ok None ↔ k = -1.
Proof.
  unfold node_of_id. case_decide as Hk; [done|].
  destruct (filter _ nas) as [|[n0 a0] rest]; split; done.
Qed.

Lemma node_of_id_inj (s : store) (nas : list (loc * Attrib)) (k1 k2 : Z) (key : option loc) :
  Forall (λ na : loc * Attrib, get s na.1 = Ok na.2) nas →
  node_of_id nas k1 = Ok key → node_of_id nas k2 = Ok key → k1 = k2.
Proof.
  intros Hnas H1 H2. destruct key as [n|].
  - apply node_of_id_Some in H1 as (_ & pre1 & a1 & post1 & E1 & <- & _).
    apply node_of_id_Some in H2 as (_ & pre2 & a2 & post2 & E2 & <- & _).
    rewrite Forall_forall in Hnas.
    assert (H1 : get s n = Ok a1) by (apply (Hnas (n, a1)); rewrite E1; set_solver).
    assert (H2 : get s n = Ok a2) by (apply (Hnas (n, a2)); rewrite E2; set_solver).
    congruence.
  - apply node_of_id_None in H1, H2. congruence.
Qed.

Lemma node_of_id_cases (nas : list (loc * Attrib)) (k : Z) :
  (∃ key, node_of_id nas k = Ok key) ∨ node_of_id nas k = Raise IndexError.
Proof.
  unfold node_of_id. case_decide; [eauto|]. destruct (filter _ nas) as [|na ?]; eauto.
Qed.

Lemma Z_leb_antisym (a b : Z) : (a <=? b) = true → (b <=? a) = true → a = b.
Proof. rewrite !Z.leb_le. lia. Qed.
Lemma Z_leb_total (a b : Z) : (a <=? b) = true ∨ (b <=? a) = true.
Proof. rewrite !Z.leb_le. lia. Qed.
Lemma Z_leb_trans (a b c : Z) : (a <=? b) = true → (b <=? c) = true → (a <=? c) = true.
Proof. rewrite !Z.leb_le. lia. Qed.

(** The dictionary that [group_by_parent] builds before it replaces the
    parent identifiers by nodes. *)
Lemma by_parent_id (nas : list (loc * Attrib)) :
  let grouped := sorted Z.leb (λ x : loc * Z * Rel, x.1.2) (concat (map edges_of nas)) in
  let grouped : list (Z * list (loc * Rel)) :=
    dict_of (map (λ kV : Z * list (loc * Z * Rel),
                    (kV.1, map (λ v : loc * Z * Rel, (v.1.1, v.2)) kV.2))
               (groupby (λ x : loc * Z * Rel, x.1.2) grouped)) in
  NoDup (map fst grouped)
  ∧ ∀ k, dict_get k grouped
         = if decide (edges_under nas k = []) then None else Some (edges_under nas k).
Proof.
  intros sortedE D.
  set (pkey := λ x : loc * Z * Rel, x.1.2) in *.
  destruct (groupby_sorted Z.leb pkey Z_leb_antisym sortedE) as [Hnd Hget].
  { apply sorted_StronglySorted; [apply Z_leb_total|apply Z_leb_trans]. }
  assert (HD : D = map (λ kV : Z * list (loc * Z * Rel),
                          (kV.1, map (λ v : loc * Z * Rel, (v.1.1, v.2)) kV.2))
                     (groupby pkey sortedE)).
  { unfold D. apply dict_of_NoDup. by rewrite map_map. }
  split; [by rewrite HD, map_map|].
  intros k. rewrite HD, dict_get_fmap, Hget. unfold sortedE.
  rewrite sorted_filter_key by (intros a; by apply Z.leb_le).
  unfold edges_under. clear Hget HD Hnd. subst D sortedE pkey. cbv beta.
  destruct (filter (λ x : loc * Z * Rel, x.1.2 = k) (concat (map edges_of nas)))
    as [|x r] eqn:Ef.
  - rewrite decide_False; [done|].
    intros (y & Hy & Hin)%list_elem_of_fmap_1.
    apply (proj1 (elem_of_sorted _ _ _ _)) in Hin.
    eapply (filter_nil_not_elem_of _ _ _ Ef); [|done]. by symmetry.
  - rewrite decide_True; [done|].
    assert (Hin : x ∈ filter (λ x : loc * Z * Rel, x.1.2 = k) (concat (map edges_of nas)))
      by (rewrite Ef; left).
    apply list_elem_of_filter in Hin as [<- Hin].
    apply (list_elem_of_fmap_2 (λ x : loc * Z * Rel, x.1.2)). by apply elem_of_sorted.
Qed.

Lemma group_by_parent_inv (fuel : nat) (s : store) (xtree : loc) (g : Grouped) :
  group_by_parent fuel s xtree = Ok g →
  ∃ nodes nas,
    Lassy.iter fuel s xtree = Ok nodes
    ∧ mapM (λ l, a ← get s l; Ok (l, a)) nodes = Ok nas
    ∧ NoDup (map fst g)
    ∧ (∀ k, edges_under nas k ≠ [] →
         ∃ key, node_of_id nas k = Ok key ∧ dict_get key g = Some (edges_under nas k))
    ∧ (∀ key ch, dict_get key g = Some ch →
         ∃ k, node_of_id nas k = Ok key ∧ ch = edges_under nas k ∧ ch ≠ []).
Proof.
  unfold group_by_parent. intros H.
  destruct (Lassy.iter fuel s xtree) as [nodes| | |] eqn:En; simpl in H; try done.
  destruct (mapM _ nodes) as [nas| | |] eqn:Ea; simpl in H; try done.
  exists nodes, nas. split; [done|]. split; [done|].
  destruct (mapM_get_inv _ _ _ Ea) as [_ Hnas].
  destruct (by_parent_id nas) as [HndD HgetD]. cbv zeta in HndD, HgetD.
  destruct (rekey_spec (node_of_id nas)
              (λ k1 k2 key, node_of_id_inj s nas k1 k2 key Hnas) _ _ _ H HndD)
    as (Hnd & Hall & Hget); [constructor|].
  split; [done|]. split.
  - intros k Hk. destruct (Hall k) as [key Hkey].
    { match goal with |- k ∈ ?l => destruct (decide (k ∈ l)) as [|Hn]; [done|] end.
      apply dict_get_None in Hn. rewrite HgetD, decide_False in Hn by done. done. }
    exists key. split; [done|]. apply Hget. left. exists k. split; [done|].
    rewrite HgetD. by rewrite decide_False.
  - intros key ch [(k & Hk & Hd)|[Hd _]]%Hget; [|done].
    rewrite HgetD in Hd. case_decide as He; [done|]. simplify_eq. eauto.
Qed.

Lemma elem_of_edges_under (nas : list (loc * Attrib)) (k : Z) (c : loc) (r : Rel) :
  (c, r) ∈ edges_under nas k ↔
  ∃ a, (c, a) ∈ nas
       ∧ ((∃ name, rel a = RelStr name ∧ k = -1 ∧ r = Plain "top")
          ∨ (∃ d, rel a = RelDict d ∧ (k, r) ∈ d)).
Proof.
  unfold edges_under. split.
  - intros ([[c' k'] r'] & [= <- <-] & Hin)%list_elem_of_fmap_1.
    apply list_elem_of_filter in Hin as [Hk Hin]. simpl in Hk. subst k'.
    apply elem_of_concat in Hin as (es & Hes & Hin).
    apply list_elem_of_fmap_1 in Hes as ([n a] & -> & Hna).
    unfold edges_of in Hin. simpl in Hin. destruct (rel a) as [name|d] eqn:Er.
    + apply list_elem_of_singleton in Hin. simplify_eq. exists a. split; [done|].
      left. eauto.
    + apply list_elem_of_fmap_1 in Hin as ([k' r'] & [= -> -> ->] & Hd).
      exists a. split; [done|]. right. eauto.
  - intros (a & Hna & Hrel).
    apply (list_elem_of_fmap_2' _ _ (c, k, r)); [|done].
    apply list_elem_of_filter. split; [done|].
    apply elem_of_concat. exists (edges_of (c, a)).
    split; [by apply (list_elem_of_fmap_2 edges_of)|].
    unfold edges_of. simpl. destruct Hrel as [(name & -> & -> & ->)|(d & -> & Hd)].
    + left.
    + by apply (list_elem_of_fmap_2' _ _ (k, r)).
Qed.

(** [group_by_parent] lists under a parent the nodes whose [rel]
    dictionary has an entry for the identifier of the parent, with the
    relation of the entry, in document order; the nodes whose [rel] is a
    string come under [None] with the relation [top]. The parent of an
    identifier is the first node that carries it; no parent has an empty
    child list, and no key comes twice. *)
Theorem group_by_parent_edges (fuel : nat) (s : store) (xtree : loc) (g : Grouped) :
  group_by_parent fuel s xtree = Ok g →
  ∃ nodes nas,
    Lassy.iter fuel s xtree = Ok nodes
    ∧ mapM (λ l, a ← get s l; Ok (l, a)) nodes = Ok nas
    ∧ NoDup (map fst g)
    ∧ (∀ k, edges_under nas k ≠ [] →
         ∃ key, node_of_id nas k = Ok key ∧ dict_get key g = Some (edges_under nas k))
    ∧ (∀ key ch, dict_get key g = Some ch →
         ∃ k, node_of_id nas k = Ok key ∧ ch = edges_under nas k ∧ ch ≠ []).
Proof. apply group_by_parent_inv. Qed.

(** Under [None] come the nodes whose [rel] is a string, with the
    relation [top], when no [rel] dictionary has an entry for [-1]. *)
Theorem group_by_parent_root_edges (fuel : nat) (s : store) (xtree : loc) (g : Grouped)
    (ch : list (loc * Rel)) (c : loc) (r : Rel) :
  group_by_parent fuel s xtree = Ok g →
  (∀ l a d, get s l = Ok a → rel a = RelDict d → -1 ∉ map fst d) →
  dict_get None g = Some ch → (c, r) ∈ ch →
  r = Plain "top" ∧ ∃ a name, get s c = Ok a ∧ rel a = RelStr name.
Proof.
  intros H Hids Hch Hc.
  destruct (group_by_parent_inv _ _ _ _ H) as (nodes & nas & _ & Ea & _ & _ & Hget).
  destruct (Hget _ _ Hch) as (k & Hk & -> & _). apply node_of_id_None in Hk. subst k.
  apply elem_of_edges_under in Hc as (a & Hna & Hrel).
  destruct (mapM_get_inv _ _ _ Ea) as [_ Hnas]. rewrite Forall_forall in Hnas.
  specialize (Hnas _ Hna). simpl in Hnas.
  destruct Hrel as [(name & Hr & _ & ->)|(d & Hr & Hd)]; [eauto|].
  exfalso. apply (Hids _ _ _ Hnas Hr). by apply (list_elem_of_fmap_2' fst _ (-1, r)).
Qed.


Lemma rekey_cases {K K' V} `{EqDecision K'} (f : K → result K') (e : exn)
    (rest : list (K * V)) (acc : list (K' * V)) :
  (∀ k, (∃ key, f k = Ok key) ∨ f k = Raise e) →
  (∃ g, foldM (λ (kv : K * V) (newdict : list (K' * V)),
                 newkey ← f kv.1; Ok (dict_set newkey kv.2 newdict)) rest acc = Ok g
        ∧ ∀ k, k ∈ map fst rest → ∃ key, f k = Ok key)
  ∨ foldM (λ (kv : K * V) (newdict : list (K' * V)),
             newkey ← f kv.1; Ok (dict_set newkey kv.2 newdict)) rest acc = Raise e.
Proof.
  intros Hf. revert acc. induction rest as [|[k0 v0] rest IH]; intros acc; cbn [foldM].
  - left. exists acc. split; [done|]. intros k Hk. inv Hk.
  - simpl. destruct (Hf k0) as [[key0 Hk0]|Hk0]; rewrite Hk0; simpl; [|by right].
    destruct (IH (dict_set key0 v0 acc)) as [(g & Hg & Hall)|Hr]; [|by right].
    left. exists g. split; [done|]. intros k [->|Hk]%elem_of_cons; eauto.
Qed.

(** [group_by_parent] raises IndexError when a [rel] dictionary has an
    entry for an identifier that no node carries. *)
Theorem group_by_parent_dangling (fuel : nat) (s : store) (xtree : loc)
    (nodes : list loc) (nas : list (loc * Attrib)) (k : Z) :
  Lassy.iter fuel s xtree = Ok nodes →
  mapM (λ l, a ← get s l; Ok (l, a)) nodes = Ok nas →
  edges_under nas k ≠ [] → k ≠ -1 →
  (∀ na, na ∈ nas → id na.2 ≠ k) →
  group_by_parent fuel s xtree = Raise IndexError.
Proof.
  intros En Ea Hk Hk1 Hid. unfold group_by_parent. rewrite En. simpl. rewrite Ea. simpl.
  destruct (by_parent_id nas) as [_ HgetD]. cbv zeta in HgetD.
  match goal with
  | |- foldM _ ?D _ = _ =>
      destruct (rekey_cases (node_of_id nas) IndexError D []) as [(g & _ & Hall)|Hr];
        [apply node_of_id_cases| |done]
  end.
  destruct (Hall k) as [key Hkey].
  { match goal with |- k ∈ ?l => destruct (decide (k ∈ l)) as [|Hn]; [done|] end.
    apply dict_get_None in Hn. rewrite HgetD, decide_False in Hn by done. done. }
  exfalso. unfold node_of_id in Hkey. rewrite decide_False in Hkey by done.
  destruct (filter _ nas) as [|na rest] eqn:Ef; [done|].
  assert (Hin : na ∈ filter (λ na : loc * Attrib, id na.2 = k) nas) by (rewrite Ef; left).
  apply list_elem_of_filter in Hin as [Hna Hin]. by apply (Hid na).
Qed.

End GroupByParent.

Lemma group_by_parent_edges_witness :
  ∃ g, Decompose.group_by_parent 2 Samples.dag_store 1%positive = Ok g
       ∧ NoDup (map fst g).
Proof.
  eexists. split; [vm_compute; reflexivity|].
  destruct (group_by_parent_edges 2 Samples.dag_store 1%positive _
              ltac:(vm_compute; reflexivity)) as (nodes & nas & _ & _ & Hnd & _).
  exact Hnd.
Defined.

Lemma group_by_parent_root_edges_witness :
  Plain "top" = Plain "top"
  ∧ ∃ a name, get Samples.dag_store 1%positive = Ok a ∧ rel a = RelStr name.
Proof.
  apply (group_by_parent_root_edges 2 Samples.dag_store 1%positive Samples.dag_grouped
           [(1%positive, Plain "top")] 1%positive (Plain "top")).
  - vm_compute. reflexivity.
  - intros l a d Ha Hr. unfold get in Ha.
    destruct (Samples.dag_store !! l) as [e|] eqn:He; [|done]. injection Ha as <-.
    apply (elem_of_map_to_list Samples.dag_store) in He.
    vm_compute map_to_list in He. elem_cases; compute_done.
  - reflexivity.
  - left.
Defined.

Lemma group_by_parent_dangling_witness :
  Decompose.group_by_parent 2 Samples.dangling_store 1%positive = Raise IndexError.
Proof.
  eapply (group_by_parent_dangling 2 Samples.dangling_store 1%positive _ _ 7).
  - vm_compute. reflexivity.
  - vm_compute. reflexivity.
  - vm_compute. discriminate.
  - done.
  - intros na Hna. elem_cases; vm_compute; discriminate.
Defined.

(** ** get_disconnected *)

Section GetDisconnected.
Import Decompose.

Lemma dict_get_elem_NoDup {K V} `{EqDecision K} (k : K) (v : V) (d : list (K * V)) :
  NoDup (map fst d) → (k, v) ∈ d → dict_get k d = Some v.
Proof.
  induction d as [|[k0 v0] d IH]; simpl; [intros _ H; inv H|].
  intros [Hk0 Hnd]%NoDup_cons [[= -> ->]|Hin]%elem_of_cons.
  - by rewrite decide_True.
  - rewrite decide_False; [by apply IH|]. intros ->. apply Hk0.
    by apply (list_elem_of_fmap_2' fst _ (k, v)).
Qed.


(** The children listed in a dictionary. *)
Lemma all_children_spec (g : Grouped) (x : option loc) :
  NoDup (map fst g) →
  x ∈ map (λ x : loc * Rel, Some x.1)
        (concat (map (λ k, default [] (dict_get k g)) (map fst g)))
  ↔ ∃ k ch c r, (k, ch) ∈ g ∧ (c, r) ∈ ch ∧ x = Some c.
Proof.
  intros Hnd. split.
  - intros ([c r] & -> & Hin)%list_elem_of_fmap_1.
    apply elem_of_concat in Hin as (ch & Hch & Hin).
    apply list_elem_of_fmap_1 in Hch as (k & -> & Hk).
    destruct (dict_get k g) as [ch|] eqn:Eg; [|inv Hin]. simpl in Hin.
    exists k, ch, c, r. split; [by apply dict_get_Some_elem|done].
  - intros (k & ch & c & r & Hk & Hc & ->).
    apply (list_elem_of_fmap_2' (λ x : loc * Rel, Some x.1) _ (c, r)); [|done].
    apply elem_of_concat. exists ch. split; [|done].
    apply (list_elem_of_fmap_2' (λ k, default [] (dict_get k g)) _ k).
    + by apply (list_elem_of_fmap_2' fst _ (k, ch)).
    + by rewrite (dict_get_elem_NoDup _ _ _ Hnd Hk).
Qed.

Lemma forallb_Forall2 {A} (f : A → result bool) (l : list A) (bs : list bool) :
  Forall2 (λ x b, f x = Ok b) l bs →
  if forallb (λ b : bool, b) bs then ∀ x, x ∈ l → f x = Ok true
  else ∃ x, x ∈ l ∧ f x = Ok false.
Proof.
  induction 1 as [|x b l bs Hx _ IH]; simpl.
  - intros x Hx. inv Hx.
  - destruct b; simpl.
    + destruct (forallb _ bs).
      * intros y [->|Hy]%elem_of_cons; auto.
      * destruct IH as (y & Hy & Hfy). exists y. split; [by right|done].
    + exists x. split; [left|done].
Qed.

Lemma get_disconnected_inv (s : store) (g : Grouped)
    (res : asserted (gset (option loc))) :
  NoDup (map fst g) →
  get_disconnected s g = Ok res →
  match res with
  | Checked roots =>
      (∀ key, key ∈ roots ↔
         key ∈ map fst g ∧ ∀ k ch c r, (k, ch) ∈ g → (c, r) ∈ ch → key ≠ Some c)
      ∧ ∀ k ch c r, (k, ch) ∈ g → (c, r) ∈ ch → Some c ∉ map fst g →
          ∃ a, get s c = Ok a ∧ is_leaf a = true
  | AssertionError =>
      ∃ k ch c r a, (k, ch) ∈ g ∧ (c, r) ∈ ch ∧ (Some c ∉ map fst g)
                    ∧ get s c = Ok a ∧ is_leaf a = false
  end.
Proof.
  intros Hnd. unfold get_disconnected.
  set (all_keys := list_to_set (map fst g) : gset (option loc)).
  set (all_children := list_to_set _ : gset (option loc)).
  assert (Hkeys : ∀ x, x ∈ all_keys ↔ x ∈ map fst g)
    by (intros x; unfold all_keys; by rewrite elem_of_list_to_set).
  assert (Hch : ∀ x, x ∈ all_children ↔ ∃ k ch c r, (k, ch) ∈ g ∧ (c, r) ∈ ch ∧ x = Some c).
  { intros x. unfold all_children. rewrite elem_of_list_to_set. by apply all_children_spec. }
  clearbody all_keys all_children.
  destruct (mapM _ (elements (all_children ∖ all_keys))) as [leaves| | |] eqn:E;
    simpl; try done.
  apply mapM_Forall2, forallb_Forall2 in E.
  destruct (forallb _ leaves); intros [= <-].
  - split.
    + intros key. rewrite elem_of_difference, Hkeys, Hch. split.
      * intros [Hk Hn]. split; [done|]. intros k ch c r Hin Hc ->. apply Hn. eauto 10.
      * intros [Hk Hn]. split; [done|]. intros (k & ch & c & r & Hin & Hc & ->).
        by eapply Hn.
    + intros k ch c r Hin Hc Hn. specialize (E (Some c)). simpl in E.
      destruct (get s c) as [a| | |] eqn:Ea.
      * exists a. split; [done|]. enough (Ok (is_leaf a) = Ok true) by congruence.
        apply E. apply elem_of_elements, elem_of_difference. rewrite Hkeys, Hch.
        split; [eauto 10|done].
      * exfalso. enough (Raise e ≫= (λ a, Ok (is_leaf a)) = Ok true) by done.
        apply E. apply elem_of_elements, elem_of_difference. rewrite Hkeys, Hch.
        split; [eauto 10|done].
      * exfalso. enough (OutOfFuel ≫= (λ a, Ok (is_leaf a)) = Ok true) by done.
        apply E. apply elem_of_elements, elem_of_difference. rewrite Hkeys, Hch.
        split; [eauto 10|done].
      * exfalso. enough (Stuck ≫= (λ a, Ok (is_leaf a)) = Ok true) by done.
        apply E. apply elem_of_elements, elem_of_difference. rewrite Hkeys, Hch.
        split; [eauto 10|done].
  - destruct E as (x & Hx & Hfx).
    apply elem_of_elements, elem_of_difference in Hx as [Hx Hn].
    apply Hch in Hx as (k & ch & c & r & Hin & Hc & ->). rewrite Hkeys in Hn.
    simpl in Hfx. destruct (get s c) as [a| | |] eqn:Ea; simplify_eq/=.
    exists k, ch, c, r, a. done.
Qed.

(** [get_disconnected] returns the keys that are not a child of any key;
    its assertion holds when every child that is not a key is a leaf, and
    fails when some child that is not a key carries no [word]. *)
Theorem get_disconnected_roots (s : store) (g : Grouped) :
  NoDup (map fst g) →
  (∀ roots, get_disconnected s g = Ok (Checked roots) →
     (∀ key, key ∈ roots ↔
        key ∈ map fst g ∧ ∀ k ch c r, (k, ch) ∈ g → (c, r) ∈ ch → key ≠ Some c)
     ∧ ∀ k ch c r, (k, ch) ∈ g → (c, r) ∈ ch → Some c ∉ map fst g →
         ∃ a, get s c = Ok a ∧ is_leaf a = true)
  ∧ (get_disconnected s g = Ok AssertionError →
     ∃ k ch c r a, (k, ch) ∈ g ∧ (c, r) ∈ ch ∧ (Some c ∉ map fst g)
                   ∧ get s c = Ok a ∧ is_leaf a = false).
Proof.
  intros Hnd. split.
  - intros roots H. apply (get_disconnected_inv _ _ _ Hnd H).
  - intros H. apply (get_disconnected_inv _ _ _ Hnd H).
Qed.

End GetDisconnected.

Lemma get_disconnected_roots_witness :
  ∃ roots, Decompose.get_disconnected Samples.dag_store Samples.dag_grouped
             = Ok (Decompose.Checked roots)
           ∧ (None ∈ roots).
Proof.
  assert (H : { roots | Decompose.get_disconnected Samples.dag_store Samples.dag_grouped
                        = Ok (Decompose.Checked roots) }).
  { eexists. vm_compute. reflexivity. }
  destruct H as [roots H]. exists roots. split; [done|].
  destruct (get_disconnected_roots Samples.dag_store Samples.dag_grouped) as [Hr _];
    [compute_done|].
  destruct (Hr roots H) as [Hroots _]. apply Hroots.
  split; [compute_done|]. intros k ch c r _ _. done.
Defined.

(** ** __call__ *)

Section Calling.
Import Decompose.

Lemma mapM_never {A B} (f : A → result B) (l : list A) (x : A) (r : list B) :
  x ∈ l → (∀ y, f x ≠ Ok y) → mapM f l ≠ Ok r.
Proof.
  intros Hx Hf H. apply mapM_Forall2 in H.
  apply list_elem_of_lookup in Hx as [i Hi].
  destruct (Forall2_lookup_l _ _ _ _ _ H Hi) as (y & _ & Hy). by apply Hf in Hy.
Qed.

Section Call.
Context `{TA : TypeAlgebra}.
Variable set_iter : list string → list string.
Variable set_iter_nodes : list loc → list loc.
Variable set_iter_keys : gset (option loc) → list (option loc).

Local Abbreviation call' := (call set_iter set_iter_nodes set_iter_keys).

Lemma assign_from_None (self : Decompose) (fuel : nat) (s : store) (grouped : Grouped)
    (lexicon lexicon' : gmap string WType) :
  assign_from set_iter self fuel s grouped None lexicon ≠ Ok lexicon'.
Proof.
  unfold assign_from. destruct (children_of grouped None); simpl; try done.
  by destruct (choose_head self a).
Qed.

(** With [unify] and [return_lists] both set, [__call__] returns no
    lexicon: when the type assignment has gone through, the conversion to
    lists is called without its [grouped] argument and raises TypeError. *)
Theorem call_unify_lists (self : Decompose) (fuel : nat) (s : store) (grouped : Grouped) :
  unify self = true → return_lists self = true →
  (∀ out, call' self fuel s grouped ≠ Ok (Checked out))
  ∧ ∀ roots lexicon,
      get_disconnected s grouped = Ok (Checked roots) →
      foldM (assign_from set_iter self fuel s grouped) (set_iter_keys roots) ∅ = Ok lexicon →
      call' self fuel s grouped = Raise TypeError.
Proof.
  intros Hu Hr. unfold call. rewrite Hu, Hr. split.
  - intros out. destruct (get_disconnected s grouped) as [[roots|]| | |]; simpl; try done.
    by destruct (foldM _ _ _).
  - intros roots lexicon -> H. simpl. by rewrite H.
Qed.

(** [__call__] returns no lexicon for a dictionary that has the root
    sentinel [None] among its keys: [None] is a top node, and the type
    assignment reads its attributes. *)
Theorem call_needs_node_keys (self : Decompose) (fuel : nat) (s : store) (grouped : Grouped) :
  (∀ X x, x ∈ X → x ∈ set_iter_keys X) →
  NoDup (map fst grouped) →
  None ∈ map fst grouped →
  ∀ out, call' self fuel s grouped ≠ Ok (Checked out).
Proof.
  intros Hiter Hnd Hnone out. unfold call.
  destruct (get_disconnected s grouped) as [[roots|]| | |] eqn:Ed; simpl; try done.
  pose proof (get_disconnected_inv _ _ _ Hnd Ed) as [Hroots _].
  assert (Hin : None ∈ set_iter_keys roots).
  { apply Hiter, Hroots. split; [done|]. intros k ch c r _ _. done. }
  destruct (unify self).
  - destruct (foldM _ _ _) as [lexicon| | |] eqn:Ef; simpl; try done.
    exfalso. eapply foldM_never in Ef; [done|exact Hin|].
    intros st st'. apply assign_from_None.
  - destruct (mapM _ _) as [dicts| | |] eqn:Em; simpl; try done.
    exfalso. eapply mapM_never in Em; [done|exact Hin|].
    intros y. apply assign_from_None.
Qed.

End Call.

End Calling.

Lemma call_unify_lists_witness :
  Decompose.call sorted_set_iter remove_dups elements Samples.unifying 2
    Samples.zowel_als_store Samples.zowel_als_grouped
  = Raise TypeError.
Proof.
  assert (H : { roots | Decompose.get_disconnected Samples.zowel_als_store
                          Samples.zowel_als_grouped = Ok (Decompose.Checked roots) }).
  { eexists. vm_compute. reflexivity. }
  destruct H as [roots H].
  assert (H' : { lexicon |
                 foldM (Decompose.assign_from sorted_set_iter Samples.unifying 2
                          Samples.zowel_als_store Samples.zowel_als_grouped)
                   (elements roots) ∅ = Ok lexicon }).
  { vm_compute in H. injection H as <-. eexists. vm_compute. reflexivity. }
  destruct H' as [lexicon H'].
  destruct (call_unify_lists sorted_set_iter remove_dups elements Samples.unifying 2
              Samples.zowel_als_store Samples.zowel_als_grouped eq_refl eq_refl)
    as [_ Hraise].
  exact (Hraise roots lexicon H H').
Defined.

Lemma call_needs_node_keys_witness :
  (None ∈ map fst Samples.dag_grouped)
  ∧ ∀ out,
      Decompose.call sorted_set_iter remove_dups elements
        (Decompose.init (TA := Ty_algebra) (λ w, w) "|") 2
        Samples.dag_store Samples.dag_grouped
      ≠ Ok (Decompose.Checked out).
Proof.
  split; [compute_done|].
  apply (call_needs_node_keys (TA := Ty_algebra) sorted_set_iter remove_dups elements).
  - intros X x Hx. by apply elem_of_elements.
  - compute_done.
  - compute_done.
Defined.

(** ** recursive_assignment: the entries of the lexicon *)

Section Coverage.
Import Decompose.

Section Assignment.
Context `{TA : TypeAlgebra}.
Variable set_iter : list string → list string.
Variable self : Decompose.

Local Abbreviation rec := (recursive_assignment set_iter self).

Lemma assign_head_insert (ha : Attrib) (gap : bool) (argtypes : list WType)
    (top_type : WType) (argdeps : list string) (lexicon lexicon' : gmap string WType) :
  assign_head self ha gap argtypes top_type argdeps lexicon = Ok lexicon' →
  ∃ key, get_key self ha = Ok key
         ∧ lexicon' = <[key := coloured argtypes top_type argdeps gap]> lexicon.
Proof.
  unfold assign_head. destruct (get_key self ha) as [key| | |]; simpl; try done.
  intros Hx. exists key. split; [done|].
  destruct (lexicon !! key); [destruct gap|]; repeat case_match; by simplify_eq.
Qed.

Lemma assign_sibling_insert (sa : Attrib) (plain : WType) (rel : Rel)
    (lexicon lexicon' : gmap string WType) :
  assign_sibling self sa plain rel lexicon = Ok lexicon' →
  ∃ key t, get_key self sa = Ok key ∧ lexicon' = <[key := t]> lexicon.
Proof.
  unfold assign_sibling. destruct (is_gap rel).
  - destruct (get_key self sa) as [key| | |]; simpl; try done.
    destruct (lexicon !! key) as [pt|]; [|done]. case_match.
    + intros [= <-]. eauto.
    + intros Hx. bind_inv Hx. simplify_eq. eauto.
  - destruct (get_key self sa) as [key| | |]; simpl; try done. intros [= <-]. eauto.
Qed.

(** The type assignment adds and overwrites entries of the lexicon; it
    removes none. *)
Lemma recursive_assignment_dom (fuel : nat) (s : store) (grouped : Grouped) (current : loc)
    (top_type : option WType) (lexicon lexicon' : gmap string WType) :
  rec fuel s grouped current top_type lexicon = Ok lexicon' →
  dom lexicon ⊆ dom lexicon'.
Proof.
  revert current top_type lexicon lexicon'.
  induction fuel as [|f IH]; intros current top_type lexicon lexicon'; [done|].
  cbn [recursive_assignment]. intros H.
  destruct (children_of grouped (Some current)) as [siblings| | |]; simpl in H; try done.
  destruct (choose_head self siblings) as [[headchild headrel]| | |]; simpl in H; try done.
  match type of H with
  | (?m ≫= _) = _ => destruct m as [tt| | |]; simpl in H; try done
  end.
  destruct (order_siblings s siblings headchild) as [sibs| | |]; simpl in H; try done.
  match type of H with
  | (?m ≫= _) = _ => destruct m as [lexicon1| | |] eqn:Ehead; simpl in H; try done
  end.
  assert (H1 : dom lexicon ⊆ dom lexicon1).
  { destruct headchild as [hc|]; [|by simplify_eq].
    destruct (mapM _ sibs) as [arglist| | |]; simpl in Ehead; try done.
    destruct (get s hc) as [ha| | |]; simpl in Ehead; try done.
    destruct (is_leaf ha).
    - apply assign_head_insert in Ehead as (key & _ & ->). set_solver.
    - by eapply IH. }
  etrans; [exact H1|].
  refine (foldM_rel _ (λ l l' : gmap string WType, dom l ⊆ dom l') _ _ _ _ _ _ H).
  - done.
  - intros l1 l2 l3 ? ?. by etrans.
  - intros sr l l' _ Hstep. simpl in Hstep.
    destruct (get s sr.1) as [sa| | |]; simpl in Hstep; try done.
    destruct (is_leaf sa).
    + destruct (get_plain_type _ _ _ _ _ _) as [plain| | |]; simpl in Hstep; try done.
      apply assign_sibling_insert in Hstep as (key & t & _ & ->). set_solver.
    + destruct (is_gap sr.2); [done|]. by eapply IH.
Qed.

Lemma foldM_reaches {A St} (body : A → St → result St) (R : St → St → Prop) (Q : St → Prop)
    (l : list A) (x : A) (st st' : St) :
  (∀ st, R st st) → (∀ st1 st2 st3, R st1 st2 → R st2 st3 → R st1 st3) →
  (∀ y st st', body y st = Ok st' → R st st') →
  (∀ st st', R st st' → Q st → Q st') →
  (∀ st st', body x st = Ok st' → Q st') →
  x ∈ l → foldM body l st = Ok st' → Q st'.
Proof.
  intros Hrefl Htrans Hbody HQ Hx. revert st. induction l as [|y l IH]; intros st Hin;
    [inv Hin|].
  cbn [foldM]. intros H. destruct (body y st) as [st1| | |] eqn:E; simpl in H; try done.
  apply elem_of_cons in Hin as [<-|Hin]; [|by eapply IH].
  eapply HQ; [|by eapply Hx].
  eapply (foldM_rel body R); eauto.
Qed.

(** After the type assignment for a node, the lexicon has the entries it
    had before, and an entry for every child of the node that is a
    leaf. *)
Theorem recursive_assignment_covers (fuel : nat) (s : store) (grouped : Grouped)
    (current : loc) (top_type : option WType) (lexicon lexicon' : gmap string WType) :
  rec fuel s grouped current top_type lexicon = Ok lexicon' →
  dom lexicon ⊆ dom lexicon'
  ∧ ∀ ch c r a, dict_get (Some current) grouped = Some ch → (c, r) ∈ ch →
      get s c = Ok a → is_leaf a = true →
      ∃ key, get_key self a = Ok key ∧ key ∈ dom lexicon'.
Proof.
  intros H. split; [by eapply recursive_assignment_dom|].
  intros ch c r a Hch Hc Ha Hleaf. destruct fuel as [|f]; [done|].
  cbn [recursive_assignment] in H. unfold children_of in H. rewrite Hch in H. simpl in H.
  destruct (choose_head self ch) as [[headchild headrel]| | |]; simpl in H; try done.
  match type of H with
  | (?m ≫= _) = _ => destruct m as [tt| | |]; simpl in H; try done
  end.
  destruct (order_siblings s ch headchild) as [sibs| | |] eqn:Es; simpl in H; try done.
  apply order_siblings_perm in Es.
  match type of H with
  | (?m ≫= _) = _ => destruct m as [lexicon1| | |] eqn:Ehead; simpl in H; try done
  end.
  set (step := λ (sr : loc * Rel) (lexicon : gmap string WType),
         sa ← get s sr.1;
         if is_leaf sa then
           plain ← get_plain_type set_iter self f s grouped sr.1;
           assign_sibling self sa plain sr.2 lexicon
         else if is_gap sr.2 then Raise NotImplementedError
         else rec f s grouped sr.1 None lexicon) in H.
  assert (Hstep : ∀ y st st', step y st = Ok st' → dom st ⊆ dom st').
  { intros sr l l' Hstep. unfold step in Hstep.
    destruct (get s sr.1) as [sa| | |]; simpl in Hstep; try done.
    destruct (is_leaf sa).
    - destruct (get_plain_type _ _ _ _ _ _) as [plain| | |]; simpl in Hstep; try done.
      apply assign_sibling_insert in Hstep as (key & t & _ & ->). set_solver.
    - destruct (is_gap sr.2); [done|]. by eapply recursive_assignment_dom. }
  assert (Hmono : dom lexicon1 ⊆ dom lexicon').
  { refine (foldM_rel _ (λ l l' : gmap string WType, dom l ⊆ dom l') _ _ _ _ _ _ H);
      [done|intros l1 l2 l3 ? ?; by etrans|]. intros y st st' _. apply Hstep. }
  assert (Hsib : (c, r) ∈ sibs →
                 ∃ key, get_key self a = Ok key ∧ key ∈ dom lexicon').
  { intros Hin.
    refine (foldM_reaches step (λ l l' : gmap string WType, dom l ⊆ dom l')
              (λ l, ∃ key, get_key self a = Ok key ∧ key ∈ dom l)
              sibs (c, r) lexicon1 lexicon' _ _ Hstep _ _ Hin H).
    - done.
    - intros l1 l2 l3 ? ?. by etrans.
    - intros l l' Hl (key & Hk & Hd). exists key. split; [done|]. set_solver.
    - intros l l' Hs. unfold step in Hs. simpl in Hs. rewrite Ha in Hs. simpl in Hs.
      rewrite Hleaf in Hs.
      destruct (get_plain_type _ _ _ _ _ _) as [plain| | |]; simpl in Hs; try done.
      apply assign_sibling_insert in Hs as (key & t & Hk & ->). exists key.
      split; [done|]. set_solver. }
  destruct headchild as [hc|].
  - destruct (decide (c = hc)) as [->|Hne].
    + destruct (mapM _ sibs) as [arglist| | |]; simpl in Ehead; try done.
      rewrite Ha in Ehead. simpl in Ehead. rewrite Hleaf in Ehead.
      apply assign_head_insert in Ehead as (key & Hk & ->). exists key.
      split; [done|]. set_solver.
    + apply Hsib. rewrite Es. by apply list_elem_of_filter.
  - apply Hsib. by rewrite Es.
Qed.

End Assignment.

End Coverage.

Lemma recursive_assignment_covers_witness :
  ∃ lexicon' key,
    Decompose.recursive_assignment sorted_set_iter (Decompose.init (λ w, w) "|") 2
      Samples.zowel_als_store Samples.zowel_als_grouped 1%positive None ∅ = Ok lexicon'
    ∧ key = "a|3" ∧ key ∈ dom lexicon'.
Proof.
  assert (H : { lexicon' |
                Decompose.recursive_assignment (TA := Ty_algebra) sorted_set_iter
                  (Decompose.init (λ w, w) "|") 2
                  Samples.zowel_als_store Samples.zowel_als_grouped 1%positive None ∅
                = Ok lexicon' }).
  { eexists. vm_compute. reflexivity. }
  destruct H as [lexicon' H].
  destruct (recursive_assignment_covers (TA := Ty_algebra) sorted_set_iter
              (Decompose.init (λ w, w) "|") 2
              Samples.zowel_als_store Samples.zowel_als_grouped 1%positive None ∅ lexicon' H)
    as [_ Hcov].
  destruct (Hcov _ 3%positive (Plain "cnj") _ eq_refl ltac:(compute_done) eq_refl eq_refl)
    as (key & Hkey & Hdom).
  exists lexicon', key. split; [done|]. split; [|done].
  vm_compute in Hkey. by injection Hkey as <-.
Defined.

(** ** find_main_coindex: the groups *)

Section CoindexGroups.
Import Lassy.

Lemma pick_main_cases (inodes : string * list (loc * Attrib)) :
  (∃ m, pick_main inodes = Ok (inodes.1, m)
        ∧ m ∈ map fst (filter (λ na, is_main_candidate na = true) inodes.2))
  ∨ (pick_main inodes = Raise IndexError
     ∧ filter (λ na, is_main_candidate na = true) inodes.2 = []).
Proof.
  unfold pick_main. destruct (filter _ inodes.2) as [|na r]; [by right|].
  left. exists na.1. split; [done|]. simpl. left.
Qed.

Lemma mapM_pick_main_cases (d : list (string * list (loc * Attrib))) :
  (∃ m, mapM pick_main d = Ok m ∧ map fst m = map fst d
        ∧ Forall (λ kg, filter (λ na, is_main_candidate na = true) kg.2 ≠ []) d)
  ∨ mapM pick_main d = Raise IndexError.
Proof.
  induction d as [|kg d IH]; [left; by exists []|]. cbn [mapM].
  destruct (pick_main_cases kg) as [(m & -> & Hm)|[-> _]]; [|by right]. simpl.
  destruct IH as [(ms & -> & Hkeys & Hall)| -> ]; [|by right]. simpl. left.
  eexists. split; [done|]. simpl. split; [by rewrite Hkeys|]. constructor; [|done].
  intros Hnil. rewrite Hnil in Hm. inv Hm.
Qed.

(** The groups of [find_main_coindex]: an index has a group when some
    node carries it, the group lists the nodes that carry it in document
    order, and [main_coind] has the same keys. *)
Theorem find_main_coindex_groups (fuel : nat) (s : store) (xtree : loc)
    (all_coind : list (string * list loc)) (main_coind : list (string * loc)) :
  find_main_coindex fuel s xtree = Ok (all_coind, main_coind) →
  ∃ nodes nas,
    iter fuel s xtree = Ok nodes
    ∧ mapM (λ l, a ← get s l; Ok (l, a)) nodes = Ok nas
    ∧ NoDup (map fst all_coind)
    ∧ map fst main_coind = map fst all_coind
    ∧ ∀ i grp, dict_get i all_coind = Some grp ↔
        grp ≠ [] ∧ grp = map fst (filter (λ na : loc * Attrib, index na.2 = Some i) nas).
Proof.
  unfold find_main_coindex. intros H.
  destruct (iter fuel s xtree) as [nodes| | |] eqn:En; simpl in H; try done.
  destruct (mapM _ nodes) as [nas| | |] eqn:Ea; simpl in H; try done.
  exists nodes, nas. split; [done|]. split; [done|].
  assert (Hgrp : ∀ i, i ∈ map fst (coindexed_of nas) ↔
                      filter (λ na : loc * Attrib, index na.2 = Some i) nas ≠ []).
  { intros i. rewrite coindexed_of_keys. split.
    - intros (na & Hna & Hi) Hnil.
      eapply (filter_nil_not_elem_of _ _ _ Hnil); [|done]. done.
    - intros Hne. destruct (filter _ nas) as [|na r] eqn:Ef; [done|].
      assert (Hin : na ∈ filter (λ na : loc * Attrib, index na.2 = Some i) nas)
        by (rewrite Ef; left).
      apply list_elem_of_filter in Hin as [? ?]. eauto. }
  destruct (coindexed_of nas) as [|c cs] eqn:Ec.
  { simplify_eq. split; [constructor|]. split; [done|]. intros i grp. split; [done|].
    intros [Hne ->]. exfalso. apply Hne.
    destruct (filter _ nas) eqn:Ef; [done|]. exfalso.
    assert (Hi : i ∈ @nil string); [|inv Hi]. apply Hgrp. by rewrite Ef. }
  rewrite <- Ec in *. clear c cs Ec.
  destruct (all_coind_groups nas) as [Hnd Hget]. cbv zeta in Hnd, Hget.
  rewrite dict_of_NoDup in H by done.
  match type of H with
  | context [mapM pick_main ?d] =>
      destruct (mapM_pick_main_cases d) as [(m & Hm & Hkeys & _)|Hm];
        rewrite Hm in H; simpl in H; [|done]
  end.
  injection H as <- <-. rewrite dict_of_NoDup by (by rewrite Hkeys).
  assert (Hk2 : ∀ d : list (string * list (loc * Attrib)),
            map fst (map (λ inodes : string * list (loc * Attrib),
                            (inodes.1, map fst inodes.2)) d) = map fst d).
  { intros d. rewrite map_map. by apply map_ext. }
  rewrite Hk2. split; [done|]. split; [done|].
  intros i grp.
  rewrite (dict_get_fmap (map fst)), Hget.
  case_decide as Hi; simpl.
  - apply Hgrp in Hi. split.
    + intros [= <-]. split; [|done]. intros Hnil. apply Hi.
      by apply fmap_nil_inv in Hnil.
    + intros [_ ->]. done.
  - split; [done|]. intros [Hne ->]. exfalso. apply Hi, Hgrp. intros Hnil.
    by rewrite Hnil in Hne.
Qed.

(** [find_main_coindex] raises IndexError when some index is carried
    only by nodes that have neither [cat] nor [word]. *)
Theorem find_main_coindex_orphan_group (fuel : nat) (s : store) (xtree : loc)
    (nodes : list loc) (nas : list (loc * Attrib)) (na : loc * Attrib) (i : string) :
  iter fuel s xtree = Ok nodes →
  mapM (λ l, a ← get s l; Ok (l, a)) nodes = Ok nas →
  na ∈ nas → index na.2 = Some i →
  (∀ na', na' ∈ nas → index na'.2 = Some i → is_main_candidate na' = false) →
  find_main_coindex fuel s xtree = Raise IndexError.
Proof.
  intros En Ea Hna Hi Hnone. unfold find_main_coindex. rewrite En. simpl. rewrite Ea. simpl.
  assert (Hin : i ∈ map fst (coindexed_of nas)) by (apply coindexed_of_keys; eauto).
  destruct (coindexed_of nas) as [|c cs] eqn:Ec; [inv Hin|].
  rewrite <- Ec in *. clear c cs Ec.
  destruct (all_coind_groups nas) as [Hnd Hget]. cbv zeta in Hnd, Hget.
  rewrite dict_of_NoDup by done.
  match goal with
  | |- context [mapM pick_main ?d] =>
      destruct (mapM_pick_main_cases d) as [(m & _ & _ & Hall)|Hm]; [|by rewrite Hm]
  end.
  exfalso. specialize (Hget i). rewrite decide_True in Hget by done.
  apply dict_get_Some_elem in Hget. rewrite Forall_forall in Hall.
  apply (Hall _ Hget). simpl.
  destruct (filter _ (filter _ nas)) as [|na' r] eqn:Ef; [done|].
  assert (Hin' : na' ∈ filter (λ na, is_main_candidate na = true)
                   (filter (λ na : loc * Attrib, index na.2 = Some i) nas))
    by (rewrite Ef; left).
  apply list_elem_of_filter in Hin' as [Hc Hin']. apply list_elem_of_filter in Hin' as [Hi' Hin'].
  rewrite (Hnone na' Hin' Hi') in Hc. done.
Qed.

End CoindexGroups.

Lemma find_main_coindex_groups_witness :
  ∃ all_coind main_coind,
    Lassy.find_main_coindex 2 Samples.coindex_store 1%positive = Ok (all_coind, main_coind)
    ∧ map fst main_coind = map fst all_coind.
Proof.
  assert (H : { r | Lassy.find_main_coindex 2 Samples.coindex_store 1%positive = Ok r }).
  { eexists. vm_compute. reflexivity. }
  destruct H as [[all_coind main_coind] H]. exists all_coind, main_coind. split; [done|].
  destruct (find_main_coindex_groups 2 Samples.coindex_store 1%positive _ _ H)
    as (nodes & nas & _ & _ & _ & Hkeys & _).
  exact Hkeys.
Defined.

Lemma find_main_coindex_orphan_group_witness :
  Lassy.find_main_coindex 2 Samples.orphan_group_store 1%positive = Raise IndexError.
Proof.
  eapply (find_main_coindex_orphan_group 2 Samples.orphan_group_store 1%positive _ _
            (3%positive, mkAttrib 2 1 2 None None None (Some "2") (RelStr "obj1")) "2").
  - vm_compute. reflexivity.
  - vm_compute. reflexivity.
  - compute_done.
  - reflexivity.
  - intros na' Hna Hi. elem_cases; done.
Defined.

(** ** split_dag: emptied keys and a second pass *)

Section SplitDagAgain.
Import Decompose.

(** A key all of whose edges carry a relation to remove is no key of the
    result of [split_dag]; so the root sentinel [None] goes when [top] is
    among the relations to remove and the edges under it are [top]
    edges. *)
Theorem split_dag_drops_emptied (s : store) (grouped grouped' : Grouped)
    (cats_to_remove rels_to_remove : list string) (key : option loc) :
  split_dag s grouped cats_to_remove rels_to_remove = Ok grouped' →
  (∀ ch c r, (key, ch) ∈ grouped → (c, r) ∈ ch → get_rel r ∈ rels_to_remove) →
  key ∉ map fst grouped'.
Proof.
  intros H Hall. pose proof (split_dag_no_empty_key _ _ _ _ _ H) as Hne.
  unfold split_dag in H.
  destruct (filterM _ (map fst grouped)) as [ktr| | |] eqn:Ek; simpl in H; try done.
  destruct (del_keys ktr grouped) as [g0| | |] eqn:E0; simpl in H; try done.
  destruct (mapM _ g0) as [g1| | |] eqn:E1; simpl in H; try done.
  apply filtered_edges in E1. apply (cascade_thinned (S (length g1))) in H.
  intros ([k ch'] & -> & Hin)%list_elem_of_fmap_1. simpl in *.
  destruct (H _ _ Hin) as (ch1 & Hin1 & Hsub).
  rewrite E1 in Hin1. apply list_elem_of_fmap_1 in Hin1 as ([k0 ch0] & [= -> ->] & Hin0).
  assert (Hg : (k0, ch0) ∈ grouped).
  { eapply elem_of_sublist; [done|]. by eapply del_keys_sublist. }
  destruct ch' as [|[c r] ch']; [by eapply Hne|].
  assert (Hc : (c, r) ∈ filter (λ cr : loc * Rel,
                  ¬ (py_in (Some cr.1) ktr = true ∨ py_in (get_rel cr.2) rels_to_remove = true))
                 ch0).
  { eapply elem_of_sublist; [|done]. left. }
  apply list_elem_of_filter in Hc as [Hbad Hc]. apply Hbad. right.
  unfold py_in. apply bool_decide_eq_true. by eapply Hall.
Qed.


Lemma filter_none {A} (P : A → Prop) `{∀ x, Decision (P x)} (l : list A) :
  (∀ x, x ∈ l → ¬ P x) → filter P l = [].
Proof.
  induction l as [|x l IH]; [done|]. intros Hl.
  rewrite filter_cons, decide_False by (apply Hl; left). apply IH.
  intros y Hy. apply Hl. by right.
Qed.

Lemma mapM_id {A} (f : A → result A) (l : list A) :
  Forall (λ x, f x = Ok x) l → mapM f l = Ok l.
Proof. induction 1 as [|x l Hx _ IH]; [done|]. cbn [mapM]. by rewrite Hx, IH. Qed.

Lemma filterM_Ok_elem {A} (p : A → result bool) (l r : list A) :
  filterM p l = Ok r → Forall (λ x, ∃ b, p x = Ok b) l.
Proof.
  revert r. induction l as [|x l IH]; intros r; cbn [filterM]; [constructor|].
  intros H. destruct (p x) as [b| | |] eqn:Ep; simpl in H; try done.
  destruct (filterM p l) as [r1| | |] eqn:Er; simpl in H; try done.
  constructor; eauto.
Qed.

(** A second pass of [split_dag] with the same categories and relations
    returns the dictionary as it is. *)
Theorem split_dag_idempotent (s : store) (grouped grouped' : Grouped)
    (cats_to_remove rels_to_remove : list string) :
  NoDup (map fst grouped) →
  split_dag s grouped cats_to_remove rels_to_remove = Ok grouped' →
  split_dag s grouped' cats_to_remove rels_to_remove = Ok grouped'.
Proof.
  intros Hnd H. destruct (split_dag_inv _ _ _ _ _ Hnd H) as (Hth & Hcat & Hed & Hne).
  assert (Hget : Forall (λ key : option loc,
             ∃ b, match key with
                  | None => Ok false
                  | Some k =>
                      a ← get s k;
                      Ok (match cat a with Some c => py_in c cats_to_remove | None => false end)
                  end = Ok b) (map fst grouped')).
  { unfold split_dag in H.
    destruct (filterM _ (map fst grouped)) as [ktr| | |] eqn:Ek; simpl in H; try done.
    apply filterM_Ok_elem in Ek. rewrite Forall_forall in Ek. apply Forall_forall.
    intros key Hkey. apply Ek. by eapply thinned_keys. }
  unfold split_dag.
  destruct (filterM_returns _ _ Hget) as [ktr Hk]. rewrite Hk. simpl.
  apply keys_to_remove_filter in Hk.
  assert (ktr = []) as ->.
  { rewrite Hk. destruct (filter _ (map fst grouped')) as [|key r] eqn:Ef; [done|].
    assert (Hin : key ∈ filter (λ key, has_cat_in s cats_to_remove key = true)
                    (map fst grouped')) by (rewrite Ef; left).
    apply list_elem_of_filter in Hin as [Hc Hin]. rewrite (Hcat _ Hin) in Hc. done. }
  simpl. rewrite mapM_id.
  - simpl. destruct (empty_keys_of grouped') as [|key r] eqn:Ee; [done|].
    assert (Hin : key ∈ empty_keys_of grouped') by (rewrite Ee; left).
    unfold empty_keys_of in Hin.
    apply list_elem_of_fmap_1 in Hin as ([k ch] & -> & Hin).
    apply list_elem_of_filter in Hin as [Hnil Hin]. simpl in Hnil. subst ch.
    by apply Hne in Hin.
  - apply Forall_forall. intros [key ch] Hin. simpl.
    rewrite filter_none; [done|].
    intros [c r] Hc [Hbad|Hbad]; simpl in Hbad.
    + done.
    + destruct (Hed _ _ _ _ Hin Hc) as [_ Hr]. apply Hr.
      unfold py_in in Hbad. by apply bool_decide_eq_true in Hbad.
Qed.

End SplitDagAgain.

Lemma split_dag_drops_emptied_witness :
  ∃ grouped',
    Decompose.split_dag Samples.dag_store Samples.dag_grouped
      Decompose.default_cats_to_remove Decompose.default_rels_to_remove = Ok grouped'
    ∧ (None ∉ map fst grouped').
Proof.
  eexists. split; [vm_compute; reflexivity|].
  apply (split_dag_drops_emptied Samples.dag_store Samples.dag_grouped _
           Decompose.default_cats_to_remove Decompose.default_rels_to_remove None).
  - vm_compute. reflexivity.
  - intros ch c r Hin Hc. unfold Samples.dag_grouped in Hin. elem_cases. compute_done.
Defined.

Lemma split_dag_idempotent_witness :
  ∃ grouped',
    Decompose.split_dag Samples.hollow_store Samples.hollow_grouped
      Decompose.default_cats_to_remove Decompose.default_rels_to_remove = Ok grouped'
    ∧ Decompose.split_dag Samples.hollow_store grouped'
        Decompose.default_cats_to_remove Decompose.default_rels_to_remove = Ok grouped'.
Proof.
  eexists. split; [vm_compute; reflexivity|].
  apply (split_dag_idempotent Samples.hollow_store Samples.hollow_grouped).
  - compute_done.
  - vm_compute. reflexivity.
Defined.

(** ** tree_to_dag: what it changes *)

Section Rewiring.
Import Lassy.

Lemma rewired_refl s : rewired s s.
Proof. intros l. destruct (s !! l) as [[[] ?]|]; done. Qed.

Lemma rewired_trans s1 s2 s3 : rewired s1 s2 → rewired s2 s3 → rewired s1 s3.
Proof.
  intros H12 H23 l. specialize (H12 l). specialize (H23 l).
  destruct (s1 !! l) as [e1|], (s2 !! l) as [e2|], (s3 !! l) as [e3|]; try done.
  destruct H12 as [Ha1 Hc1], H23 as [Ha2 Hc2]. split; [|by etrans].
  rewrite <- Ha1, <- Ha2. by destruct (attrib e3).
Qed.

Lemma same_but_rel_rewired s s' : same_but_rel s s' → rewired s s'.
Proof.
  intros H l. specialize (H l). destruct (s !! l), (s' !! l); try done.
  destruct H as [-> ?]. done.
Qed.

Lemma mark_primary_rewired main_coind np s s' :
  mark_primary main_coind np s = Ok s' → rewired s s'.
Proof.
  unfold mark_primary. destruct np as [node parent].
  destruct (py_in _ _); [|intros [= <-]; apply rewired_refl].
  intros H. bind_inv H. destruct (rel a) as [r|]; [|done].
  by eapply same_but_rel_rewired, same_but_rel_upd.
Qed.

Lemma redirect_rewired main_coind np s s' :
  redirect main_coind np s = Ok s' → rewired s s'.
Proof.
  unfold redirect. destruct np as [node parent].
  intros H. destruct (get s node) as [a| | |] eqn:Ea; simpl in H; try done.
  destruct (rel a) as [r|]; [|injection H as <-; apply rewired_refl].
  destruct (index a) as [i|].
  - destruct parent as [p|]; simpl in H; [|done].
    destruct (get s p) as [pa| | |] eqn:Epa; simpl in H; try done.
    destruct (dict_get i main_coind) as [main|]; simpl in H; [|done].
    destruct (get s main) as [ma| | |] eqn:Ema; simpl in H; try done.
    destruct (rel ma) as [|d]; [done|].
    destruct (upd _ main s) as [s1| | |] eqn:Eu; simpl in H; try done.
    unfold get_children, get in H.
    destruct (s1 !! p) as [e1|] eqn:E1; simpl in H; [|done].
    destruct (py_remove node (children e1)) as [cs|] eqn:Er; simpl in H; [|done].
    injection H as <-.
    eapply rewired_trans; [by eapply same_but_rel_rewired, same_but_rel_upd|].
    intros l. destruct (decide (l = p)) as [->|Hne].
    + rewrite E1, lookup_insert_eq. simpl. split; [by destruct (attrib e1)|].
      by apply py_remove_Some in Er as [_ ?].
    + rewrite lookup_insert_ne by done. destruct (s1 !! l) as [[[] ?]|]; done.
  - destruct parent as [p|]; simpl in H; [|done].
    destruct (get s p) as [pa| | |] eqn:Epa; simpl in H; try done.
    by eapply same_but_rel_rewired, same_but_rel_upd.
Qed.

(** [tree_to_dag] rewrites [rel] attributes and removes children; it
    adds no element to the tree it works on (the given tree, or its copy
    when [inline] is off), removes none, and leaves the other attributes
    as they are. *)
Theorem tree_to_dag_rewires (fuel : nat) (s s' : store) (xtree r : loc) (inline : bool) :
  tree_to_dag fuel s xtree inline = Ok (s', r) →
  ∃ s0, (if inline then s0 = s ∧ r = xtree
         else ∃ memo, deepcopy fuel xtree (s, ∅) = Ok (r, (s0, memo)))
        ∧ rewired s0 s'.
Proof.
  unfold tree_to_dag. intros H.
  match type of H with
  | (?m ≫= _) = _ => destruct m as [[x0 s0]| | |] eqn:E0; simpl in H; try done
  end.
  destruct (extract_nodes fuel s0 x0) as [nodes| | |]; simpl in H; try done.
  destruct (find_main_coindex fuel s0 x0) as [[ac main_coind]| | |]; simpl in H; try done.
  destruct (foldM (mark_primary main_coind) _ s0) as [s1| | |] eqn:E1; simpl in H; try done.
  destruct (foldM (redirect main_coind) _ s1) as [s2| | |] eqn:E2; simpl in H; try done.
  injection H as <- <-. exists s0. split.
  - destruct inline; [by simplify_eq|].
    destruct (deepcopy fuel xtree (s, ∅)) as [[x' [sc memo]]| | |]; simplify_eq/=. eauto.
  - eapply rewired_trans.
    + refine (foldM_rel _ rewired _ _ _ rewired_refl rewired_trans _ E1).
      intros x st st' _. apply mark_primary_rewired.
    + refine (foldM_rel _ rewired _ _ _ rewired_refl rewired_trans _ E2).
      intros x st st' _. apply redirect_rewired.
Qed.

End Rewiring.

Lemma tree_to_dag_rewires_witness :
  ∃ s', Lassy.tree_to_dag 3 Samples.coindex_store 1%positive true = Ok (s', 1%positive)
        ∧ rewired Samples.coindex_store s'.
Proof.
  assert (H : { s' | Lassy.tree_to_dag 3 Samples.coindex_store 1%positive true
                     = Ok (s', 1%positive) }).
  { eexists. vm_compute. reflexivity. }
  destruct H as [s' H]. exists s'. split; [done|].
  destruct (tree_to_dag_rewires 3 Samples.coindex_store s' 1%positive 1%positive true H)
    as (s0 & [-> _] & Hre).
  exact Hre.
Defined.

(** ** extract_nodes and iter *)

Section ExtractNodes.
Import Lassy.

Lemma level_children (s : store) (parents : list loc) (level : list (list (loc * option loc)))
    (subs : list (list loc)) :
  mapM (λ parent, cs ← get_children s parent;
                  Ok (map (λ child, (child, Some parent)) cs)) parents = Ok level →
  Forall2 (λ p sub, ∃ f, iter f s p = Ok sub) parents subs →
  (∀ c p, (c, p) ∈ concat level →
     ∃ p' cs, p = Some p' ∧ get_children s p' = Ok cs ∧ c ∈ cs)
  ∧ ∃ subs', Forall2 (λ p sub, ∃ f, iter f s p = Ok sub) (map fst (concat level)) subs'
             ∧ concat subs ≡ₚ parents ++ concat subs'.
Proof.
  intros Hl Hs. revert level Hl. induction Hs as [|p sub parents subs [f Hp] _ IH]; intros level.
  - intros [= <-]. split; [intros c p H; inv H|]. exists []. split; [constructor|done].
  - intros (lv & level' & Hlv & Hrest & ->)%mapM_cons_Ok.
    destruct (IH _ Hrest) as (Hpar & subs' & Hsubs' & Hperm). clear IH.
    destruct (get_children s p) as [cs| | |] eqn:Ecs; simpl in Hlv; try done.
    injection Hlv as <-. split.
    + intros c q. simpl. rewrite elem_of_app.
      intros [(c' & [= -> ->] & Hin)%list_elem_of_fmap_1|Hin]; [|by apply Hpar].
      exists p, cs. done.
    + destruct f as [|f]; [done|]. cbn [iter] in Hp. rewrite Ecs in Hp. simpl in Hp.
      destruct (mapM (iter f s) cs) as [subl| | |] eqn:Em; simpl in Hp; try done.
      injection Hp as <-. exists (subl ++ subs'). split.
      * simpl. rewrite map_app, map_map. simpl. rewrite map_id.
        apply Forall2_app; [|done]. apply mapM_Forall2 in Em.
        eapply Forall2_impl; [exact Em|]. intros c sub' Hc. simpl in Hc. eauto.
      * simpl. rewrite concat_app, Hperm. solve_Permutation.
Qed.

Lemma extract_level_spec (fuel : nat) (s : store) (parents : list loc)
    (r : list (loc * option loc)) (subs : list (list loc)) :
  extract_level fuel s parents = Ok r →
  Forall2 (λ p sub, ∃ f, iter f s p = Ok sub) parents subs →
  (∀ c p, (c, p) ∈ r → ∃ p' cs, p = Some p' ∧ get_children s p' = Ok cs ∧ c ∈ cs)
  ∧ parents ++ map fst r ≡ₚ concat subs.
Proof.
  revert parents r subs. induction fuel as [|f IH]; intros parents r subs.
  - destruct parents; [|done]. intros [= <-] Hs. inv Hs. split; [|done].
    intros c p H. inv H.
  - cbn [extract_level]. destruct parents as [|p0 parents0] eqn:Ep.
    { intros [= <-] Hs. inv Hs. split; [|done]. intros c p H. inv H. }
    rewrite <- Ep. clear p0 parents0 Ep. intros H Hs.
    destruct (mapM _ parents) as [level| | |] eqn:El; simpl in H; try done.
    destruct (extract_level f s _) as [rest| | |] eqn:Er; simpl in H; try done.
    injection H as <-.
    destruct (level_children _ _ _ _ El Hs) as (Hpar & subs' & Hsubs' & Hperm).
    destruct (IH _ _ _ Er Hsubs') as [Hpar' Hperm']. split.
    + intros c p [Hin|Hin]%elem_of_app; auto.
    + rewrite Hperm, <- Hperm', map_app. done.
Qed.

(** [extract_nodes] yields the root with parent [None], then each other
    node of the tree once, with the element it is a child of: its
    nodes are those of [xtree.iter()], in another order. *)
Theorem extract_nodes_iter (fuel fuel' : nat) (s : store) (xtree : loc)
    (r : list (loc * option loc)) (nodes : list loc) :
  extract_nodes fuel s xtree = Ok r →
  iter fuel' s xtree = Ok nodes →
  map fst r ≡ₚ nodes
  ∧ ∃ rest, r = (xtree, None) :: rest
            ∧ ∀ c p, (c, p) ∈ rest →
                ∃ p' cs, p = Some p' ∧ get_children s p' = Ok cs ∧ c ∈ cs.
Proof.
  unfold extract_nodes. intros H Hn.
  destruct (extract_level fuel s [xtree]) as [rest| | |] eqn:Er; simpl in H; try done.
  injection H as <-.
  destruct (extract_level_spec _ _ _ _ [nodes] Er) as [Hpar Hperm].
  { constructor; [eauto|constructor]. }
  split; [|eauto]. simpl in *. by rewrite app_nil_r in Hperm.
Qed.

End ExtractNodes.

Lemma extract_nodes_iter_witness :
  ∃ r nodes,
    Lassy.extract_nodes 3 Samples.coindex_store 1%positive = Ok r
    ∧ Lassy.iter 3 Samples.coindex_store 1%positive = Ok nodes
    ∧ map fst r ≡ₚ nodes.
Proof.
  eexists _, _. split; [vm_compute; reflexivity|]. split; [vm_compute; reflexivity|].
  apply (extract_nodes_iter 3 3 Samples.coindex_store 1%positive).
  - vm_compute. reflexivity.
  - vm_compute. reflexivity.
Defined.

(** ** get_plain_type, and a dictionary without secondary edges *)

Section PlainTypes.
Import Decompose.

Section PlainType.
Context `{TA : TypeAlgebra}.
Variable set_iter : list string → list string.

(** The plain type of a node is the entry of the type table for its type
    key; a type key without entry gives KeyError. *)
Theorem get_plain_type_of_type_key (self : Decompose) (fuel : nat) (s : store)
    (grouped : Grouped) (node : loc) :
  get_plain_type set_iter self fuel s grouped node
  = (k ← get_type_key set_iter fuel s grouped node;
     of_option KeyError (type_dict self !! k)).
Proof.
  unfold get_plain_type, get_type_key, get_type_key_with.
  destruct (get s node) as [a| | |]; simpl; try done.
  destruct (cat a) as [c|]; [by case_bool_decide|].
  by destruct (pos a).
Qed.

End PlainType.

Lemma foldM_fix {A St} (body : A → St → result St) (l : list A) (st : St) :
  (∀ x, x ∈ l → ∀ st', body x st = Ok st' → st' = st) →
  ∀ st', foldM body l st = Ok st' → st' = st.
Proof.
  induction l as [|x l IH]; intros Hbody st'; cbn [foldM]; [by intros [= <-]|].
  destruct (body x st) as [st1| | |] eqn:E; simpl; try done.
  rewrite (Hbody x ltac:(left) _ E). apply IH.
  intros y Hy. apply Hbody. by right.
Qed.

(** Without a secondary [su] or [obj1] edge in the dictionary,
    [abstract_object_to_subject] returns the store and the dictionary as
    they are. *)
Theorem abstract_object_to_subject_no_secondary (s s' : store) (grouped grouped' : Grouped) :
  (∀ key ch c r, (key, ch) ∈ grouped → (c, r) ∈ ch → is_so secondary r = false) →
  abstract_object_to_subject s grouped = Ok (s', grouped') →
  s' = s ∧ grouped' = grouped.
Proof.
  intros Hno H. unfold abstract_object_to_subject in H.
  apply foldM_fix in H; [by simplify_eq|].
  intros key _ st'. unfold relabel_clause.
  destruct key as [mp|]; simpl; [|done].
  destruct (get s mp) as [a| | |]; simpl; try done.
  destruct (cat a) as [c|]; simpl; [|done].
  destruct (negb _); [by intros [= <-]|].
  destruct (children_of grouped (Some mp)) as [ch| | |] eqn:Eg; simpl; try done.
  apply children_of_Ok, dict_get_Some_elem in Eg.
  rewrite filter_none; [by intros [= <-]|].
  intros [c0 r0] Hin Hso. simpl in Hso. by rewrite (Hno _ _ _ _ Eg Hin) in Hso.
Qed.

End PlainTypes.

Lemma abstract_object_to_subject_no_secondary_witness :
  Decompose.abstract_object_to_subject Samples.hollow_store Samples.hollow_grouped
  = Ok (Samples.hollow_store, Samples.hollow_grouped).
Proof.
  assert (H : { r | Decompose.abstract_object_to_subject Samples.hollow_store
                      Samples.hollow_grouped = Ok r }).
  { eexists. vm_compute. reflexivity. }
  destruct H as [[s' g'] H]. rewrite H.
  assert (Hno : ∀ key ch c r, (key, ch) ∈ Samples.hollow_grouped → (c, r) ∈ ch →
                 Decompose.is_so secondary r = false).
  { intros key ch c r Hin Hc. unfold Samples.hollow_grouped in Hin.
    elem_cases; reflexivity. }
  by destruct (abstract_object_to_subject_no_secondary _ _ _ _ Hno H) as [-> ->].
Defined.

(** ** collapse_mwu: the collapsed text *)

Section CollapsedText.
Import Decompose.

Lemma append_cons (x : Ascii.ascii) (s t : string) :
  String x s +:+ t = String x (s +:+ t).
Proof. reflexivity. Qed.

Lemma substring_append_all (s t : string) :
  String.substring 0 (String.length s) (s +:+ t) = s.
Proof.
  induction s as [|c s IH]; [by destruct t|].
  rewrite append_cons. cbn [String.length String.substring]. by rewrite IH.
Qed.

Lemma length_append_space (s : string) :
  (String.length (s +:+ " ") - 1)%nat = String.length s.
Proof.
  assert (H : String.length (s +:+ " ") = S (String.length s)).
  { induction s as [|c s IH]; [done|]. rewrite append_cons. cbn [String.length].
    by rewrite IH. }
  rewrite H. lia.
Qed.

Lemma drop_last_space (s : string) : drop_last (s +:+ " ") = s.
Proof. unfold drop_last. rewrite length_append_space. apply substring_append_all. Qed.

Lemma append_assoc (a b c : string) : (a +:+ b) +:+ c = a +:+ (b +:+ c).
Proof. induction a as [|x a IH]; [done|]. rewrite !append_cons. by rewrite IH. Qed.

Lemma concat_spaces (words : list string) :
  words ≠ [] →
  String.concat "" (map (λ w, w +:+ " ") words) = String.concat " " words +:+ " ".
Proof.
  induction words as [|w ws IH]; [done|]. intros _.
  destruct ws as [|w' ws]; [done|].
  change (String.concat "" (map (λ w, w +:+ " ") (w :: w' :: ws)))
    with ((w +:+ " ") +:+ "" +:+ String.concat "" (map (λ w, w +:+ " ") (w' :: ws))).
  rewrite IH by done.
  change (String.concat " " (w :: w' :: ws))
    with (w +:+ " " +:+ String.concat " " (w' :: ws)).
  simpl. by rewrite !append_assoc.
Qed.

(** The text idiom of [collapse_mwu]: the words joined by single
    spaces. *)
Lemma collapsed_text (words : list string) :
  drop_last (String.concat "" (map (λ w, w +:+ " ") words)) = String.concat " " words.
Proof.
  destruct words as [|w ws]; [done|].
  rewrite concat_spaces by done. apply drop_last_space.
Qed.

Lemma foldM_app {A St} (body : A → St → result St) (l1 l2 : list A) (st : St) :
  foldM body (l1 ++ l2) st = (st1 ← foldM body l1 st; foldM body l2 st1).
Proof.
  revert st. induction l1 as [|x l1 IH]; intros st; [done|]. cbn [app foldM].
  destruct (body x st); simpl; [apply IH|done..].
Qed.

Lemma mapM_ext_elem {A B} (f g : A → result B) (l : list A) :
  (∀ x, x ∈ l → f x = g x) → mapM f l = mapM g l.
Proof.
  induction l as [|x l IH]; intros Hl; [done|]. cbn [mapM].
  rewrite (Hl x) by left. rewrite IH; [done|]. intros y Hy. apply Hl. by right.
Qed.

Lemma get_same (s s' : store) (l : loc) : s' !! l = s !! l → get s' l = get s l.
Proof. unfold get. by intros ->. Qed.

Lemma order_siblings_same (s s' : store) (l : list (loc * Rel)) :
  (∀ x, x ∈ l → s' !! x.1 = s !! x.1) →
  order_siblings s' l None = order_siblings s l None.
Proof.
  intros Hl. unfold order_siblings.
  rewrite (mapM_ext_elem _ (λ x : loc * Rel, a ← get s x.1; Ok (sort_key a, x))); [done|].
  intros x Hx. simpl. by rewrite (get_same _ _ _ (Hl x Hx)).
Qed.

(** The word that [collapse_mwu] gives a multi-word unit: the words of
    its children, in the order of their spans, joined by single spaces
    (when none of the children is itself a multi-word unit of the
    dictionary). *)
Theorem collapse_mwu_text (set_iter : list string → list string) (fuel : nat)
    (s s' : store) (grouped grouped' : Grouped) (k : loc) (ch : list (loc * Rel)) :
  NoDup (map fst grouped) →
  collapse_mwu set_iter fuel s grouped = Ok (s', grouped') →
  dict_get (Some k) grouped = Some ch →
  has_cat_in s ["mwu"] (Some k) = true →
  (∀ c r, (c, r) ∈ ch →
     ¬ (Some c ∈ map fst grouped ∧ has_cat_in s ["mwu"] (Some c) = true)) →
  ∃ nodes words a',
    order_siblings s ch None = Ok nodes
    ∧ mapM (λ x : loc * Rel, xa ← get s x.1; of_option KeyError (word xa)) nodes = Ok words
    ∧ get s' k = Ok a'
    ∧ word a' = Some (String.concat " " words).
Proof.
  intros Hnd H Hch Hmwu Hleafy. unfold collapse_mwu in H.
  destruct (foldM _ _ _) as [[s1 to_remove]| | |] eqn:E; simpl in H; try done.
  destruct (del_keys to_remove grouped) as [g1| | |]; simpl in H; try done.
  injection H as <- <-.
  assert (Hk : Some k ∈ map fst grouped).
  { apply dict_get_Some_elem in Hch. by apply (list_elem_of_fmap_2' fst _ (Some k, ch)). }
  apply list_elem_of_split in Hk as (pre & post & Hkeys).
  rewrite Hkeys in Hnd, E. apply NoDup_app in Hnd as (Hpre & Hdis & Hpost).
  apply NoDup_cons in Hpost as [Hkpost Hpost].
  assert (Hkpre : Some k ∉ pre) by (intros Hin; apply (Hdis _ Hin); left).
  rewrite foldM_app in E. apply bind_Ok in E as ([sa tra] & Ea & E).
  change (foldM ?b (?x :: ?l) ?st) with (st' ← b x st; foldM b l st') in E.
  apply bind_Ok in E as ([sb trb] & Eb & E).
  apply collapse_keys_spec in Ea as (_ & Hsa & _); [|done].
  apply collapse_keys_spec in E as (_ & Hsb & _); [|done].
  assert (Hka : sa !! k = s !! k) by (apply Hsa; by intros [? _]).
  assert (Hcha : ∀ x, x ∈ ch → sa !! x.1 = s !! x.1).
  { intros [c r] Hin. apply Hsa. intros [Hc Hm]. apply (Hleafy c r Hin).
    split; [|done]. rewrite Hkeys. apply elem_of_app. by left. }
  assert (Hkb : s1 !! k = sb !! k) by (apply Hsb; by intros [? _]).
  clear Hsa Hsb.
  unfold collapse_key in Eb. rewrite (get_same _ _ _ Hka) in Eb.
  destruct (get s k) as [a| | |] eqn:Eg; simpl in Eb; try done.
  rewrite (has_cat_in_mwu _ _ _ Eg) in Hmwu. rewrite Hmwu in Eb.
  unfold children_of in Eb. rewrite Hch in Eb. simpl in Eb.
  rewrite (order_siblings_same _ _ _ Hcha) in Eb.
  destruct (order_siblings s ch None) as [nodes| | |] eqn:Eo; simpl in Eb; try done.
  pose proof (order_siblings_perm _ _ _ _ Eo) as Hperm. simpl in Hperm.
  rewrite (mapM_ext_elem _ (λ x : loc * Rel, xa ← get s x.1; of_option KeyError (word xa)))
    in Eb.
  2:{ intros x Hx. simpl. rewrite (get_same s sa); [done|]. apply Hcha. by rewrite <- Hperm. }
  destruct (mapM _ nodes) as [words| | |] eqn:Ew; simpl in Eb; try done.
  destruct (upd _ k sa) as [s2| | |] eqn:Eu1; simpl in Eb; try done.
  destruct (majority_vote _ _ _ _ _) as [c| | |]; simpl in Eb; try done.
  destruct (upd _ k s2) as [s3| | |] eqn:Eu2; simpl in Eb; try done.
  injection Eb as <- <-.
  apply upd_Ok in Eu1 as (e1 & He1 & ->). apply upd_Ok in Eu2 as (e2 & He2 & ->).
  rewrite lookup_insert_eq in He2. injection He2 as <-.
  exists nodes, words. eexists. split; [done|]. split; [done|].
  unfold get. rewrite Hkb, lookup_insert_eq. split; [done|]. simpl.
  by rewrite collapsed_text.
Qed.

End CollapsedText.

Lemma collapse_mwu_text_witness :
  ∃ s' grouped' a',
    Decompose.collapse_mwu remove_dups 2 Samples.mwu_store Samples.mwu_grouped
      = Ok (s', grouped')
    ∧ get s' 3%positive = Ok a' ∧ word a' = Some "New York".
Proof.
  assert (H : { r | Decompose.collapse_mwu remove_dups 2 Samples.mwu_store Samples.mwu_grouped
                    = Ok r }).
  { eexists. vm_compute. reflexivity. }
  destruct H as [[s' g'] H].
  assert (Hnd : NoDup (map fst Samples.mwu_grouped)) by compute_done.
  assert (Hch : dict_get (Some 3%positive) Samples.mwu_grouped
                = Some [(4%positive, Plain "mwp"); (5%positive, Plain "mwp")])
    by reflexivity.
  assert (Hm : Decompose.has_cat_in Samples.mwu_store ["mwu"] (Some 3%positive) = true)
    by reflexivity.
  destruct (collapse_mwu_text remove_dups 2 Samples.mwu_store s' Samples.mwu_grouped g'
              3%positive _ Hnd H Hch Hm) as (nodes & words & a' & Ho & Hw & Ha & Hword).
  { intros c r Hin [_ Hc]. elem_cases; vm_compute in Hc; discriminate. }
  exists s', g', a'. split; [done|]. split; [done|].
  vm_compute in Ho. injection Ho as <-. vm_compute in Hw. injection Hw as <-.
  exact Hword.
Defined.
